(** * ContentIntelligence: the resource / workload / carbon scheduling triad

    A shallow embedding of [src/resource_management/neural_orchestrator.py]
    ([NeuralResourceOrchestrator], [WorkloadAwareScheduler],
    [CarbonAwareScheduler]) and the properties of its specification.

    Conventions of the embedding.
    - Python numbers are rationals [Q]: an [int] is embedded exactly, a
      [float] is the rational that it holds.  [Py.fl] rounds a rational to
      the nearest binary64 value, a tie to the even one.  The arithmetic
      on which a window, a label or an error depends is rounded with it
      after each operation, as the machine does it: the capacity of a
      window ([-=], exact on two [int]s), the carbon intensity of the
      hour, the float64 arrays of the predictor and the quotient
      [horizon / 30], which raises OverflowError when it is too large for
      a float.  The sums, means
      and products of the carbon savings, of the forecast, of the usage
      update and of the prediction confidence are taken exactly: what is
      proved of them holds of the program up to the rounding of the last
      digits.  Infinities and NaN have no counterpart; a float product
      or sum that would overflow is the rational itself, and the clamp
      to [0, 100] that follows it gives what it gives on the infinity.
      Integer results (a priority, a length) are [Z] or [nat].
    - A Python [dict] read with [.get(key, default)] is a record of optional
      fields (a job descriptor) or a [gmap string _] (lookup tables,
      thresholds, usage readings).
    - Everything the code reads from the outside (psutil probes, random
      draws, the clock) is an explicit argument.
    - A method is a computation in a state-and-exception monad over the
      attributes of [self] it can change; [try/except] is a combinator of
      that monad, and loops carry fuel. *)

From Stdlib Require Import ZArith QArith Qminmax Qround Qpower Qabs.
From Stdlib Require Import Ascii String List Lia Lqa.
From stdpp Require Import base option list sorting gmap strings pretty.

Open Scope Z_scope.

(** ** Python numbers *)

Module Py.

(** [a < b] on numbers, as a boolean. *)
Definition ltb (a b : Q) : bool :=
  Z.ltb (Qnum a * Zpos (Qden b)) (Qnum b * Zpos (Qden a)).

Definition leb (a b : Q) : bool := negb (ltb b a).

(** [a == b] on numbers. *)
Definition eqb (a b : Q) : bool := Qeq_bool a b.

(** Python's [max(a, b)]: the first argument unless the second is
    strictly larger. *)
Definition max (a b : Q) : Q := if ltb a b then b else a.

(** Python's [min(a, b)]: the first argument unless the second is
    strictly smaller. *)
Definition min (a b : Q) : Q := if ltb b a then b else a.

Definition Zmax (a b : Z) : Z := if Z.ltb a b then b else a.

(** [sum(xs)] *)
Definition sum (xs : list Q) : Q := fold_left Qplus xs 0%Q.

(** [len(xs)] as a number. *)
Definition len {A} (xs : list A) : Q := inject_Z (Z.of_nat (length xs)).

(** [xs[-n:]]: the last [n] elements (all of them when there are fewer). *)
Definition last_n {A} (n : nat) (xs : list A) : list A :=
  drop (length xs - n) xs.

(** [a / b] on numbers: [None] when [b] is zero. *)
Definition div (a b : Q) : option Q :=
  if eqb b 0 then None else Some (a / b)%Q.

(** [range(n)] *)
Definition range (n : nat) : list Z := Z.of_nat <$> seq 0 n.

(** [sorted(xs, key=key)], a stable sort in ascending order of the keys:
    an element goes before the first one whose key is not smaller than its
    own, so elements of equal keys keep the order they had. *)
Fixpoint insort {A} (key : A -> Q) (x : A) (l : list A) : list A :=
  match l with
  | [] => [x]
  | y :: l' =>
      if ltb (key y) (key x) then y :: insort key x l' else x :: y :: l'
  end.

Definition sorted {A} (key : A -> Q) (xs : list A) : list A :=
  foldr (insort key) [] xs.

(** *** Floats

    A [float] is a binary64 value: [m * 2^e] with [|m| < 2^53] and
    [e >= -1074].  The exponent has no upper bound here (see
    [int_truediv] for the one place where Python raises on it). *)

Definition pow2 (e : Z) : Q := (2 ^ e)%Q.

(** [floor (log2 x)], for [x > 0]. *)
Definition ilog2 (x : Q) : Z :=
  let k := Z.log2 (Qnum x) - Z.log2 (Zpos (Qden x)) in
  if Qle_bool (pow2 k) x then k else k - 1.

(** The nearest integer, a tie going to the even one. *)
Definition rne (q : Q) : Z :=
  let f := Qfloor q in
  match (q - inject_Z f ?= 1 # 2)%Q with
  | Lt => f
  | Gt => f + 1
  | Eq => if Z.even f then f else f + 1
  end.

(** The exponent of the last place of the floats around [x > 0]: 53
    significant bits, and subnormal below [2^-1022]. *)
Definition ulp_exp (x : Q) : Z := Z.max (ilog2 x - 52) (-1074).

Definition fl_pos (x : Q) : Q :=
  let e := ulp_exp x in
  Qred (inject_Z (rne (x / pow2 e)) * pow2 e).

(** The float nearest to [x], in lowest terms. *)
Definition fl (x : Q) : Q :=
  match Qnum x with
  | Z0 => 0%Q
  | Zpos _ => fl_pos x
  | Zneg _ => (- fl_pos (- x))%Q
  end.

(** The least magnitude that rounds to [2^1024], past the largest
    float. *)
Definition overflow_threshold : Q := (pow2 1024 - pow2 970)%Q.

(** The number is one that a float holds; an [int] up to [2^53] is. *)
Definition is_float (x : Q) : bool := Qeq_bool (fl x) x.

(** The number is a whole one: an [int], or a float without a
    fractional part. *)
Definition is_int (x : Q) : bool := Qeq_bool (inject_Z (Qfloor x)) x.

(** [x - y] on two numbers of Python.  Two [int]s are subtracted exactly,
    whatever their size, and so are two whole floats up to [2^53]; when
    one of the two has a fractional part both are floats and the
    difference is rounded.  A rational that no [int] and no float holds
    (a [Fraction]) is subtracted exactly. *)
Definition fsub (x y : Q) : Q :=
  if is_int x && is_int y then (x - y)%Q
  else if is_float x && is_float y then fl (x - y)
  else (x - y)%Q.

End Py.

(** ** Exceptions and mutable state

    A method body is a computation over the mutable state it can reach.  It
    ends with a value, with a raised exception, or stuck (see [stuck]); in
    each case the state is the one reached at that point: Python does not
    roll a mutation back when an exception is raised. *)

Inductive exn :=
| TypeError | KeyError | IndexError | ZeroDivisionError | OverflowError
| OSError.

(** Ways for the model, not for the program, to stop: a loop given too
    little fuel, and a numpy operation whose result is not a finite number
    (the mean of an empty array, a float64 division by zero), which numpy
    reports with a warning and not with an exception. *)
Inductive stuck := OutOfFuel | NotFinite.

Inductive res (A : Type) :=
| Val (a : A)
| Exn (e : exn)
| Stuck (w : stuck).
Arguments Val {A} a.
Arguments Exn {A} e.
Arguments Stuck {A} w.

(** The computation did not stop for a reason of the model. *)
Definition not_stuck {A} (r : res A) : Prop :=
  match r with Stuck _ => False | _ => True end.

Definition M (S A : Type) : Type := S -> res A * S.

#[global] Instance M_ret {S} : MRet (M S) :=
  fun A (a : A) s => (Val a, s).

#[global] Instance M_bind {S} : MBind (M S) :=
  fun A B (k : A -> M S B) (c : M S A) s =>
    match c s with
    | (Val a, s') => k a s'
    | (Exn e, s') => (Exn e, s')
    | (Stuck w, s') => (Stuck w, s')
    end.

Definition raise {S A} (e : exn) : M S A := fun s => (Exn e, s).

Definition stop {S A} (w : stuck) : M S A := fun s => (Stuck w, s).

(** A value that is there, or the exception raised when it is not. *)
Definition expect {S A} (e : exn) (o : option A) : M S A :=
  match o with Some a => mret a | None => raise e end.

(** A numpy result that is a finite number, or the model stops. *)
Definition finite {S A} (o : option A) : M S A :=
  match o with Some a => mret a | None => stop NotFinite end.

(** [a / b] on two [int]s: the quotient rounded to the nearest float,
    OverflowError ("integer division result too large for a float") when
    that is [2^1024] or more in absolute value. *)
Definition int_truediv {S} (a b : Z) : M S Q :=
  if b =? 0 then raise ZeroDivisionError
  else
    let q := Py.fl (inject_Z a / inject_Z b) in
    if Qle_bool (Py.pow2 1024) (Qabs q) then raise OverflowError
    else mret q.

Definition read {S} : M S S := fun s => (Val s, s).

Definition write {S} (s : S) : M S unit := fun _ => (Val tt, s).

(** A computation on the first component of the state (an attribute of
    [self]) run where the state also holds the locals of a method. *)
Definition on_self {S L A} (c : M S A) : M (S * L) A :=
  fun st => let '(r, s') := c (fst st) in (r, (s', snd st)).

Definition read_locals {S L} : M (S * L) L := fun st => (Val (snd st), st).

Definition write_locals {S L} (l : L) : M (S * L) unit :=
  fun st => (Val tt, (fst st, l)).

(** Run a method body with its locals initialised to [l0]; the locals are
    gone when it returns. *)
Definition with_locals {S L A} (l0 : L) (c : M (S * L) A) : M S A :=
  fun s => let '(r, st) := c (s, l0) in (r, fst st).

(** [try: body  except Exception as e: handler e] *)
Definition try_except {S A} (body : M S A) (handler : exn -> M S A) : M S A :=
  fun s =>
    match body s with
    | (Exn e, s') => handler e s'
    | r => r
    end.

(** ** Job descriptors *)

(** A job is a [Dict[str, Any]]; the record has one optional field per key
    the schedulers read, [None] meaning that the key is absent. *)
Module Job.
Record t := mk {
  id : option string;
  type : option string;
  urgency : option string;
  resource_weight : option Q;
  estimated_duration_hours : option Q;
  carbon_priority : option string
}.
End Job.
Abbreviation Job := Job.t.

(** [d.get(key, dflt)] *)
Definition get {A} (field : option A) (dflt : A) : A := default dflt field.

(** ** numpy on lists

    A 1-D array is a [list Q], a 2-D array the list of its rows.  The
    operations on the float64 arrays of the predictor round each entry
    of their result; [mean] and [var], which the confidence and the
    carbon savings use, are taken exactly. *)

Module np.

(** [np.mean(xs)] of a 1-D array; not a number when it is empty. *)
Definition mean (xs : list Q) : option Q :=
  match xs with
  | [] => None
  | _ => Some (Py.sum xs / Py.len xs)%Q
  end.

(** [np.var(xs)]: the mean squared deviation from the mean. *)
Definition var (xs : list Q) : option Q :=
  match mean xs with
  | None => None
  | Some m => mean (map (fun x => (x - m) * (x - m))%Q xs)
  end.

(** [a + b], [a - b] and [a * c] on float64 arrays of one shape. *)
Definition add (a b : list Q) : list Q :=
  zip_with (fun x y => Py.fl (x + y)) a b.
Definition sub (a b : list Q) : list Q :=
  zip_with (fun x y => Py.fl (x - y)) a b.
Definition scale (a : list Q) (c : Q) : list Q :=
  map (fun x => Py.fl (x * c)) a.

Definition zeros (n : nat) : list Q := replicate n 0%Q.

(** [np.diff(rows, axis=0)]: each row minus the row before it. *)
Fixpoint diff (rows : list (list Q)) : list (list Q) :=
  match rows with
  | r1 :: (r2 :: _) as rest => sub r2 r1 :: diff rest
  | _ => []
  end.

(** [np.mean(rows, axis=0)]: the mean of each column, the rows added
    one after the other from the first and the sum divided by their
    number; not a number when there is no row. *)
Definition mean_axis0 (rows : list (list Q)) : option (list Q) :=
  match rows with
  | [] => None
  | r :: rs =>
      Some (map (fun x => Py.fl (x / Py.len rows)) (fold_left add rs r))
  end.

End np.

(** ** NeuralResourceOrchestrator *)

(** A [datetime], through the two observations the code makes of it. *)
Module datetime.
Record t := mk {
  mktime : Z;    (* time.mktime(ts.timetuple()), whole seconds *)
  weekday : Z    (* ts.weekday() *)
}.
End datetime.

Module ResourceMetrics.
Record t := mk {
  cpu_usage : Q;
  memory_usage : Q;
  gpu_usage : Q;
  storage_usage : Q;
  network_io : Q;
  timestamp : datetime.t
}.
End ResourceMetrics.

(** What one call of [monitor_resources] reads from psutil, torch, the
    random generator and the clock; [None] is a probe that raises. *)
Module Probes.
Record t := mk {
  cpu_percent : option Q;            (* psutil.cpu_percent(interval=1) *)
  virtual_memory : option Q;         (* psutil.virtual_memory().percent *)
  gpu_available : bool;              (* self._gpu_available() *)
  uniform_20_80 : Q;                 (* np.random.uniform(20, 80) *)
  disk_usage : option (Q * Q);       (* psutil.disk_usage('/'): used, total *)
  net_io_counters : option (Q * Q);  (* bytes_sent, bytes_recv *)
  now : datetime.t                   (* datetime.now(timezone.utc) *)
}.
End Probes.

(** The [predicted_usage] dictionary. *)
Module Predicted.
Record t := mk {
  cpu_usage : Q;
  memory_usage : Q;
  gpu_usage : Q;
  storage_usage : Q
}.
End Predicted.

Module Recommendation.
Record t := mk {
  resource : string;
  action : string;
  urgency : string;
  description : string;
  suggested_action : string
}.
End Recommendation.

Inductive PredictionResult :=
| InsufficientData (reason : string)
  (* {'prediction_available': False, 'reason': reason} *)
| Prediction (time_horizon_minutes : Z) (predicted_usage : Predicted.t)
  (recommendations : list Recommendation.t) (confidence : Q)
  (* {'prediction_available': True, ...} *)
| PredictionFailed (error : exn).
  (* {'prediction_available': False, 'error': str(e)} *)

Definition prediction_available (r : PredictionResult) : bool :=
  match r with Prediction _ _ _ _ => true | _ => false end.

Module NeuralResourceOrchestrator.

(** The state of an orchestrator that its methods touch:
    [self.resource_history]. *)
Abbreviation history := (list ResourceMetrics.t).

Definition __init__ : history := [].

(** The body of the [try] block of [monitor_resources]. *)
Definition monitor_resources_try (env : Probes.t)
    : M history ResourceMetrics.t :=
  cpu_usage ← expect OSError (Probes.cpu_percent env);
  memory ← expect OSError (Probes.virtual_memory env);
  let gpu_usage :=
    if Probes.gpu_available env then Probes.uniform_20_80 env else 0%Q in
  disk ← expect OSError (Probes.disk_usage env);
  network ← expect OSError (Probes.net_io_counters env);
  used_ratio ← expect ZeroDivisionError (Py.div (fst disk) (snd disk));
  let metrics :=
    ResourceMetrics.mk cpu_usage memory gpu_usage (used_ratio * 100)%Q
      (fst network + snd network)%Q (Probes.now env) in
  resource_history ← read;
  write (resource_history ++ [metrics]);;
  resource_history ← read;
  (if (1000 <? length resource_history)%nat
   then write (drop 1 resource_history)   (* pop(0) *)
   else mret tt);;
  mret metrics.

Definition monitor_resources (env : Probes.t) : M history ResourceMetrics.t :=
  try_except (monitor_resources_try env)
    (fun _ => mret (ResourceMetrics.mk 0 0 0 0 0 (Probes.now env))).

(** The rows of [np.array(features)], a float64 array. *)
Definition _extract_prediction_features
    (metrics : list ResourceMetrics.t) : list (list Q) :=
  map (fun metric =>
         [ Py.fl (ResourceMetrics.cpu_usage metric / 100);
           Py.fl (ResourceMetrics.memory_usage metric / 100);
           Py.fl (ResourceMetrics.gpu_usage metric / 100);
           Py.fl (ResourceMetrics.storage_usage metric / 100);
           Py.fl (inject_Z (datetime.mktime (ResourceMetrics.timestamp metric)
                            mod 86400) / 86400);
           Py.fl (inject_Z (datetime.weekday (ResourceMetrics.timestamp metric))
                  / 7)
         ])
      metrics.

(** [max(0, min(100, x * 100))] *)
Definition clamp_percent (x : Q) : Q :=
  Py.max 0 (Py.min 100 (Py.fl (x * 100))).

Definition _neural_predict {S} (features : list (list Q)) (horizon : Z)
    : M S Predicted.t :=
  current_usage ← expect IndexError (last features);
  trend ← (if (5 <=? length features)%nat
           then finite (np.mean_axis0 (np.diff (Py.last_n 5 features)))
           else mret (np.zeros 6));
  scale ← int_truediv horizon 30;
  let future_usage := np.add current_usage (np.scale trend scale) in
  f0 ← expect IndexError (future_usage !! 0%nat);
  f1 ← expect IndexError (future_usage !! 1%nat);
  f2 ← expect IndexError (future_usage !! 2%nat);
  f3 ← expect IndexError (future_usage !! 3%nat);
  mret (Predicted.mk (clamp_percent f0) (clamp_percent f1)
                     (clamp_percent f2) (clamp_percent f3)).

Definition _generate_resource_recommendations (predictions : Predicted.t)
    : list Recommendation.t :=
  let recommendations := [] in
  let recommendations :=
    if Py.ltb 85 (Predicted.cpu_usage predictions) then
      recommendations ++
        [Recommendation.mk "CPU" "scale_up" "high"
           "CPU usage predicted to exceed 85%"
           "Add 2 more CPU cores or scale horizontally"]
    else if Py.ltb (Predicted.cpu_usage predictions) 30 then
      recommendations ++
        [Recommendation.mk "CPU" "scale_down" "low"
           "CPU usage predicted to be below 30%"
           "Consider reducing CPU allocation"]
    else recommendations in
  let recommendations :=
    if Py.ltb 90 (Predicted.memory_usage predictions) then
      recommendations ++
        [Recommendation.mk "Memory" "scale_up" "critical"
           "Memory usage predicted to exceed 90%"
           "Increase memory allocation immediately"]
    else recommendations in
  let recommendations :=
    if Py.ltb 80 (Predicted.gpu_usage predictions) then
      recommendations ++
        [Recommendation.mk "GPU" "optimize" "medium"
           "GPU usage predicted to be high"
           "Enable model quantization or batch optimization"]
    else recommendations in
  recommendations.

Definition _calculate_prediction_confidence : M history Q :=
  resource_history ← read;
  if (length resource_history <? 50)%nat then mret (6 # 10)%Q
  else
    let recent_cpu :=
      map ResourceMetrics.cpu_usage (Py.last_n 20 resource_history) in
    cpu_variance ← finite (np.var recent_cpu);
    let confidence := Py.max (5 # 10) (1 - cpu_variance / 1000)%Q in
    mret (Py.min (95 # 100) confidence).

Definition predict_resource_needs (time_horizon_minutes : Z)
    : M history PredictionResult :=
  try_except
    (resource_history ← read;
     if (length resource_history <? 10)%nat then
       mret (InsufficientData "Insufficient historical data")
     else
       let recent_metrics := Py.last_n 10 resource_history in
       let features := _extract_prediction_features recent_metrics in
       predictions ← _neural_predict features time_horizon_minutes;
       let recommendations :=
         _generate_resource_recommendations predictions in
       confidence ← _calculate_prediction_confidence;
       mret (Prediction time_horizon_minutes predictions recommendations
                        confidence))
    (fun e => mret (PredictionFailed e)).

(** Feeding a sequence of probe readings to [monitor_resources], one call
    for each. *)
Fixpoint monitor_all (envs : list Probes.t) (h : history) : history :=
  match envs with
  | [] => h
  | env :: rest => monitor_all rest (snd (monitor_resources env h))
  end.

End NeuralResourceOrchestrator.

(** ** heapq

    CPython's [heapq] ([heappush], [heappop] and the two sift loops of
    [_heapqmodule.c], which make the comparisons of [heapq.py] in the same
    order), on a list and for an element type whose [<] may raise. *)
Module heapq.
Section heapq.

Context {E : Type} (lt : E -> E -> option bool).

Definition swap (heap : list E) (i j : nat) : list E :=
  match heap !! i, heap !! j with
  | Some a, Some b => <[i:=b]> (<[j:=a]> heap)
  | _, _ => heap
  end.

(** [siftdown(heap, startpos, pos)]: follow the path to the root, moving
    the item at [pos] up while it is smaller than its parent. *)
Fixpoint siftdown (fuel : nat) (startpos pos : nat) : M (list E) unit :=
  match fuel with
  | O => stop OutOfFuel
  | S fuel =>
      if (startpos <? pos)%nat then
        heap ← read;
        let parentpos := ((pos - 1) / 2)%nat in
        newitem ← expect IndexError (heap !! pos);
        parent ← expect IndexError (heap !! parentpos);
        cmp ← expect TypeError (lt newitem parent);
        if cmp : bool then
          write (swap heap pos parentpos);;
          siftdown fuel startpos parentpos
        else mret tt
      else mret tt
  end.

(** The first loop of [siftup]: bubble the smaller child up until
    reaching a leaf; the result is the position reached. *)
Fixpoint siftup_loop (fuel : nat) (endpos pos : nat) : M (list E) nat :=
  match fuel with
  | O => stop OutOfFuel
  | S fuel =>
      if (pos <? endpos / 2)%nat then
        heap ← read;
        let childpos := (2 * pos + 1)%nat in
        childpos ←
          (if (childpos + 1 <? endpos)%nat then
             a ← expect IndexError (heap !! childpos);
             b ← expect IndexError (heap !! (childpos + 1)%nat);
             cmp ← expect TypeError (lt a b);
             mret (if cmp : bool then childpos else (childpos + 1)%nat)
           else mret childpos);
        write (swap heap childpos pos);;
        siftup_loop fuel endpos childpos
      else mret pos
  end.

Definition siftup (pos : nat) : M (list E) unit :=
  heap ← read;
  let endpos := length heap in
  if (endpos <=? pos)%nat then raise IndexError
  else
    leaf ← siftup_loop (S endpos) endpos pos;
    siftdown (S endpos) pos leaf.

Definition heappush (item : E) : M (list E) unit :=
  heap ← read;
  write (heap ++ [item]);;
  siftdown (S (length heap)) 0 (length heap).

Definition heappop : M (list E) E :=
  heap ← read;
  lastelt ← expect IndexError (last heap);
  let heap := take (length heap - 1) heap in
  write heap;;
  match heap with
  | [] => mret lastelt
  | returnitem :: _ =>
      write (<[0%nat:=lastelt]> heap);;
      siftup 0;;
      mret returnitem
  end.

End heapq.
End heapq.

(** ** WorkloadAwareScheduler *)

Module Config.
(** [self.config], through the one key the scheduler reads. *)
Record t := mk { resource_thresholds : option (gmap string Q) }.
End Config.

(** What [_get_current_resource_usage] and [time.time()] read in one call
  of [schedule_job]. *)
Module Env.
Record t := mk {
  cpu_percent : Q;       (* psutil.cpu_percent() *)
  memory_percent : Q;    (* psutil.virtual_memory().percent *)
  uniform_20_80 : Q;     (* np.random.uniform(20, 80) *)
  time : Z               (* int(time.time()) *)
}.
End Env.

Module JobResult.
Record t := mk { status : string; job_type : string; output : string }.
End JobResult.

Module Executed.
Record t := mk { job_id : string; execution_time : Q; result : JobResult.t }.
End Executed.

Module ExecutionResult.
Record t := mk {
  jobs_executed : nat;
  executed_jobs : list Executed.t;
  remaining_queue_size : nat
}.
End ExecutionResult.

Inductive ScheduleResult :=
| Scheduled (job_id : string) (priority : Z) (queue_position : nat)
  (execution_result : ExecutionResult.t)
  (* {'job_scheduled': True, ...} *)
| NotScheduled (error : exn).
  (* {'job_scheduled': False, 'error': str(e)} *)

Module WorkloadAwareScheduler.

Definition type_priorities : gmap string Z :=
  <["training" := 50]> (<["inference" := 10]>
    (<["batch_processing" := 30]> (<["model_optimization" := 40]> ∅))).

Definition urgency_modifiers : gmap string Z :=
  <["critical" := -30]> (<["high" := -15]>
    (<["normal" := 0]> (<["low" := 15]> ∅))).

Definition _calculate_job_priority (job : Job) : Z :=
  let priority := 100 in
  let job_type := get (Job.type job) "inference"%string in
  let priority := priority + default 50 (type_priorities !! job_type) in
  let urgency := get (Job.urgency job) "normal"%string in
  let priority := priority + default 0 (urgency_modifiers !! urgency) in
  let resource_weight := get (Job.resource_weight job) 1%Q in
  let priority :=
    if Py.ltb 2 resource_weight then priority + 20 else priority in
  Py.Zmax 1 priority.

(** *** The job queue: [asyncio.PriorityQueue] over [heapq] *)

(** A queue entry: the tuple [(job_priority, job_id, job)]. *)
Definition Entry : Type := Z * string * Job.

Definition opt_eqb {A} (eqb : A -> A -> bool) (a b : option A) : bool :=
  match a, b with
  | Some x, Some y => eqb x y
  | None, None => true
  | _, _ => false
  end.

(** [job1 == job2] on dictionaries: the same keys with equal values. *)
Definition job_eqb (a b : Job) : bool :=
  opt_eqb String.eqb (Job.id a) (Job.id b)
  && opt_eqb String.eqb (Job.type a) (Job.type b)
  && opt_eqb String.eqb (Job.urgency a) (Job.urgency b)
  && opt_eqb Py.eqb (Job.resource_weight a) (Job.resource_weight b)
  && opt_eqb Py.eqb (Job.estimated_duration_hours a)
                    (Job.estimated_duration_hours b)
  && opt_eqb String.eqb (Job.carbon_priority a) (Job.carbon_priority b).

(** [e1 < e2] on entries, Python's comparison of tuples: the first
    position where the two differ decides.  Two integers and two strings
    are ordered; two different dictionaries are not, and comparing them
    raises TypeError ([None]). *)
Definition entry_lt (e1 e2 : Entry) : option bool :=
  let '(p1, id1, job1) := e1 in
  let '(p2, id2, job2) := e2 in
  if negb (p1 =? p2) then Some (p1 <? p2)
  else if negb (String.eqb id1 id2) then Some (String.ltb id1 id2)
  else if job_eqb job1 job2 then Some false
  else None.

(** *** Scheduling and draining *)

(** [self.job_queue]. *)
Abbreviation queue := (list Entry).

Definition __init__ : queue := [].

(** The locals of [_try_execute_jobs]. *)
Record locals := mkLocals {
  executed_jobs : list Executed.t;
  current_metrics : gmap string Q
}.

Definition put (item : Entry) : M queue unit := heapq.heappush entry_lt item.
Definition get_nowait : M queue Entry := heapq.heappop entry_lt.
Definition empty (q : queue) : bool := (length q =? 0)%nat.
Definition qsize (q : queue) : nat := length q.

Definition _get_current_resource_usage (env : Env.t) : gmap string Q :=
  <["cpu" := Env.cpu_percent env]>
    (<["memory" := Env.memory_percent env]>
      (<["gpu" := Env.uniform_20_80 env]> ∅)).

Definition default_thresholds : gmap string Q :=
  <["cpu" := 80%Q]> (<["memory" := 85%Q]> (<["gpu" := 90%Q]> ∅)).

Definition _can_execute_job (config : Config.t)
    (current_metrics : gmap string Q) : bool :=
  let thresholds :=
    get (Config.resource_thresholds config) default_thresholds in
  forallb (fun '(resource, threshold) =>
             Py.ltb (default 0%Q (current_metrics !! resource)) threshold)
          (map_to_list thresholds).

(** The simulated execution; [sleep] is the time it takes. *)
Definition sleep (job : Job) : Q :=
  let job_type := get (Job.type job) "inference"%string in
  if String.eqb job_type "training" then 2%Q
  else if String.eqb job_type "inference" then (1 # 10)%Q
  else (5 # 10)%Q.

Definition _execute_job (job : Job) : JobResult.t :=
  let job_type := get (Job.type job) "inference"%string in
  JobResult.mk "completed" job_type
    ("Result for " +:+ get (Job.id job) "unknown"%string).

Definition _update_resource_usage {S} (job : Job)
    (current_metrics : gmap string Q) : M S (gmap string Q) :=
  let resource_impact := get (Job.resource_weight job) 1%Q in
  cpu ← expect KeyError (current_metrics !! "cpu");
  memory ← expect KeyError (current_metrics !! "memory");
  gpu ← expect KeyError (current_metrics !! "gpu");
  mret (<["cpu" := Py.min 100 (cpu + resource_impact * 10)%Q]>
         (<["memory" := Py.min 100 (memory + resource_impact * 5)%Q]>
           (<["gpu" := Py.min 100 (gpu + resource_impact * 15)%Q]> ∅))).

(** One passage through the body of the [while] loop, with its
    [try/except]: the time measured around [_execute_job] is the time
    the job sleeps. *)
Definition drain_body : M (queue * locals) unit :=
  try_except
    ('(priority, job_id, job) ← on_self get_nowait;
     let execution_time := sleep job in
     let result := _execute_job job in
     l ← read_locals;
     write_locals
       (mkLocals
          (executed_jobs l ++ [Executed.mk job_id execution_time result])
          (current_metrics l));;
     l ← read_locals;
     m ← _update_resource_usage job (current_metrics l);
     write_locals (mkLocals (executed_jobs l) m))
    (fun _ => mret tt).

Fixpoint drain (fuel : nat) (config : Config.t) : M (queue * locals) unit :=
  match fuel with
  | O => stop OutOfFuel
  | S fuel =>
      st ← read;
      if negb (empty (fst st))
         && _can_execute_job config (current_metrics (snd st))
      then drain_body;; drain fuel config
      else mret tt
  end.

Definition _try_execute_jobs (config : Config.t) (env : Env.t)
    : M queue ExecutionResult.t :=
  job_queue ← read;
  with_locals (mkLocals [] (_get_current_resource_usage env))
    (drain (S (length job_queue)) config;;
     st ← read;
     mret (ExecutionResult.mk (length (executed_jobs (snd st)))
                              (executed_jobs (snd st))
                              (qsize (fst st)))).

Definition schedule_job (config : Config.t) (env : Env.t) (job : Job)
    : M queue ScheduleResult :=
  try_except
    (let job_priority := _calculate_job_priority job in
     let job_id := get (Job.id job) ("job_" +:+ pretty (Env.time env)) in
     put (job_priority, job_id, job);;
     execution_result ← _try_execute_jobs config env;
     job_queue ← read;
     mret (Scheduled job_id job_priority (qsize job_queue)
                     execution_result))
    (fun e => mret (NotScheduled e)).

End WorkloadAwareScheduler.

(** ** CarbonAwareScheduler *)

Module Window.
Record t := mk {
  start_hour : Z;
  end_hour : Z;
  carbon_intensity : Q;
  renewable_percentage : Q;
  capacity : Q
}.
End Window.

Module ScheduledEntry.
Record t := mk {
  job_id : option string;
  scheduled_start : Z;
  scheduled_end : Z;
  carbon_intensity : Q;
  renewable_percentage : Q;
  carbon_priority : string
}.
End ScheduledEntry.

Module CarbonSavings.
(** The dictionary has its last three keys only when a job was
    scheduled. *)
Record t := mk {
  total_savings_kg_co2 : Q;
  percentage_reduction : Q;
  immediate_emissions_kg_co2 : option Q;
  green_emissions_kg_co2 : option Q;
  jobs_scheduled : option nat
}.
End CarbonSavings.

Module CarbonAwareScheduler.

Definition job_duration (job : Job) : Q :=
  get (Job.estimated_duration_hours job) 1%Q.

(** [window['capacity'] -= job_duration] *)
Definition take_capacity (window : Window.t) (d : Q) : Window.t :=
  Window.mk (Window.start_hour window) (Window.end_hour window)
    (Window.carbon_intensity window) (Window.renewable_percentage window)
    (Py.fsub (Window.capacity window) d).

Definition entry_for (job : Job) (window : Window.t) : ScheduledEntry.t :=
  ScheduledEntry.mk (Job.id job)
    (Window.start_hour window) (Window.end_hour window)
    (Window.carbon_intensity window) (Window.renewable_percentage window)
    (get (Job.carbon_priority job) "normal"%string).

(** The inner loop, [for window in windows: ... break]: the entry
    appended, if any, and the windows after it. *)
Fixpoint find_window (job : Job) (windows : list Window.t)
    : option ScheduledEntry.t * list Window.t :=
  match windows with
  | [] => (None, [])
  | window :: rest =>
      if Py.leb (job_duration job) (Window.capacity window) then
        (Some (entry_for job window),
         take_capacity window (job_duration job) :: rest)
      else
        let '(r, rest') := find_window job rest in (r, window :: rest')
  end.

(** One passage through the outer loop, on the pair of [scheduled] and
    the windows. *)
Definition place (st : list ScheduledEntry.t * list Window.t) (job : Job)
    : list ScheduledEntry.t * list Window.t :=
  match find_window job (snd st) with
  | (Some e, windows) => (fst st ++ [e], windows)
  | (None, windows) => (fst st, windows)
  end.

(** The result is [scheduled]; the second component is what the call has
    made of the caller's windows. *)
Definition _schedule_in_green_windows (jobs : list Job)
    (windows : list Window.t) : list ScheduledEntry.t * list Window.t :=
  fold_left place jobs ([], windows).

Definition _calculate_carbon_savings {S}
    (scheduled_jobs : list ScheduledEntry.t) : M S CarbonSavings.t :=
  let total_jobs := length scheduled_jobs in
  if (total_jobs =? 0)%nat then
    mret (CarbonSavings.mk 0 0 None None None)
  else
    let immediate_intensity := 450%Q in
    green_avg_intensity ←
      finite (np.mean (map ScheduledEntry.carbon_intensity scheduled_jobs));
    let immediate_emissions :=
      (Py.len scheduled_jobs * immediate_intensity / 1000)%Q in
    let green_emissions :=
      (Py.len scheduled_jobs * green_avg_intensity / 1000)%Q in
    let savings := (immediate_emissions - green_emissions)%Q in
    percentage_reduction ←
      (if Py.ltb 0 immediate_emissions then
         ratio ← finite (Py.div savings immediate_emissions);
         mret (ratio * 100)%Q
       else mret 0%Q);
    mret (CarbonSavings.mk (Py.max 0 savings) (Py.max 0 percentage_reduction)
            (Some immediate_emissions) (Some green_emissions)
            (Some total_jobs)).

(** What [_get_carbon_intensity] reads: the local hour, the random draw
    of the branch taken and the UTC time as an ISO string. *)
Record CarbonEnv := mkCarbonEnv {
  hour : Z;            (* datetime.now().hour *)
  uniform_50 : Q;      (* np.random.uniform(-50, 50) *)
  uniform_30 : Q;      (* np.random.uniform(-30, 30) *)
  now_iso : string     (* datetime.now(timezone.utc).isoformat() *)
}.

Record CarbonIntensity := mkCarbonIntensity {
  intensity_gco2_kwh : Q;
  timestamp : string;
  source : string
}.

Definition _get_carbon_intensity (env : CarbonEnv) : CarbonIntensity :=
  let current_hour := hour env in
  let base_intensity := 400%Q in
  let intensity :=
    if (8 <=? current_hour) && (current_hour <=? 18)
    then Py.fl (base_intensity - 100 + uniform_50 env)
    else Py.fl (base_intensity + 50 + uniform_30 env) in
  mkCarbonIntensity (Py.max 200 intensity) (now_iso env)
    (if Py.ltb intensity 350 then "renewable" else "mixed").

(** The draws of one passage of the loop of [_find_green_windows]:
    [np.random.uniform(-50, 50)] and [np.random.uniform(-10, 10)], by
    hour. *)
Abbreviation Forecast := (Z -> Q * Q).

(** The [jobs] argument is not read. *)
Definition _find_green_windows (forecast : Forecast) (jobs : list Job)
    : list Window.t :=
  let green_windows :=
    fold_left
      (fun green_windows hour =>
         let '(u, r) := forecast hour in
         let '(intensity, renewable_percentage) :=
           if (9 <=? hour) && (hour <=? 17)
           then (250 + u, 70 + r)%Q
           else (450 + u, 30 + r)%Q in
         if Py.ltb intensity 350 then
           green_windows
             ++ [Window.mk hour (hour + 1) intensity renewable_percentage 10]
         else green_windows)
      (Py.range 24) [] in
  Py.sorted Window.carbon_intensity green_windows.

Inductive CarbonSchedule :=
| Completed (current_carbon_intensity : CarbonIntensity)
    (scheduled_jobs : list ScheduledEntry.t) (carbon_savings : CarbonSavings.t)
    (green_windows : list Window.t)
    (* {'carbon_scheduling_completed': True, ...} *)
| NotCompleted (error : exn).
    (* {'carbon_scheduling_completed': False, 'error': str(e)} *)

(** [green_windows] in the result is the list that
    [_schedule_in_green_windows] has worked on: the windows as the packing
    left them. *)
Definition get_carbon_optimal_schedule {S} (env : CarbonEnv)
    (forecast : Forecast) (jobs : list Job) : M S CarbonSchedule :=
  try_except
    (let current_intensity := _get_carbon_intensity env in
     let optimal_windows := _find_green_windows forecast jobs in
     let '(scheduled_jobs, optimal_windows) :=
       _schedule_in_green_windows jobs optimal_windows in
     carbon_savings ← _calculate_carbon_savings scheduled_jobs;
     mret (Completed current_intensity scheduled_jobs carbon_savings
                     optimal_windows))
    (fun e => mret (NotCompleted e)).

End CarbonAwareScheduler.

(** ** The caller: [GreenAISystemV9._resource_optimization]

    The system holds one orchestrator, one workload scheduler and one
    carbon scheduler, all made from [config['resource_management']],
    which has no key [resource_thresholds]. *)

Module ResourceOptimization.
(** The dictionary under the key [resource_optimization]. *)
Record t := mk {
  current_metrics : Q * Q * Q;   (* cpu_usage, memory_usage, gpu_usage *)
  resource_predictions : PredictionResult;
  workload_scheduling : ScheduleResult;
  carbon_scheduling : CarbonAwareScheduler.CarbonSchedule
}.
End ResourceOptimization.

Module V9System.

(** The state that resource monitoring and a request in the mode
    [resource_optimization] can reach: the history of the orchestrator,
    the queue of the scheduler and one entry of [system_metrics]. *)
Record t := mk {
  resource_orchestrator : list ResourceMetrics.t;
  workload_scheduler : list WorkloadAwareScheduler.Entry;
  energy_efficiency : Q    (* self.system_metrics['energy_efficiency'] *)
}.

Definition __init__ : t := mk [] [] 0.

Definition on_resource_orchestrator {A}
    (c : M (list ResourceMetrics.t) A) : M t A :=
  fun self =>
    let '(r, h) := c (resource_orchestrator self) in
    (r, mk h (workload_scheduler self) (energy_efficiency self)).


Definition config : Config.t := Config.mk None.





(** One passage through the body of the loop of
    [_continuous_resource_monitoring], with its [try/except]; the sleeps
    and the log lines leave no trace in the state. *)
Definition monitoring_pass (probes : Probes.t) : M t unit :=
  try_except
    (metrics ←
       on_resource_orchestrator
         (NeuralResourceOrchestrator.monitor_resources probes);
     self ← read;
     write (mk (resource_orchestrator self) (workload_scheduler self)
              (100 - ResourceMetrics.cpu_usage metrics)%Q))
    (fun _ => mret tt).

(** The loop never ends: these are its first passages, one for each of
    the readings. *)
Fixpoint _continuous_resource_monitoring (readings : list Probes.t)
    : M t unit :=
  match readings with
  | [] => mret tt
  | probes :: rest =>
      monitoring_pass probes;; _continuous_resource_monitoring rest
  end.

End V9System.

(** ** Predicates of the specification *)

Module PrioritySpec.
Import WorkloadAwareScheduler.

(** The priority formula as the specification words it. *)
Definition spec_type_offset (t : string) : Z :=
  if String.eqb t "training" then 50
  else if String.eqb t "inference" then 10
  else if String.eqb t "batch_processing" then 30
  else if String.eqb t "model_optimization" then 40
  else 50.

Definition spec_urgency_modifier (u : string) : Z :=
  if String.eqb u "critical" then -30
  else if String.eqb u "high" then -15
  else if String.eqb u "normal" then 0
  else if String.eqb u "low" then 15
  else 0.

Definition spec_priority (job : Job) : Z :=
  Z.max 1
    (100 + spec_type_offset (get (Job.type job) "inference"%string)
         + spec_urgency_modifier (get (Job.urgency job) "normal"%string)
         + (if Qlt_le_dec 2 (get (Job.resource_weight job) 1%Q)
            then 20 else 0)).

Definition with_urgency (u : string) (job : Job) : Job :=
  Job.mk (Job.id job) (Job.type job) (Some u) (Job.resource_weight job)
         (Job.estimated_duration_hours job) (Job.carbon_priority job).

End PrioritySpec.

Module HeapSpec.
Section HeapSpec.

Context {E : Type} (le : E -> E -> Prop).

Definition parent (i : nat) : nat := ((i - 1) / 2)%nat.

(** The element at [i] is at most the one at [j], where both exist. *)
Definition le_at (h : list E) (i j : nat) : Prop :=
  forall x y, h !! i = Some x -> h !! j = Some y -> le x y.

(** The heap invariant of [heapq]: [heap[(k-1)//2] <= heap[k]] for every
    [k > 0]. *)
Definition heap_ordered (h : list E) : Prop :=
  forall i, (0 < i)%nat -> le_at h (parent i) i.

(** The invariant of the sift loops at position [pos]: the heap is ordered
    between every parent and child except between [pos] and its parent
    and, while [below] is false, between [pos] and its children; and the
    parent of [pos] is at most the children of [pos]. *)
Definition sift_inv (below : bool) (h : list E) (pos : nat) : Prop :=
  (forall i, (0 < i)%nat -> i <> pos ->
             (below = false -> parent i <> pos) ->
             le_at h (parent i) i)
  /\ (forall c, (0 < pos)%nat -> (0 < c)%nat -> parent c = pos ->
                le_at h (parent pos) c).

End HeapSpec.

(** No comparison between two elements of the list raises. *)
Definition comparable {E : Type} (lt : E -> E -> option bool) (h : list E)
    : Prop :=
  forall a b, a ∈ h -> b ∈ h -> lt a b <> None.

End HeapSpec.


Module QueueSpec.
Import WorkloadAwareScheduler.

Definition entry_priority (e : Entry) : Z := fst (fst e).
Definition entry_id (e : Entry) : string := snd (fst e).
Definition entry_job (e : Entry) : Job := snd e.

(** The order of the queue: by priority, then by job id, strings in the
    order of their code points. *)
Definition key_le (e1 e2 : Entry) : Prop :=
  entry_priority e1 < entry_priority e2
  \/ (entry_priority e1 = entry_priority e2
      /\ (entry_id e1 = entry_id e2
          \/ String.ltb (entry_id e1) (entry_id e2) = true)).

(** The entry that [schedule_job] puts in the queue. *)
Definition new_entry (env : Env.t) (job : Job) : Entry :=
  (_calculate_job_priority job,
   get (Job.id job) ("job_" +:+ pretty (Env.time env)),
   job).

(** The element of [executed_jobs] for an entry taken from the queue. *)
Definition report (e : Entry) : Executed.t :=
  Executed.mk (entry_id e) (sleep (entry_job e)) (_execute_job (entry_job e)).

Definition has_usage_keys (m : gmap string Q) : Prop :=
  is_Some (m !! "cpu") /\ is_Some (m !! "memory") /\ is_Some (m !! "gpu").

(** The thresholds in force. *)
Definition thresholds (config : Config.t) : gmap string Q :=
  default default_thresholds (Config.resource_thresholds config).


(** The job ids in the order in which a sequence of calls of
    [schedule_job] executes them, from the queue [q]. *)
Definition executed_ids (r : res ScheduleResult) : list string :=
  match r with
  | Val (Scheduled _ _ _ er) =>
      Executed.job_id <$> ExecutionResult.executed_jobs er
  | _ => []
  end.

Fixpoint execution_order (config : Config.t) (calls : list (Env.t * Job))
    (q : queue) : list string :=
  match calls with
  | [] => []
  | (env, job) :: rest =>
      let '(r, q') := schedule_job config env job q in
      executed_ids r ++ execution_order config rest q'
  end.

(** The queue after a sequence of calls of [schedule_job], from [q]. *)
Fixpoint queue_after (config : Config.t) (calls : list (Env.t * Job))
    (q : queue) : queue :=
  match calls with
  | [] => q
  | (env, job) :: rest =>
      queue_after config rest (snd (schedule_job config env job q))
  end.

(** The job ids of a sequence of calls. *)
Definition call_ids (calls : list (Env.t * Job)) : list string :=
  (fun c => entry_id (new_entry (fst c) (snd c))) <$> calls.

(** First in, first out among equal priorities, for jobs with pairwise
    different ids: of two jobs of equal priority the one scheduled by the
    earlier call is executed first. *)
Definition fifo_among_equal_priorities : Prop :=
  forall config (calls : list (Env.t * Job)) i j ci cj a b,
    NoDup (call_ids calls) ->
    calls !! i = Some ci -> calls !! j = Some cj -> (i < j)%nat ->
    _calculate_job_priority (snd ci) = _calculate_job_priority (snd cj) ->
    execution_order config calls []
      !! a = Some (entry_id (new_entry (fst ci) (snd ci))) ->
    execution_order config calls []
      !! b = Some (entry_id (new_entry (fst cj) (snd cj))) ->
    (a < b)%nat.

End QueueSpec.

Module MonitorSpec.

(** A probe of the call fails: one of the psutil calls raises, or the disk
    reports a total of zero and the used ratio divides by it. *)
Definition probe_failure (env : Probes.t) : Prop :=
  Probes.cpu_percent env = None
  \/ Probes.virtual_memory env = None
  \/ Probes.disk_usage env = None
  \/ Probes.net_io_counters env = None
  \/ (exists used total,
        Probes.disk_usage env = Some (used, total) /\ (total == 0)%Q).

(** The sample of a call none of whose probes fails. *)
Definition sample (env : Probes.t) : option ResourceMetrics.t :=
  match Probes.cpu_percent env, Probes.virtual_memory env,
        Probes.disk_usage env, Probes.net_io_counters env with
  | Some cpu, Some mem, Some (used, total), Some (sent, recv) =>
      if Qeq_bool total 0 then None
      else Some (ResourceMetrics.mk cpu mem
                   (if Probes.gpu_available env
                    then Probes.uniform_20_80 env else 0%Q)
                   (used / total * 100)%Q (sent + recv)%Q (Probes.now env))
  | _, _, _, _ => None
  end.

Definition zero_sample (env : Probes.t) : ResourceMetrics.t :=
  ResourceMetrics.mk 0 0 0 0 0 (Probes.now env).

(** What a call returns: the sample, or the zero sample when a probe
    fails. *)
Definition returned (env : Probes.t) : ResourceMetrics.t :=
  default (zero_sample env) (sample env).

End MonitorSpec.

Module PredictSpec.
Import NeuralResourceOrchestrator.

(** The series of one resource over the history, as the fractions that
    the predictor works on, in float64. *)
Definition series (field : ResourceMetrics.t -> Q) (h : list ResourceMetrics.t)
    : list Q :=
  map (fun m => Py.fl (field m / 100)) h.

(** [x1 - x0, x2 - x1, ...] *)
Definition first_differences (xs : list Q) : list Q :=
  zip_with (fun later earlier => Py.fl (later - earlier)) (drop 1 xs) xs.

(** The mean of float64 values: their sum from the first on, by their
    number. *)
Definition mean (xs : list Q) : Q :=
  match xs with
  | [] => 0%Q
  | x :: rest =>
      Py.fl (fold_left (fun a b => Py.fl (a + b)) rest x / Py.len xs)
  end.

Definition mean_first_difference (xs : list Q) : Q :=
  mean (first_differences xs).

(** [horizon / 30], as a float. *)
Definition scale (horizon : Z) : Q := Py.fl (inject_Z horizon / 30).

(** The horizons whose quotient by 30 a float can hold: those below
    [30 * (2^1024 - 2^970)], about [5.4e309], in absolute value. *)
Definition max_horizon : Z := 30 * (2 ^ 1024 - 2 ^ 970).

Definition horizon_in_range (horizon : Z) : Prop :=
  Z.abs horizon < max_horizon.

(** The latest value plus the mean first difference of the last five,
    scaled by [horizon / 30]. *)
Definition projection (field : ResourceMetrics.t -> Q)
    (h : list ResourceMetrics.t) (horizon : Z) : Q :=
  Py.fl (default 0%Q (last (series field h))
         + Py.fl (mean_first_difference (Py.last_n 5 (series field h))
                  * scale horizon)).

(** A fraction as a percentage within [0, 100]. *)
Definition percent (x : Q) : Q := Qmax 0 (Qmin 100 (Py.fl (x * 100))).

(** The four projections of a history, as [max(0, min(100, x * 100))]
    makes percentages of them. *)
Definition predicted_usage (ms : list ResourceMetrics.t) (horizon : Z)
    : Predicted.t :=
  Predicted.mk
    (clamp_percent (projection ResourceMetrics.cpu_usage ms horizon))
    (clamp_percent (projection ResourceMetrics.memory_usage ms horizon))
    (clamp_percent (projection ResourceMetrics.gpu_usage ms horizon))
    (clamp_percent (projection ResourceMetrics.storage_usage ms horizon)).

(** The same in the arithmetic of the rationals, without rounding. *)
Definition exact_projection (field : ResourceMetrics.t -> Q)
    (h : list ResourceMetrics.t) (horizon : Z) : Q :=
  let xs := map (fun m => field m / 100)%Q h in
  let ds := zip_with Qminus (drop 1 (Py.last_n 5 xs)) (Py.last_n 5 xs) in
  (default 0 (last xs) + Py.sum ds / Py.len ds * (inject_Z horizon / 30))%Q.

Definition exact_percent (x : Q) : Q := Qmax 0 (Qmin 100 (x * 100)).

(** A prediction on ten samples or more, whatever the horizon. *)
Definition prediction_on_every_horizon : Prop :=
  forall (h : history) (horizon : Z),
    (10 <= length h)%nat ->
    exists usage recommendations confidence,
      predict_resource_needs horizon h
      = (Val (Prediction horizon usage recommendations confidence), h).

(** On ten samples or more and whatever the horizon, the prediction is
    the clamped percentage of the projection in the arithmetic of the
    rationals. *)
Definition exact_trend_on_every_horizon : Prop :=
  forall (h : history) (horizon : Z),
    (10 <= length h)%nat ->
    exists usage recommendations confidence,
      predict_resource_needs horizon h
      = (Val (Prediction horizon usage recommendations confidence), h)
      /\ (Predicted.cpu_usage usage
          == exact_percent
               (exact_projection ResourceMetrics.cpu_usage h horizon))%Q
      /\ (Predicted.memory_usage usage
          == exact_percent
               (exact_projection ResourceMetrics.memory_usage h horizon))%Q
      /\ (Predicted.gpu_usage usage
          == exact_percent
               (exact_projection ResourceMetrics.gpu_usage h horizon))%Q
      /\ (Predicted.storage_usage usage
          == exact_percent
               (exact_projection ResourceMetrics.storage_usage h horizon))%Q.

End PredictSpec.

Module CarbonSpec.
Import CarbonAwareScheduler.

(** The job's [estimated_duration_hours], one hour when it names
    none. *)
Definition estimated_duration_hours (job : Job) : Q :=
  default 1%Q (Job.estimated_duration_hours job).

(** The entry of [scheduled_jobs] for a job assigned to a window: the
    id of the job, the hours, the intensity and the renewable share of
    the window, and the carbon priority of the job, "normal" when it
    names none. *)
Definition scheduled_in (job : Job) (w : Window.t) : ScheduledEntry.t :=
  ScheduledEntry.mk (Job.id job)
    (Window.start_hour w) (Window.end_hour w)
    (Window.carbon_intensity w) (Window.renewable_percentage w)
    (default "normal"%string (Job.carbon_priority job)).

Definition with_capacity (c : Q) (w : Window.t) : Window.t :=
  Window.mk (Window.start_hour w) (Window.end_hour w)
    (Window.carbon_intensity w) (Window.renewable_percentage w) c.

(** What the inner loop does with a job: it assigns it to the first
    window whose capacity is at least its estimated duration and takes
    the duration from the capacity of that window, all else as it was;
    or there is no such window and nothing changes. *)
Inductive assignment (job : Job) (windows : list Window.t)
    : option ScheduledEntry.t -> list Window.t -> Prop :=
| assigned i w :
    windows !! i = Some w ->
    (estimated_duration_hours job <= Window.capacity w)%Q ->
    (forall k w', (k < i)%nat -> windows !! k = Some w' ->
                  (Window.capacity w' < estimated_duration_hours job)%Q) ->
    assignment job windows (Some (scheduled_in job w))
      (<[i := with_capacity
                (Py.fsub (Window.capacity w) (estimated_duration_hours job))
                w]> windows)
| dropped :
    Forall (fun w => (Window.capacity w < estimated_duration_hours job)%Q)
           windows ->
    assignment job windows None windows.

(** The capacity of each window after a step, against the one before:
    never below zero when it was not, and not larger when the job's
    duration is not negative. *)
Definition capacity_kept (d : Q) (w0 w : Window.t) : Prop :=
  ((0 <= Window.capacity w0)%Q -> (0 <= Window.capacity w)%Q)
  /\ ((0 <= d)%Q -> (Window.capacity w <= Window.capacity w0)%Q).

(** Over any number of steps. *)
Definition capacity_bounds (w0 w : Window.t) : Prop :=
  ((0 <= Window.capacity w0)%Q -> (0 <= Window.capacity w)%Q)
  /\ (Window.capacity w <= Window.capacity w0)%Q.


(** The savings as the specification words them: one kWh for each job, at
the baseline of 450 gCO2/kWh against the mean intensity of the scheduled
jobs, in kg. *)
Definition baseline_intensity : Q := 450.

Definition emissions_kg (intensity : Q) (jobs : list ScheduledEntry.t) : Q :=
  (Py.sum (map (fun _ => 1 * intensity) jobs) / 1000)%Q.

Definition mean_intensity (jobs : list ScheduledEntry.t) : Q :=
  (Py.sum (map ScheduledEntry.carbon_intensity jobs) / Py.len jobs)%Q.

Definition spec_savings (jobs : list ScheduledEntry.t) : Q :=
  (emissions_kg baseline_intensity jobs
   - emissions_kg (mean_intensity jobs) jobs)%Q.

End CarbonSpec.

Module ForecastSpec.
Import CarbonAwareScheduler.

(** The hours the forecast treats as solar. *)
Definition solar (hour : Z) : bool := (9 <=? hour) && (hour <=? 17).

Definition solar_hours : list Z := [9; 10; 11; 12; 13; 14; 15; 16; 17].

(** The draws are where [np.random.uniform] takes them from. *)
Definition in_range (forecast : Forecast) : Prop :=
  forall hour,
    (-50 <= fst (forecast hour) <= 50)%Q
    /\ (-10 <= snd (forecast hour) <= 10)%Q.

(** The window of an hour, when the hour is green. *)
Definition hour_window (forecast : Forecast) (hour : Z) : option Window.t :=
  let intensity :=
    if solar hour then (250 + fst (forecast hour))%Q
    else (450 + fst (forecast hour))%Q in
  let renewable :=
    if solar hour then (70 + snd (forecast hour))%Q
    else (30 + snd (forecast hour))%Q in
  if Py.ltb intensity 350
  then Some (Window.mk hour (hour + 1) intensity renewable 10)
  else None.

Definition by_intensity (a b : Window.t) : Prop :=
  (Window.carbon_intensity a <= Window.carbon_intensity b)%Q.

(** A window as it is after some packing: all but the capacity as before. *)
Definition same_slot (w w' : Window.t) : Prop :=
  Window.start_hour w' = Window.start_hour w
  /\ Window.end_hour w' = Window.end_hour w
  /\ Window.carbon_intensity w' = Window.carbon_intensity w
  /\ Window.renewable_percentage w' = Window.renewable_percentage w.

(** An entry that reports the slot of the window. *)
Definition in_slot (e : ScheduledEntry.t) (w : Window.t) : Prop :=
  ScheduledEntry.scheduled_start e = Window.start_hour w
  /\ ScheduledEntry.scheduled_end e = Window.end_hour w
  /\ ScheduledEntry.carbon_intensity e = Window.carbon_intensity w
  /\ ScheduledEntry.renewable_percentage e = Window.renewable_percentage w.

(** The hours that the jobs take together. *)
Definition total_duration (jobs : list Job) : Q :=
  Py.sum (CarbonSpec.estimated_duration_hours <$> jobs).

(** A whole number from 0 to [2^53]: floats add and subtract such
    numbers exactly. *)
Definition whole (x : Q) : Prop :=
  exists k : Z, 0 <= k <= 2 ^ 53 /\ (x == inject_Z k)%Q.

(** The window after the jobs have all been packed in it. *)
Definition packed (jobs : list Job) (w : Window.t) : Window.t :=
  fold_left (fun w job => take_capacity w (job_duration job)) jobs w.

End ForecastSpec.

Module UsageSpec.
Import WorkloadAwareScheduler QueueSpec.

Definition weight (job : Job) : Q := get (Job.resource_weight job) 1%Q.

(** A reading as the admission test takes it: 0 when it is missing. *)
Definition reading (usage : gmap string Q) (resource : string) : Q :=
  default 0%Q (usage !! resource).

(** The usage after a job has run. *)
Definition bump (job : Job) (usage : gmap string Q) : gmap string Q :=
  <["cpu" := Py.min 100 (reading usage "cpu" + weight job * 10)%Q]>
    (<["memory" := Py.min 100 (reading usage "memory" + weight job * 5)%Q]>
      (<["gpu" := Py.min 100 (reading usage "gpu" + weight job * 15)%Q]> ∅)).

(** The usage after the jobs of these entries have run, one after the
    other. *)
Definition usage_after (usage : gmap string Q) (done : list Entry)
    : gmap string Q :=
  fold_left (fun usage e => bump (entry_job e) usage) done usage.

Definition usage_keys : list string := ["cpu"; "memory"; "gpu"]%string.

End UsageSpec.

Module ResourceSpec.

(** The four resources that are predicted. *)
Inductive resource := Cpu | Memory | Gpu | Storage.

Definition measured (r : resource) (m : ResourceMetrics.t) : Q :=
  match r with
  | Cpu => ResourceMetrics.cpu_usage m
  | Memory => ResourceMetrics.memory_usage m
  | Gpu => ResourceMetrics.gpu_usage m
  | Storage => ResourceMetrics.storage_usage m
  end.

Definition predicted (r : resource) (p : Predicted.t) : Q :=
  match r with
  | Cpu => Predicted.cpu_usage p
  | Memory => Predicted.memory_usage p
  | Gpu => Predicted.gpu_usage p
  | Storage => Predicted.storage_usage p
  end.

(** The last five readings of a resource, oldest first. *)
Definition last_five (r : resource) (h : list ResourceMetrics.t) : list Q :=
  measured r <$> Py.last_n 5 h.

(** No reading is below the one before it; none is above it. *)
Definition never_falls (xs : list Q) : Prop :=
  forall i a b, xs !! i = Some a -> xs !! S i = Some b -> (a <= b)%Q.

Definition never_rises (xs : list Q) : Prop :=
  forall i a b, xs !! i = Some a -> xs !! S i = Some b -> (b <= a)%Q.

(** The cpu readings of the last twenty samples are all the same. *)
Definition steady_cpu (h : list ResourceMetrics.t) : Prop :=
  exists c,
    Forall (fun m => (ResourceMetrics.cpu_usage m == c)%Q) (Py.last_n 20 h).

(** The resources named by a list of recommendations. *)
Definition resources (rs : list Recommendation.t) : list string :=
  Recommendation.resource <$> rs.

End ResourceSpec.

Module SystemSpec.
Import V9System.



End SystemSpec.

(** * Properties *)

Section PyFacts.

Lemma ltb_spec (a b : Q) : Py.ltb a b = true <-> (a < b)%Q.
Proof. unfold Py.ltb, Qlt. apply Z.ltb_lt. Qed.

Lemma ltb_nspec (a b : Q) : Py.ltb a b = false <-> (b <= a)%Q.
Proof. unfold Py.ltb, Qle. apply Z.ltb_ge. Qed.

Lemma min_clamp (a x : Q) : (Py.min a x == Qmin a x)%Q.
Proof.
  unfold Py.min. destruct (Py.ltb x a) eqn:H.
  - apply ltb_spec in H. symmetry. apply Q.min_r. lra.
  - apply ltb_nspec in H. symmetry. apply Q.min_l. assumption.
Qed.

Lemma max_clamp (a x : Q) : (Py.max a x == Qmax a x)%Q.
Proof.
  unfold Py.max. destruct (Py.ltb a x) eqn:H.
  - apply ltb_spec in H. symmetry. apply Q.max_r. lra.
  - apply ltb_nspec in H. symmetry. apply Q.max_l. assumption.
Qed.

End PyFacts.

(** ** Rounding to the nearest float *)

Module FloatFacts.
Import Py.

Lemma pow2_pos (e : Z) : (0 < pow2 e)%Q.
Proof. apply Qpower_0_lt. reflexivity. Qed.

Lemma pow2_lt (a b : Z) : a < b -> (pow2 a < pow2 b)%Q.
Proof. intros H. apply Qpower_lt_compat_l; [assumption | reflexivity]. Qed.

Lemma pow2_le (a b : Z) : a <= b -> (pow2 a <= pow2 b)%Q.
Proof. intros H. apply Qpower_le_compat_l; [assumption | discriminate]. Qed.

Lemma pow2_lt_inv (a b : Z) : (pow2 a < pow2 b)%Q -> a < b.
Proof. intros H. apply Qpower_lt_compat_l_inv in H; [assumption | reflexivity]. Qed.

Lemma pow2_add (a b : Z) : (pow2 (a + b) == pow2 a * pow2 b)%Q.
Proof. apply Qpower_plus. discriminate. Qed.

Lemma pow2_sub (a b : Z) : (pow2 (a - b) == pow2 a / pow2 b)%Q.
Proof. apply Qpower_minus. discriminate. Qed.

Lemma pow2_Z (a : Z) : 0 <= a -> (pow2 a == inject_Z (2 ^ a))%Q.
Proof. intros H. unfold pow2. now rewrite Zpower_Qpower. Qed.

Lemma log2_bounds (n : Z) :
  0 < n -> (pow2 (Z.log2 n) <= inject_Z n < pow2 (Z.log2 n + 1))%Q.
Proof.
  intros Hn. pose proof (Z.log2_nonneg n) as H0.
  destruct (Z.log2_spec n Hn) as [H1 H2].
  rewrite !pow2_Z by lia. rewrite <- Zle_Qle, <- Zlt_Qlt.
  replace (Z.log2 n + 1) with (Z.succ (Z.log2 n)) by lia. lia.
Qed.

Lemma Q_as_div (x : Q) : (x == inject_Z (Qnum x) / inject_Z (Zpos (Qden x)))%Q.
Proof. destruct x as [n d]. simpl. rewrite Qmake_Qdiv. reflexivity. Qed.

Lemma div_lt_div (n d A B : Q) :
  (0 < n -> 0 < B -> n < A -> B <= d -> n / d < A / B)%Q.
Proof.
  intros Hn HB HnA HBd.
  assert (Hd : (0 < d)%Q) by lra.
  apply (Qmult_lt_r _ _ (d * B)); [nra |].
  assert (E1 : (n / d * (d * B) == n * B)%Q) by (field; lra).
  assert (E2 : (A / B * (d * B) == A * d)%Q) by (field; lra).
  rewrite E1, E2. nra.
Qed.

Lemma div_le_div (n d A B : Q) :
  (0 < A -> 0 < d -> A <= n -> d <= B -> A / B <= n / d)%Q.
Proof.
  intros HA Hd HAn HdB.
  assert (HB : (0 < B)%Q) by lra.
  apply (Qmult_le_r _ _ (d * B)); [nra |].
  assert (E1 : (n / d * (d * B) == n * B)%Q) by (field; lra).
  assert (E2 : (A / B * (d * B) == A * d)%Q) by (field; lra).
  rewrite E1, E2. nra.
Qed.

Lemma ilog2_spec (x : Q) :
  (0 < x)%Q -> (pow2 (ilog2 x) <= x < pow2 (ilog2 x + 1))%Q.
Proof.
  intros Hx.
  assert (Hn : 0 < Qnum x)
    by (destruct x as [n d]; unfold Qlt in Hx; simpl in *; lia).
  destruct (log2_bounds (Qnum x) Hn) as [N1 N2].
  destruct (log2_bounds (Zpos (Qden x)) eq_refl) as [D1 D2].
  pose proof (pow2_pos (Z.log2 (Qnum x))) as P1.
  pose proof (pow2_pos (Z.log2 (Zpos (Qden x)))) as P2.
  assert (Dpos : (0 < inject_Z (Zpos (Qden x)))%Q) by reflexivity.
  unfold ilog2.
  set (a := Z.log2 (Qnum x)) in *. set (b := Z.log2 (Zpos (Qden x))) in *.
  set (n := inject_Z (Qnum x)) in *. set (d := inject_Z (Zpos (Qden x))) in *.
  assert (Ex : (x == n / d)%Q) by apply Q_as_div.
  assert (U : (x < pow2 (a - b + 1))%Q).
  { replace (a - b + 1) with ((a + 1) - b) by lia. rewrite pow2_sub, Ex.
    apply div_lt_div; lra. }
  assert (L : (pow2 (a - b - 1) <= x)%Q).
  { replace (a - b - 1) with (a - (b + 1)) by lia. rewrite pow2_sub, Ex.
    apply div_le_div; lra. }
  destruct (Qle_bool (pow2 (a - b)) x) eqn:Hle.
  - apply Qle_bool_iff in Hle. split; assumption.
  - assert (Hlt : (x < pow2 (a - b))%Q).
    { apply Qnot_le_lt. intros H. apply Qle_bool_iff in H. congruence. }
    replace (a - b - 1 + 1) with (a - b) by lia. split; assumption.
Qed.

Lemma ilog2_unique (x : Q) (L : Z) :
  (pow2 L <= x < pow2 (L + 1))%Q -> ilog2 x = L.
Proof.
  intros [H1 H2].
  assert (Hx : (0 < x)%Q) by (pose proof (pow2_pos L); lra).
  destruct (ilog2_spec x Hx) as [S1 S2].
  assert (A : ilog2 x < L + 1) by (apply pow2_lt_inv; lra).
  assert (B : L < ilog2 x + 1) by (apply pow2_lt_inv; lra).
  lia.
Qed.

Lemma ilog2_comp (x y : Q) : (0 < x)%Q -> (x == y)%Q -> ilog2 x = ilog2 y.
Proof.
  intros Hx E. symmetry. apply ilog2_unique. rewrite <- E.
  now apply ilog2_spec.
Qed.

Lemma ilog2_mono (x y : Q) : (0 < x)%Q -> (x <= y)%Q -> ilog2 x <= ilog2 y.
Proof.
  intros Hx Hxy.
  destruct (ilog2_spec x Hx) as [S1 S2].
  destruct (ilog2_spec y ltac:(lra)) as [T1 T2].
  assert (A : ilog2 x < ilog2 y + 1) by (apply pow2_lt_inv; lra).
  lia.
Qed.

(** Rounding to the nearest integer. *)

Lemma rne_floor (q : Q) : Qfloor q <= rne q <= Qfloor q + 1.
Proof.
  unfold rne. destruct (q - inject_Z (Qfloor q) ?= 1 # 2)%Q;
    [destruct (Z.even (Qfloor q)) | |]; lia.
Qed.

Lemma rne_comp (p q : Q) : (p == q)%Q -> rne p = rne q.
Proof.
  intros E. unfold rne. rewrite (Qfloor_comp _ _ E).
  assert (E' : (p - inject_Z (Qfloor q) == q - inject_Z (Qfloor q))%Q)
    by now rewrite E.
  now rewrite (Qcompare_comp _ _ E' (1 # 2) (1 # 2) (Qeq_refl _)).
Qed.

Lemma rne_int (k : Z) : rne (inject_Z k) = k.
Proof.
  unfold rne. rewrite Qfloor_Z.
  assert (E : (inject_Z k - inject_Z k ?= 1 # 2)%Q = Lt).
  { apply Qlt_alt.
    assert (E0 : (inject_Z k - inject_Z k == 0)%Q) by ring.
    rewrite E0. reflexivity. }
  now rewrite E.
Qed.

Lemma rne_mono (p q : Q) : (p <= q)%Q -> rne p <= rne q.
Proof.
  intros Hpq. pose proof (Qfloor_resp_le _ _ Hpq) as Hf.
  pose proof (rne_floor p) as Rp. pose proof (rne_floor q) as Rq.
  destruct (Z.eq_dec (Qfloor p) (Qfloor q)) as [E|NE]; [| lia].
  unfold rne in *. rewrite E in *.
  set (f := Qfloor q) in *. clearbody f.
  assert (Hr : (p - inject_Z f <= q - inject_Z f)%Q) by lra.
  revert Hr. generalize (p - inject_Z f)%Q (q - inject_Z f)%Q.
  intros rp rq Hr.
  destruct (Qcompare_spec rp (1 # 2)) as [Cp|Cp|Cp];
    destruct (Qcompare_spec rq (1 # 2)) as [Cq|Cq|Cq];
    try lia; try (exfalso; lra); destruct (Z.even f); lia.
Qed.

Lemma rne_ge (q : Q) (k : Z) : (inject_Z k <= q)%Q -> k <= rne q.
Proof. intros H. rewrite <- (rne_int k). now apply rne_mono. Qed.

Lemma rne_le (q : Q) (k : Z) : (q <= inject_Z k)%Q -> rne q <= k.
Proof. intros H. rewrite <- (rne_int k). now apply rne_mono. Qed.

(** Rounding to binary64. *)

Lemma ulp_exp_comp (x y : Q) : (0 < x)%Q -> (x == y)%Q -> ulp_exp x = ulp_exp y.
Proof. intros Hx E. unfold ulp_exp. now rewrite (ilog2_comp x y Hx E). Qed.

Lemma fl_pos_eq (x : Q) :
  (fl_pos x == inject_Z (rne (x / pow2 (ulp_exp x))) * pow2 (ulp_exp x))%Q.
Proof. unfold fl_pos. apply Qred_correct. Qed.

Lemma fl_pos_comp (x y : Q) : (0 < x)%Q -> (x == y)%Q -> (fl_pos x == fl_pos y)%Q.
Proof.
  intros Hx E. rewrite !fl_pos_eq. rewrite <- (ulp_exp_comp x y Hx E).
  assert (E' : (x / pow2 (ulp_exp x) == y / pow2 (ulp_exp x))%Q)
    by (unfold Qdiv; apply Qmult_comp; [exact E | reflexivity]).
  now rewrite (rne_comp _ _ E').
Qed.

Lemma Qnum_pos (x : Q) p : Qnum x = Zpos p -> (0 < x)%Q.
Proof. destruct x as [n d]. simpl. intros ->. reflexivity. Qed.

Lemma Qnum_neg (x : Q) p : Qnum x = Zneg p -> (x < 0)%Q.
Proof. destruct x as [n d]. simpl. intros ->. reflexivity. Qed.

Lemma Qnum_zero (x : Q) : Qnum x = 0 -> (x == 0)%Q.
Proof. destruct x as [n d]. simpl. intros ->. reflexivity. Qed.

Lemma fl_of_pos (x : Q) : (0 < x)%Q -> fl x = fl_pos x.
Proof.
  intros Hx. unfold fl. destruct (Qnum x) as [|p|p] eqn:E; [| reflexivity |].
  - apply Qnum_zero in E. lra.
  - apply Qnum_neg in E. lra.
Qed.

Lemma fl_of_neg (x : Q) : (x < 0)%Q -> fl x = (- fl_pos (- x))%Q.
Proof.
  intros Hx. unfold fl. destruct (Qnum x) as [|p|p] eqn:E; [| | reflexivity].
  - apply Qnum_zero in E. lra.
  - apply Qnum_pos in E. lra.
Qed.

Lemma fl_of_zero (x : Q) : (x == 0)%Q -> fl x = 0%Q.
Proof.
  intros Hx. unfold fl. destruct (Qnum x) as [|p|p] eqn:E; [reflexivity | |].
  - apply Qnum_pos in E. lra.
  - apply Qnum_neg in E. lra.
Qed.

Lemma fl_comp (x y : Q) : (x == y)%Q -> (fl x == fl y)%Q.
Proof.
  intros E. destruct (Q_dec x 0) as [[Hx|Hx]|Hx].
  - rewrite (fl_of_neg x Hx), (fl_of_neg y) by lra.
    apply Qopp_comp, fl_pos_comp; [lra | now rewrite E].
  - rewrite (fl_of_pos x Hx), (fl_of_pos y) by lra. now apply fl_pos_comp.
  - rewrite (fl_of_zero x Hx), (fl_of_zero y) by lra. reflexivity.
Qed.

Lemma rne_nonneg (q : Q) : (0 <= q)%Q -> 0 <= rne q.
Proof. intros H. apply (rne_ge q 0). exact H. Qed.

Lemma fl_pos_nonneg (x : Q) : (0 < x)%Q -> (0 <= fl_pos x)%Q.
Proof.
  intros Hx. rewrite fl_pos_eq.
  pose proof (pow2_pos (ulp_exp x)) as P.
  apply Qmult_le_0_compat; [| lra].
  change 0%Q with (inject_Z 0). rewrite <- Zle_Qle. apply rne_nonneg.
  apply Qle_shift_div_l; lra.
Qed.

(** A power of two between the number and its rounding. *)
Lemma fl_pos_upper (x : Q) (K : Z) :
  (0 < x)%Q -> (x <= pow2 K)%Q -> ulp_exp x <= K -> (fl_pos x <= pow2 K)%Q.
Proof.
  intros Hx Hle He. rewrite fl_pos_eq.
  pose proof (pow2_pos (ulp_exp x)) as P.
  assert (EK : (pow2 K == inject_Z (2 ^ (K - ulp_exp x)) * pow2 (ulp_exp x))%Q).
  { rewrite <- pow2_Z by lia. rewrite <- pow2_add. now replace (K - ulp_exp x + ulp_exp x) with K by lia. }
  rewrite EK. apply Qmult_le_compat_r; [| lra].
  rewrite <- Zle_Qle. apply rne_le.
  apply Qle_shift_div_r; [assumption |]. now rewrite <- EK.
Qed.

Lemma fl_pos_lower (x : Q) (K : Z) :
  (0 < x)%Q -> (pow2 K <= x)%Q -> ulp_exp x <= K -> (pow2 K <= fl_pos x)%Q.
Proof.
  intros Hx Hle He. rewrite fl_pos_eq.
  pose proof (pow2_pos (ulp_exp x)) as P.
  assert (EK : (pow2 K == inject_Z (2 ^ (K - ulp_exp x)) * pow2 (ulp_exp x))%Q).
  { rewrite <- pow2_Z by lia. rewrite <- pow2_add. now replace (K - ulp_exp x + ulp_exp x) with K by lia. }
  rewrite EK. apply Qmult_le_compat_r; [| lra].
  rewrite <- Zle_Qle. apply rne_ge.
  apply Qle_shift_div_l; [assumption |]. now rewrite <- EK.
Qed.

Lemma fl_pos_mono (x y : Q) : (0 < x)%Q -> (x <= y)%Q -> (fl_pos x <= fl_pos y)%Q.
Proof.
  intros Hx Hxy. assert (Hy : (0 < y)%Q) by lra.
  pose proof (ilog2_mono x y Hx Hxy) as Hl.
  destruct (Z.eq_dec (ulp_exp x) (ulp_exp y)) as [E|NE].
  - rewrite !fl_pos_eq, E. pose proof (pow2_pos (ulp_exp y)) as P.
    apply Qmult_le_compat_r; [| lra].
    rewrite <- Zle_Qle. apply rne_mono.
    apply Qmult_le_compat_r; [assumption |].
    apply Qlt_le_weak, Qinv_lt_0_compat, P.
  - destruct (ilog2_spec x Hx) as [_ X2]. destruct (ilog2_spec y Hy) as [Y1 _].
    assert (Hlt : ilog2 x < ilog2 y) by (unfold ulp_exp in NE; lia).
    apply (Qle_trans _ (pow2 (ilog2 y))).
    + apply fl_pos_upper; [assumption | | unfold ulp_exp in *; lia].
      apply (Qle_trans _ (pow2 (ilog2 x + 1))); [lra | apply pow2_le; lia].
    + apply fl_pos_lower; [assumption | assumption | unfold ulp_exp in *; lia].
Qed.

Lemma fl_mono (x y : Q) : (x <= y)%Q -> (fl x <= fl y)%Q.
Proof.
  intros Hxy.
  destruct (Q_dec x 0) as [[Hx|Hx]|Hx]; destruct (Q_dec y 0) as [[Hy|Hy]|Hy];
    try (exfalso; lra).
  - rewrite (fl_of_neg x Hx), (fl_of_neg y Hy).
    apply Qopp_le_compat, fl_pos_mono; lra.
  - rewrite (fl_of_neg x Hx), (fl_of_pos y Hy).
    pose proof (fl_pos_nonneg (- x) ltac:(lra)).
    pose proof (fl_pos_nonneg y Hy). lra.
  - rewrite (fl_of_neg x Hx), (fl_of_zero y Hy).
    pose proof (fl_pos_nonneg (- x) ltac:(lra)). lra.
  - rewrite (fl_of_pos x Hx), (fl_of_pos y Hy). now apply fl_pos_mono.
  - rewrite (fl_of_zero x Hx), (fl_of_pos y Hy). now apply fl_pos_nonneg.
  - rewrite (fl_of_zero x Hx), (fl_of_zero y Hy). lra.
Qed.

Lemma fl_nonneg (x : Q) : (0 <= x)%Q -> (0 <= fl x)%Q.
Proof. intros H. apply (fl_mono 0 x H). Qed.

Lemma fl_nonpos (x : Q) : (x <= 0)%Q -> (fl x <= 0)%Q.
Proof. intros H. apply (fl_mono x 0 H). Qed.

Lemma is_float_spec (x : Q) : is_float x = true <-> (fl x == x)%Q.
Proof. unfold is_float. apply Qeq_bool_iff. Qed.

Lemma fl_int_pos (k : Z) : 0 < k <= 2 ^ 53 -> (fl_pos (inject_Z k) == inject_Z k)%Q.
Proof.
  intros [H0 H1].
  destruct (Z.eq_dec k (2 ^ 53)) as [->|Hk]; [vm_compute; reflexivity |].
  assert (Hl : ilog2 (inject_Z k) = Z.log2 k)
    by (apply ilog2_unique, log2_bounds, H0).
  pose proof (Z.log2_nonneg k) as Hn.
  assert (Hlt : Z.log2 k < 53) by (apply Z.log2_lt_pow2; lia).
  rewrite fl_pos_eq. unfold ulp_exp. rewrite Hl.
  rewrite Z.max_l by lia.
  set (e := Z.log2 k - 52).
  assert (E : (inject_Z k / pow2 e == inject_Z (k * 2 ^ (- e)))%Q).
  { rewrite inject_Z_mult, <- pow2_Z by lia.
    replace e with (0 - (- e)) at 1 by lia. rewrite pow2_sub.
    pose proof (pow2_pos (- e)). change (pow2 0) with 1%Q. field. lra. }
  rewrite (rne_comp _ _ E), rne_int.
  rewrite inject_Z_mult, <- pow2_Z by lia.
  rewrite <- Qmult_assoc, <- pow2_add.
  replace (- e + e) with 0 by lia. change (pow2 0) with 1%Q. ring.
Qed.

Lemma fl_int (k : Z) : - 2 ^ 53 <= k <= 2 ^ 53 -> (fl (inject_Z k) == inject_Z k)%Q.
Proof.
  intros H. destruct (Z.lt_trichotomy k 0) as [Hk|[->|Hk]].
  - rewrite fl_of_neg by (change 0%Q with (inject_Z 0); now rewrite <- Zlt_Qlt).
    rewrite <- inject_Z_opp, fl_int_pos by lia.
    rewrite inject_Z_opp. ring.
  - reflexivity.
  - rewrite fl_of_pos by (change 0%Q with (inject_Z 0); now rewrite <- Zlt_Qlt).
    apply fl_int_pos. lia.
Qed.

(** Just below a float: a number under the midpoint rounds down. *)
Lemma rne_below (q : Q) (n : Z) : (q < inject_Z n - (1 # 2))%Q -> rne q <= n - 1.
Proof.
  intros H. pose proof (Qfloor_le q) as F1.
  assert (F2 : Qfloor q <= n - 1).
  { apply Z.lt_succ_r. replace (Z.succ (n - 1)) with n by lia.
    rewrite Zlt_Qlt. lra. }
  destruct (Z.eq_dec (Qfloor q) (n - 1)) as [E|NE].
  - unfold rne. rewrite E.
    assert (C : (q - inject_Z (n - 1) ?= 1 # 2)%Q = Lt).
    { rewrite <- Qlt_alt.
      assert (En : (inject_Z (n - 1) == inject_Z n - 1)%Q)
        by (unfold Zminus; rewrite inject_Z_plus; reflexivity).
      rewrite En. lra. }
    rewrite C. lia.
  - pose proof (rne_floor q). lia.
Qed.

Lemma fl_pos_below (x : Q) (n e : Z) :
  -1074 <= e -> n <= 2 ^ 53 ->
  (pow2 (e + 52) <= x)%Q -> (x < (inject_Z n - (1 # 2)) * pow2 e)%Q ->
  (fl_pos x <= inject_Z (n - 1) * pow2 e)%Q.
Proof.
  intros He Hn Hlo Hhi.
  pose proof (pow2_pos e) as P. pose proof (pow2_pos (e + 52)) as P'.
  assert (Hx : (0 < x)%Q) by lra.
  assert (Hl : ilog2 x = e + 52).
  { apply ilog2_unique. split; [assumption |].
    replace (e + 52 + 1) with (53 + e) by lia. rewrite pow2_add, pow2_Z by lia.
    apply (Qlt_le_trans _ _ _ Hhi). apply Qmult_le_compat_r; [| lra].
    apply (Qle_trans _ (inject_Z n)); [lra | now rewrite <- Zle_Qle]. }
  rewrite fl_pos_eq. unfold ulp_exp. rewrite Hl.
  replace (e + 52 - 52) with e by lia. rewrite Z.max_l by lia.
  apply Qmult_le_compat_r; [| lra].
  rewrite <- Zle_Qle. apply rne_below.
  apply Qlt_shift_div_r; assumption.
Qed.

Lemma fl_opp (x : Q) : (fl (- x) == - fl x)%Q.
Proof.
  destruct (Q_dec x 0) as [[Hx|Hx]|Hx].
  - rewrite (fl_of_neg x Hx), (fl_of_pos (- x)) by lra. ring.
  - rewrite (fl_of_pos x Hx), (fl_of_neg (- x)) by lra.
    rewrite (fl_pos_comp (- - x) x ltac:(lra) (Qopp_involutive x)).
    reflexivity.
  - rewrite (fl_of_zero x Hx), (fl_of_zero (- x)) by lra. reflexivity.
Qed.

Lemma fl_abs (x : Q) : (Qabs (fl x) == fl (Qabs x))%Q.
Proof.
  destruct (Qlt_le_dec x 0) as [Hx|Hx].
  - rewrite (fl_comp _ _ (Qabs_neg x ltac:(lra))), fl_opp.
    apply Qabs_neg, fl_nonpos. lra.
  - rewrite (fl_comp _ _ (Qabs_pos x Hx)). now apply Qabs_pos, fl_nonneg.
Qed.

(** Rounding keeps a number between two floats. *)
Lemma fl_between (lo hi x : Q) :
  is_float lo = true -> is_float hi = true ->
  (lo <= x <= hi)%Q -> (lo <= fl x <= hi)%Q.
Proof.
  intros Hlo Hhi [H1 H2]. apply is_float_spec in Hlo, Hhi.
  pose proof (fl_mono lo x H1). pose proof (fl_mono x hi H2). lra.
Qed.

(** *** The range of the floats *)

Lemma fl_overflow (x : Q) :
  (overflow_threshold <= x)%Q -> (pow2 1024 <= fl x)%Q.
Proof.
  intros H. apply (Qle_trans _ (fl overflow_threshold)); [| now apply fl_mono].
  vm_compute. discriminate.
Qed.

Lemma fl_no_overflow (x : Q) :
  (0 <= x)%Q -> (x < overflow_threshold)%Q -> (fl x < pow2 1024)%Q.
Proof.
  intros H0 H.
  destruct (Qlt_le_dec 0 x) as [Hx|Hx];
    [| rewrite (fl_of_zero x) by lra; reflexivity].
  rewrite (fl_of_pos x Hx).
  destruct (Qlt_le_dec x (pow2 1023)) as [Hs|Hb].
  - apply (Qle_lt_trans _ (pow2 1023)); [| apply pow2_lt; lia].
    apply fl_pos_upper; [assumption | lra |].
    destruct (ilog2_spec x Hx) as [S1 _].
    assert (ilog2 x < 1023) by (apply pow2_lt_inv; lra).
    unfold ulp_exp. lia.
  - assert (E : (overflow_threshold
                 == (inject_Z (2 ^ 53) - (1 # 2)) * pow2 971)%Q)
      by (vm_compute; reflexivity).
    apply (Qle_lt_trans _ (inject_Z (2 ^ 53 - 1) * pow2 971)).
    + apply (fl_pos_below x (2 ^ 53) 971); [lia | lia | exact Hb |].
      now rewrite <- E.
    + vm_compute. reflexivity.
Qed.

(** A quotient is too large for a float exactly from the threshold on. *)
Lemma overflows_iff (x : Q) :
  Qle_bool (pow2 1024) (Qabs (fl x)) = true
  <-> (overflow_threshold <= Qabs x)%Q.
Proof.
  rewrite Qle_bool_iff, fl_abs. split.
  - intros H. apply Qnot_lt_le. intros Hlt.
    pose proof (fl_no_overflow (Qabs x) (Qabs_nonneg x) Hlt). lra.
  - apply fl_overflow.
Qed.

(** *** The floats are the numbers that rounding leaves as they are *)

Lemma fl_pos_on_grid (y : Q) (k : Z) :
  (0 < y)%Q -> (y == inject_Z k * pow2 (ulp_exp y))%Q -> (fl_pos y == y)%Q.
Proof.
  intros Hy E. rewrite fl_pos_eq.
  pose proof (pow2_pos (ulp_exp y)) as P.
  assert (Ek : (y / pow2 (ulp_exp y) == inject_Z k)%Q).
  { rewrite E at 1. field. lra. }
  rewrite (rne_comp _ _ Ek), rne_int. now symmetry.
Qed.

Lemma ilog2_scaled (n e : Z) :
  0 < n -> ilog2 (inject_Z n * pow2 e) = Z.log2 n + e.
Proof.
  intros Hn. apply ilog2_unique.
  destruct (log2_bounds n Hn) as [B1 B2]. pose proof (pow2_pos e) as P.
  replace (Z.log2 n + e + 1) with (Z.log2 n + 1 + e) by lia.
  rewrite (pow2_add (Z.log2 n) e), (pow2_add (Z.log2 n + 1) e). split.
  - apply Qmult_le_compat_r; lra.
  - apply Qmult_lt_compat_r; lra.
Qed.

Lemma fl_pos_exact (n e : Z) :
  0 < n <= 2 ^ 53 -> -1074 <= e ->
  (fl_pos (inject_Z n * pow2 e) == inject_Z n * pow2 e)%Q.
Proof.
  intros [H0 H1] He. set (y := (inject_Z n * pow2 e)%Q).
  pose proof (pow2_pos e) as P.
  assert (Hy : (0 < y)%Q).
  { subst y. apply Qmult_lt_0_compat; [| exact P].
    change 0%Q with (inject_Z 0). now rewrite <- Zlt_Qlt. }
  assert (Hl : ilog2 y = Z.log2 n + e) by now apply ilog2_scaled.
  pose proof (Z.log2_nonneg n) as Hn.
  destruct (Z.eq_dec n (2 ^ 53)) as [En|Hne].
  - apply (fl_pos_on_grid y (2 ^ 52) Hy).
    unfold ulp_exp. rewrite Hl, En.
    change (Z.log2 (2 ^ 53)) with 53. rewrite Z.max_l by lia.
    subst y. rewrite En.
    replace (53 + e - 52) with (e + 1) by lia. rewrite pow2_add.
    change (pow2 1) with 2%Q.
    change (inject_Z (2 ^ 53)) with (inject_Z (2 ^ 52) * 2)%Q. ring.
  - assert (Hlt : Z.log2 n < 53) by (apply Z.log2_lt_pow2; lia).
    set (e' := Z.max (Z.log2 n + e - 52) (-1074)).
    apply (fl_pos_on_grid y (n * 2 ^ (e - e')) Hy).
    unfold ulp_exp. rewrite Hl. fold e'.
    rewrite inject_Z_mult, <- pow2_Z by lia.
    rewrite <- Qmult_assoc, <- pow2_add.
    now replace (e - e' + e') with e by lia.
Qed.

Lemma rne_bounded (x : Q) :
  (0 < x)%Q -> 0 <= rne (x / pow2 (ulp_exp x)) <= 2 ^ 53.
Proof.
  intros Hx. pose proof (pow2_pos (ulp_exp x)) as P. split.
  - apply rne_nonneg. apply Qle_shift_div_l; lra.
  - apply rne_le. apply Qle_shift_div_r; [exact P |].
    destruct (ilog2_spec x Hx) as [_ Hu].
    rewrite <- pow2_Z, <- pow2_add by lia.
    apply (Qle_trans _ (pow2 (ilog2 x + 1))); [lra |].
    apply pow2_le. unfold ulp_exp. lia.
Qed.

Lemma fl_pos_idem (x : Q) : (0 < x)%Q -> (fl (fl_pos x) == fl_pos x)%Q.
Proof.
  intros Hx. pose proof (rne_bounded x Hx) as [Hn0 Hn1].
  pose proof (fl_pos_eq x) as E.
  set (n := rne (x / pow2 (ulp_exp x))) in *.
  destruct (Z.eq_dec n 0) as [En|Hne].
  - rewrite En in E. assert (E0 : (fl_pos x == 0)%Q) by (rewrite E; ring).
    rewrite (fl_of_zero _ E0). now symmetry.
  - assert (Hpos : (0 < inject_Z n * pow2 (ulp_exp x))%Q).
    { apply Qmult_lt_0_compat; [| apply pow2_pos].
      change 0%Q with (inject_Z 0). rewrite <- Zlt_Qlt. lia. }
    rewrite (fl_comp _ _ E), E, (fl_of_pos _ Hpos).
    apply fl_pos_exact; [lia | unfold ulp_exp; lia].
Qed.

(** Rounding twice is rounding once. *)
Lemma fl_idem (x : Q) : (fl (fl x) == fl x)%Q.
Proof.
  destruct (Q_dec x 0) as [[Hx|Hx]|Hx].
  - rewrite (fl_of_neg x Hx), fl_opp, fl_pos_idem by lra. reflexivity.
  - rewrite (fl_of_pos x Hx). now apply fl_pos_idem.
  - rewrite (fl_of_zero x Hx). reflexivity.
Qed.

Lemma fl_is_float (x : Q) : is_float (fl x) = true.
Proof. apply is_float_spec, fl_idem. Qed.

(** [-] on two numbers of Python. *)

Lemma fsub_exact (c d : Q) : is_float (c - d) = true -> (fsub c d == c - d)%Q.
Proof.
  intros H. apply is_float_spec in H. unfold fsub.
  destruct (is_int c && is_int d); [reflexivity |].
  destruct (is_float c && is_float d); [exact H | reflexivity].
Qed.

Lemma fsub_nonneg (c d : Q) : (d <= c)%Q -> (0 <= fsub c d)%Q.
Proof.
  intros H. unfold fsub.
  destruct (is_int c && is_int d); [lra |].
  destruct (is_float c && is_float d); [apply fl_nonneg |]; lra.
Qed.

Lemma fsub_le (c d : Q) : (0 <= d)%Q -> (fsub c d <= c)%Q.
Proof.
  intros H. unfold fsub.
  destruct (is_int c && is_int d); [lra |].
  destruct (is_float c && is_float d) eqn:E; [| lra].
  apply andb_prop in E as [Ec _]. apply is_float_spec in Ec.
  rewrite <- Ec at 2. apply fl_mono. lra.
Qed.

(** Whole numbers up to [2^53] are subtracted exactly. *)
Lemma fsub_whole (c d : Q) (kc kd : Z) :
  (c == inject_Z kc)%Q -> (d == inject_Z kd)%Q ->
  0 <= kd <= kc -> kc <= 2 ^ 53 ->
  (fsub c d == inject_Z (kc - kd))%Q.
Proof.
  intros Ec Ed Hk Hc.
  assert (E : (c - d == inject_Z (kc - kd))%Q).
  { rewrite Ec, Ed. unfold Zminus. rewrite inject_Z_plus, inject_Z_opp.
    reflexivity. }
  rewrite fsub_exact; [exact E |].
  apply is_float_spec. rewrite (fl_comp _ _ E), E. apply fl_int. lia.
Qed.

End FloatFacts.

Module PriorityFacts.
Import WorkloadAwareScheduler PrioritySpec.

(** One step through a literal dictionary: either the key is the first
    one of the literal, or the lookup continues in the rest. *)
Ltac dict_step t :=
  let E := fresh "E" in
  rewrite lookup_insert; case_decide as E;
  [ subst t; reflexivity
  | match goal with
    | |- context [String.eqb t ?s] =>
        destruct (String.eqb_spec t s); [ congruence | ]
    end ].

Lemma type_lookup (t : string) :
  default 50 (type_priorities !! t) = spec_type_offset t.
Proof.
  unfold type_priorities, spec_type_offset.
  do 4 dict_step t. reflexivity.
Qed.

Lemma urgency_lookup (u : string) :
  default 0 (urgency_modifiers !! u) = spec_urgency_modifier u.
Proof.
  unfold urgency_modifiers, spec_urgency_modifier.
  do 4 dict_step u. reflexivity.
Qed.

Lemma type_offset_range (t : string) : 10 <= spec_type_offset t <= 50.
Proof.
  unfold spec_type_offset.
  repeat match goal with |- context [if ?b then _ else _] => destruct b end;
    lia.
Qed.

Lemma urgency_modifier_range (u : string) :
  -30 <= spec_urgency_modifier u <= 15.
Proof.
  unfold spec_urgency_modifier.
  repeat match goal with |- context [if ?b then _ else _] => destruct b end;
    lia.
Qed.

(** C1. For every job descriptor the scheduler's priority is base 100
    plus the per-type offset (training 50, inference 10, batch_processing
    30, model_optimization 40, any other type 50) plus the urgency modifier
    (critical -30, high -15, normal 0, low 15, any other 0) plus 20 when
    resource_weight > 2.0, floored at 1; and for jobs that differ only in
    their urgency, critical < high < normal < low. *)
Theorem priority_formula_and_urgency_order (job : Job) :
  _calculate_job_priority job = spec_priority job
  /\ _calculate_job_priority (with_urgency "critical" job)
       < _calculate_job_priority (with_urgency "high" job)
  /\ _calculate_job_priority (with_urgency "high" job)
       < _calculate_job_priority (with_urgency "normal" job)
  /\ _calculate_job_priority (with_urgency "normal" job)
       < _calculate_job_priority (with_urgency "low" job).
Proof.
  assert (F : forall j, _calculate_job_priority j = spec_priority j).
  { intros j. unfold _calculate_job_priority, spec_priority.
    rewrite type_lookup, urgency_lookup.
    pose proof (type_offset_range (get (Job.type j) "inference"%string)).
    pose proof (urgency_modifier_range (get (Job.urgency j) "normal"%string)).
    unfold Py.Zmax.
    destruct (Py.ltb 2 (get (Job.resource_weight j) 1%Q)) eqn:W;
      [ apply ltb_spec in W | apply ltb_nspec in W ];
      destruct (Qlt_le_dec 2 (get (Job.resource_weight j) 1%Q)) as [L|L];
      try (exfalso; lra);
      match goal with |- context [Z.ltb 1 ?p] => destruct (Z.ltb_spec 1 p) end;
      lia. }
  split; [ apply F | ].
  rewrite !F. unfold spec_priority, with_urgency, get; simpl.
  pose proof (type_offset_range (default "inference"%string (Job.type job))).
  replace (spec_urgency_modifier "critical") with (-30) by reflexivity.
  replace (spec_urgency_modifier "high") with (-15) by reflexivity.
  replace (spec_urgency_modifier "normal") with 0 by reflexivity.
  replace (spec_urgency_modifier "low") with 15 by reflexivity.
  destruct (Qlt_le_dec 2 (default 1%Q (Job.resource_weight job))); lia.
Qed.

End PriorityFacts.

(** ** Carbon packing *)

Module CarbonPackingFacts.
Import CarbonAwareScheduler CarbonSpec FloatFacts.

Lemma leb_spec (a b : Q) : Py.leb a b = true <-> (a <= b)%Q.
Proof.
  unfold Py.leb. rewrite negb_true_iff. apply ltb_nspec.
Qed.

Lemma leb_nspec (a b : Q) : Py.leb a b = false <-> (b < a)%Q.
Proof.
  unfold Py.leb. rewrite negb_false_iff. apply ltb_spec.
Qed.

Lemma find_window_assignment (job : Job) (windows : list Window.t) :
  assignment job windows (fst (find_window job windows))
             (snd (find_window job windows)).
Proof.
  induction windows as [|w ws IH]; simpl.
  - constructor. constructor.
  - destruct (Py.leb (job_duration job) (Window.capacity w)) eqn:Hfit.
    + apply leb_spec in Hfit. simpl.
      apply (assigned job (w :: ws) 0%nat w); [reflexivity | assumption |].
      intros k w' Hk. lia.
    + apply leb_nspec in Hfit.
      destruct (find_window job ws) as [r ws'] eqn:Hfw. simpl in *.
      inversion IH as [i w0 Hi Hcap Hfirst Hr Hws | Hall Hr Hws]; subst.
      * apply (assigned job (w :: ws) (S i) w0); [assumption | assumption |].
        intros [|k] w' Hk Hlk; simpl in Hlk.
        -- now inversion Hlk; subst.
        -- apply (Hfirst k); [lia | assumption].
      * constructor. now constructor.
Qed.

Lemma capacity_kept_refl (d : Q) (ws : list Window.t) :
  Forall2 (capacity_kept d) ws ws.
Proof.
  apply Forall2_same_length_lookup_2; [reflexivity |].
  intros k x y Hx Hy. rewrite Hx in Hy. inversion Hy; subst.
  split; intros; lra.
Qed.

Lemma assignment_capacity job windows r windows' :
  assignment job windows r windows' ->
  Forall2 (capacity_kept (job_duration job)) windows windows'.
Proof.
  intros [i w Hi Hcap _ | _]; [| apply capacity_kept_refl].
  revert i Hi. induction windows as [|w0 ws IH]; intros [|i] Hi;
    simpl in *; try discriminate.
  - inversion Hi; subst. constructor; [| apply capacity_kept_refl].
    split; simpl; intros.
    + now apply fsub_nonneg.
    + now apply fsub_le.
  - constructor; [split; intros; lra | now apply IH].
Qed.


Lemma schedule_capacity jobs windows :
  Forall (fun j => (0 <= job_duration j)%Q) jobs ->
  Forall2 capacity_bounds windows
          (snd (_schedule_in_green_windows jobs windows)).
Proof.
  unfold _schedule_in_green_windows.
  generalize (@nil ScheduledEntry.t) as acc.
  assert (Hrefl : forall ws : list Window.t, Forall2 capacity_bounds ws ws).
  { intros ws. apply Forall2_same_length_lookup_2; [reflexivity |].
    intros k x y Hx Hy. rewrite Hx in Hy. inversion Hy; subst.
    split; intros; lra. }
  assert (Hgen : forall js ws0 ws acc,
    Forall (fun j => (0 <= job_duration j)%Q) js ->
    Forall2 capacity_bounds ws0 ws ->
    Forall2 capacity_bounds ws0 (snd (fold_left place js (acc, ws)))).
  { induction js as [|j js IH]; intros ws0 ws acc Hd Hb; simpl; [assumption|].
    inversion Hd as [|? ? Hj Hjs]; subst.
    pose proof (find_window_assignment j ws) as Ha.
    apply assignment_capacity in Ha.
    unfold place at 2. simpl.
    destruct (find_window j ws) as [[e|] ws'] eqn:Hfw; simpl in Ha;
      apply IH; try assumption;
      (apply Forall2_same_length_lookup_2;
        [ rewrite (Forall2_length _ _ _ Hb); apply (Forall2_length _ _ _ Ha) |];
       intros k x z Hx Hz;
       destruct (Forall2_lookup_l _ _ _ _ _ Hb Hx) as (y & Hy & [B1 B2]);
       destruct (Forall2_lookup_l _ _ _ _ _ Ha Hy) as (z' & Hz' & [K1 K2]);
       rewrite Hz in Hz'; inversion Hz'; subst;
       split; [ intros; auto | specialize (K2 Hj); lra ]). }
  intros acc Hd. apply Hgen; [assumption | apply Hrefl].
Qed.



End CarbonPackingFacts.


(** ** Carbon savings *)

Module CarbonSavingsFacts.
Import CarbonAwareScheduler CarbonSpec.

Lemma sum_acc (xs : list Q) (a : Q) :
  (fold_left Qplus xs a == a + Py.sum xs)%Q.
Proof.
  unfold Py.sum. revert a.
  induction xs as [|x xs IH]; intros a; simpl.
  - ring.
  - rewrite (IH (a + x)%Q), (IH (0 + x)%Q). ring.
Qed.

Lemma sum_cons (x : Q) (xs : list Q) : (Py.sum (x :: xs) == x + Py.sum xs)%Q.
Proof. unfold Py.sum at 1. simpl. rewrite sum_acc. ring. Qed.

Lemma sum_const {A} (c : Q) (l : list A) :
  (Py.sum (map (fun _ => c) l) == Py.len l * c)%Q.
Proof.
  induction l as [|x l IH].
  - unfold Py.len. simpl. unfold Py.sum. simpl. ring.
  - simpl map. rewrite sum_cons, IH. unfold Py.len. simpl length.
    rewrite Nat2Z.inj_succ. unfold Z.succ. rewrite inject_Z_plus. ring.
Qed.

Lemma len_pos {A} (l : list A) : l <> [] -> (0 < Py.len l)%Q.
Proof.
  intros Hne. unfold Py.len. destruct l as [|x l]; [congruence |].
  change 0%Q with (inject_Z 0). rewrite <- Zlt_Qlt. simpl length. lia.
Qed.

Lemma baseline_pos {A} (l : list A) :
  l <> [] -> (0 < Py.len l * 450 / 1000)%Q.
Proof.
  intros Hne. pose proof (len_pos l Hne).
  assert (E : (Py.len l * 450 / 1000 == Py.len l * (45 # 100))%Q) by field.
  rewrite E. lra.
Qed.

Lemma max_nonneg (x : Q) : (0 <= Py.max 0 x)%Q.
Proof. rewrite max_clamp. apply Q.le_max_l. Qed.

(** What the function returns on a list that is not empty. *)
Lemma savings_nonempty {S} (l : list ScheduledEntry.t) (s : S) :
  l <> [] ->
  let imm := (Py.len l * 450 / 1000)%Q in
  let green := (Py.len l * mean_intensity l / 1000)%Q in
  _calculate_carbon_savings l s
  = (Val (CarbonSavings.mk (Py.max 0 (imm - green))
            (Py.max 0 ((imm - green) / imm * 100))
            (Some imm) (Some green) (Some (length l))), s).
Proof.
  intros Hne imm green. unfold _calculate_carbon_savings.
  destruct l as [|e l]; [congruence |].
  assert (Himm : (0 < imm)%Q).
  { subst imm. now apply baseline_pos. }
  assert (Hmean : np.mean (map ScheduledEntry.carbon_intensity (e :: l))
                  = Some (mean_intensity (e :: l))).
  { unfold np.mean, mean_intensity, Py.len. cbn [map length].
    rewrite length_map. reflexivity. }
  change (length (e :: l) =? 0)%nat with false. cbv iota.
  unfold mbind, M_bind. rewrite Hmean. unfold finite, mret, M_ret.
  fold imm. fold green.
  destruct (Py.ltb 0 imm) eqn:Hlt; [| apply ltb_nspec in Hlt; lra].
  unfold Py.div, Py.eqb.
  destruct (Qeq_bool imm 0) eqn:Hz.
  - apply Qeq_bool_eq in Hz. lra.
  - reflexivity.
Qed.

(** C5. The reported savings are the emissions of the scheduled jobs at the
    baseline of 450 gCO2/kWh less their emissions at the mean intensity of
    the scheduled jobs, one kWh each, clamped at zero: that is
    [max 0 ((450 n - sum of the intensities) / 1000)].  Savings and
    percentage are never negative, and the percentage is the clamped ratio
    of the savings to the baseline emissions. *)
Theorem carbon_savings_formula {S} (l : list ScheduledEntry.t) (s : S) :
  exists r,
    _calculate_carbon_savings l s = (Val r, s)
    /\ (CarbonSavings.total_savings_kg_co2 r == Qmax 0 (spec_savings l))%Q
    /\ (CarbonSavings.total_savings_kg_co2 r
        == Qmax 0 ((450 * Py.len l
                    - Py.sum (map ScheduledEntry.carbon_intensity l)) / 1000))%Q
    /\ (0 <= CarbonSavings.total_savings_kg_co2 r)%Q
    /\ (0 <= CarbonSavings.percentage_reduction r)%Q
    /\ (l <> [] ->
        (CarbonSavings.percentage_reduction r
         == Qmax 0 (spec_savings l / emissions_kg baseline_intensity l * 100))%Q).
Proof.
  destruct l as [|e l].
  - exists (CarbonSavings.mk 0 0 None None None).
    split; [reflexivity |]. simpl.
    repeat split; try (vm_compute; discriminate); congruence.
  - set (l' := e :: l). assert (Hne : l' <> []) by discriminate.
    eexists. split; [apply (savings_nonempty l' s Hne) |].
    cbn [CarbonSavings.total_savings_kg_co2 CarbonSavings.percentage_reduction].
    pose proof (len_pos l' Hne) as Hlen.
    assert (Hi : (emissions_kg baseline_intensity l' == Py.len l' * 450 / 1000)%Q).
    { unfold emissions_kg, baseline_intensity. rewrite sum_const.
      field. }
    assert (Hg : (emissions_kg (mean_intensity l') l'
                  == Py.len l' * mean_intensity l' / 1000)%Q).
    { unfold emissions_kg. rewrite sum_const. field. }
    assert (Hs : (spec_savings l'
                  == Py.len l' * 450 / 1000
                     - Py.len l' * mean_intensity l' / 1000)%Q).
    { unfold spec_savings. rewrite Hi, Hg. reflexivity. }
    split; [| split; [| split; [| split]]].
    + rewrite max_clamp, Hs. reflexivity.
    + rewrite max_clamp. apply Q.max_compat; [reflexivity |].
      unfold mean_intensity. field. lra.
    + apply max_nonneg.
    + apply max_nonneg.
    + intros _. rewrite max_clamp, Hs, Hi. reflexivity.
Qed.

Lemma carbon_savings_formula_witness :
  let e := ScheduledEntry.mk (Some "a"%string) 9 10 250 70 "normal" in
  exists r,
    _calculate_carbon_savings [e; e] tt = (Val r, tt)
    /\ (CarbonSavings.percentage_reduction r
        == Qmax 0 (spec_savings [e; e]
                   / emissions_kg baseline_intensity [e; e] * 100))%Q.
Proof.
  intros e.
  destruct (carbon_savings_formula [e; e] tt) as (r & Hr & _ & _ & _ & _ & Hp).
  exists r. split; [exact Hr | apply Hp; discriminate].
Defined.

(** C10. On the empty list the savings and the percentage are both 0, and
    neither the mean nor the division is evaluated; on every list the
    function returns a value: the mean is taken of a list that is not
    empty and the division is by baseline emissions that are positive. *)
Theorem carbon_savings_total {S} (s : S) :
  _calculate_carbon_savings [] s
  = (Val (CarbonSavings.mk 0 0 None None None), s)
  /\ (forall l : list ScheduledEntry.t,
        exists r, _calculate_carbon_savings l s = (Val r, s))
  /\ (forall l : list ScheduledEntry.t,
        l <> [] ->
        np.mean (map ScheduledEntry.carbon_intensity l) <> None
        /\ Py.div (Py.len l * 450 / 1000
                   - Py.len l * mean_intensity l / 1000)
                  (Py.len l * 450 / 1000) <> None).
Proof.
  split; [reflexivity | split].
  - intros [|e l].
    + eexists; reflexivity.
    + eexists. apply (savings_nonempty (e :: l) s). discriminate.
  - intros l Hne. split.
    + destruct l; [congruence | discriminate].
    + unfold Py.div, Py.eqb.
      destruct (Qeq_bool (Py.len l * 450 / 1000) 0) eqn:Hz; [| discriminate].
      apply Qeq_bool_eq in Hz. pose proof (baseline_pos l Hne). lra.
Qed.

Lemma carbon_savings_total_witness :
  let e := ScheduledEntry.mk (Some "a"%string) 9 10 250 70 "normal" in
  np.mean (map ScheduledEntry.carbon_intensity [e]) <> None.
Proof.
  intros e.
  refine (proj1 (proj2 (proj2 (carbon_savings_total tt)) [e] _)).
  discriminate.
Defined.

End CarbonSavingsFacts.


(** ** The resource history *)

Module MonitorFacts.
Import NeuralResourceOrchestrator MonitorSpec.

Lemma sample_None (env : Probes.t) : sample env = None <-> probe_failure env.
Proof.
  unfold sample, probe_failure.
  destruct (Probes.cpu_percent env) as [cpu|];
    [| split; [intros _; now left | reflexivity]].
  destruct (Probes.virtual_memory env) as [mem|];
    [| split; [intros _; right; now left | reflexivity]].
  destruct (Probes.disk_usage env) as [[used total]|];
    [| split; [intros _; right; right; now left | reflexivity]].
  destruct (Probes.net_io_counters env) as [[sent recv]|];
    [| split; [intros _; right; right; right; now left | reflexivity]].
  destruct (Qeq_bool total 0) eqn:Hz.
  - apply Qeq_bool_eq in Hz. split; [| reflexivity].
    intros _. do 4 right. now exists used, total.
  - apply Qeq_bool_neq in Hz. split; [discriminate |].
    intros [H|[H|[H|[H|(u & t & H & Ht)]]]]; try discriminate.
    inversion H; subst. contradiction.
Qed.

(** The [try] block either raises before it has touched the history, or
    appends its sample and evicts the oldest entry beyond 1000. *)
Lemma monitor_resources_try_run (env : Probes.t) (h : history) :
  match sample env with
  | Some m =>
      monitor_resources_try env h
      = (Val m, if (1000 <? length (h ++ [m]))%nat
                then drop 1 (h ++ [m]) else h ++ [m])
  | None => exists e, monitor_resources_try env h = (Exn e, h)
  end.
Proof.
  unfold sample, monitor_resources_try, mbind, M_bind, expect, raise.
  destruct (Probes.cpu_percent env) as [cpu|]; [| now eexists].
  destruct (Probes.virtual_memory env) as [mem|]; [| now eexists].
  destruct (Probes.disk_usage env) as [[used total]|]; [| now eexists].
  destruct (Probes.net_io_counters env) as [[sent recv]|]; [| now eexists].
  cbn -[Nat.ltb]. unfold Py.div, Py.eqb.
  destruct (Qeq_bool total 0); cbn -[Nat.ltb]; [now eexists |].
  match goal with |- context [(1000 <? ?n)%nat] =>
    destruct (1000 <? n)%nat end; reflexivity.
Qed.

Lemma last_n_short {A} (n : nat) (l : list A) :
  (length l <= n)%nat -> Py.last_n n l = l.
Proof.
  intros H. unfold Py.last_n. replace (length l - n)%nat with 0%nat by lia.
  reflexivity.
Qed.

Lemma last_n_length {A} (n : nat) (l : list A) :
  length (Py.last_n n l) = Nat.min n (length l).
Proof. unfold Py.last_n. rewrite length_drop. lia. Qed.

Lemma last_n_app {A} (n : nat) (a b : list A) :
  Py.last_n n (Py.last_n n a ++ b) = Py.last_n n (a ++ b).
Proof.
  destruct (le_lt_dec (length a) n) as [Hle|Hgt].
  - now rewrite (last_n_short n a Hle).
  - unfold Py.last_n at 1 3. rewrite !length_app, last_n_length.
    replace (Nat.min n (length a)) with n by lia.
    unfold Py.last_n.
    replace (n + length b - n)%nat with (length b) by lia.
    replace (length a + length b - n)%nat
      with ((length a - n) + length b)%nat by lia.
    rewrite <- drop_drop. rewrite (drop_app_le a b) by lia. reflexivity.
Qed.

(** One call, on a history within the bound. *)
Lemma monitor_step (env : Probes.t) (h : history) :
  (length h <= 1000)%nat ->
  snd (monitor_resources env h)
  = Py.last_n 1000 (h ++ option_list (sample env)).
Proof.
  intros Hlen. unfold monitor_resources, try_except.
  pose proof (monitor_resources_try_run env h) as Hrun.
  destruct (sample env) as [m|].
  - rewrite Hrun. cbn [snd option_list]. unfold Py.last_n.
    destruct (1000 <? length (h ++ [m]))%nat eqn:Hcmp;
      [ apply Nat.ltb_lt in Hcmp | apply Nat.ltb_ge in Hcmp ];
      rewrite length_app in *; simpl length in *.
    + replace (length h + 1 - 1000)%nat with 1%nat by lia. reflexivity.
    + replace (length h + 1 - 1000)%nat with 0%nat by lia. reflexivity.
  - destruct Hrun as [e Hrun]. rewrite Hrun. simpl.
    rewrite app_nil_r. now rewrite last_n_short.
Qed.

Lemma monitor_all_run (envs : list Probes.t) (h : history) :
  (length h <= 1000)%nat ->
  monitor_all envs h = Py.last_n 1000 (h ++ omap sample envs).
Proof.
  revert h. induction envs as [|env envs IH]; intros h Hlen; simpl.
  - rewrite app_nil_r. now rewrite last_n_short.
  - rewrite IH.
    + rewrite monitor_step by assumption. rewrite last_n_app.
      rewrite <- app_assoc. f_equal. f_equal.
      destruct (sample env); reflexivity.
    + rewrite monitor_step by assumption. rewrite last_n_length. lia.
Qed.

(** C6. The history never holds more than 1000 samples and evicts the
    oldest first: after any sequence of calls it is the last 1000 samples
    taken, in the order taken.  After 1001 samples its length is exactly
    1000, it is the samples without the first, and the first is no longer
    in it (the samples being pairwise different). *)
Theorem history_bounded_fifo (envs : list Probes.t) :
  let samples := omap sample envs in
  let h := monitor_all envs __init__ in
  (length h <= 1000)%nat
  /\ h = Py.last_n 1000 samples
  /\ length h = Nat.min 1000 (length samples)
  /\ (length samples = 1001%nat ->
      length h = 1000%nat
      /\ h = drop 1 samples
      /\ (forall s0, samples !! 0%nat = Some s0 -> NoDup samples -> s0 ∉ h)).
Proof.
  intros samples h.
  assert (Hh : h = Py.last_n 1000 samples).
  { subst h. rewrite monitor_all_run by (simpl; lia). reflexivity. }
  split; [| split; [| split]].
  - rewrite Hh, last_n_length. lia.
  - exact Hh.
  - rewrite Hh. apply last_n_length.
  - intros Hlen.
    assert (Hd : h = drop 1 samples).
    { rewrite Hh. unfold Py.last_n. now rewrite Hlen. }
    split; [| split].
    + rewrite Hh, last_n_length. lia.
    + exact Hd.
    + intros s0 Hs0 Hnd. rewrite Hd.
      destruct samples as [|x rest]; [discriminate |].
      simpl in Hs0. inversion Hs0; subst.
      apply NoDup_cons in Hnd as [Hnotin _]. exact Hnotin.
Qed.

Lemma history_bounded_fifo_witness :
  let env k :=
    Probes.mk (Some 10%Q) (Some 20%Q) false 50%Q (Some (1%Q, 2%Q))
              (Some (3%Q, 4%Q)) (datetime.mk k 0) in
  let envs := map (fun k => env (Z.of_nat k)) (seq 0 1001) in
  length (monitor_all envs __init__) = 1000%nat.
Proof.
  intros env envs.
  refine (proj1 (proj2 (proj2 (proj2 (history_bounded_fifo envs))) _)).
  vm_compute. reflexivity.
Defined.

(** C9. When a probe fails, the [try] block raises with the history as it
    was, and [monitor_resources] returns a sample whose numeric fields are
    all zero: nothing is appended; and the [try] block raises in no other
    case. *)
Theorem probe_failure_keeps_history (env : Probes.t) (h : history) :
  (probe_failure env <->
   exists e h', monitor_resources_try env h = (Exn e, h'))
  /\ (probe_failure env ->
      (exists e, monitor_resources_try env h = (Exn e, h))
      /\ monitor_resources env h = (Val (zero_sample env), h)
      /\ ResourceMetrics.cpu_usage (zero_sample env) = 0%Q
      /\ ResourceMetrics.memory_usage (zero_sample env) = 0%Q
      /\ ResourceMetrics.gpu_usage (zero_sample env) = 0%Q
      /\ ResourceMetrics.storage_usage (zero_sample env) = 0%Q
      /\ ResourceMetrics.network_io (zero_sample env) = 0%Q).
Proof.
  pose proof (monitor_resources_try_run env h) as Hrun.
  pose proof (sample_None env) as Hnone.
  split.
  - split.
    + intros Hf. apply Hnone in Hf. rewrite Hf in Hrun.
      destruct Hrun as [e He]. now exists e, h.
    + intros (e & h' & He). apply Hnone.
      destruct (sample env) as [m|]; [| reflexivity].
      rewrite Hrun in He. discriminate.
  - intros Hf. apply Hnone in Hf. rewrite Hf in Hrun.
    destruct Hrun as [e He].
    split; [now exists e |]. split; [| repeat split].
    unfold monitor_resources, try_except. rewrite He. reflexivity.
Qed.

Lemma probe_failure_keeps_history_witness :
  let env :=
    Probes.mk (Some 10%Q) None false 50%Q (Some (1%Q, 2%Q))
              (Some (3%Q, 4%Q)) (datetime.mk 0 0) in
  monitor_resources env [] = (Val (zero_sample env), []).
Proof.
  intros env.
  refine (proj1 (proj2 (proj2 (probe_failure_keeps_history env []) _))).
  right. left. reflexivity.
Defined.

End MonitorFacts.


(** ** Prediction *)

Module PredictFacts.
Import NeuralResourceOrchestrator PredictSpec FloatFacts.

Lemma clamp_percent_spec (x : Q) : (clamp_percent x == percent x)%Q.
Proof.
  unfold clamp_percent, percent. now rewrite max_clamp, min_clamp.
Qed.

Lemma percent_range (x : Q) : (0 <= percent x <= 100)%Q.
Proof.
  unfold percent. split.
  - apply Q.le_max_l.
  - apply Q.max_lub; [lra | apply Q.le_min_l].
Qed.

Lemma clamp_percent_range (x : Q) : (0 <= clamp_percent x <= 100)%Q.
Proof. rewrite clamp_percent_spec. apply percent_range. Qed.

(** A history of ten samples or more ends in ten samples. *)
Lemma last_ten (h : history) :
  (10 <= length h)%nat ->
  exists front m0 m1 m2 m3 m4 m5 m6 m7 m8 m9,
    h = front ++ [m0; m1; m2; m3; m4; m5; m6; m7; m8; m9].
Proof.
  intros Hlen. exists (take (length h - 10) h).
  pose proof (take_drop (length h - 10) h) as Hsplit.
  assert (Hl : length (drop (length h - 10) h) = 10%nat)
    by (rewrite length_drop; lia).
  destruct (drop (length h - 10) h) as [|m0 [|m1 [|m2 [|m3 [|m4 [|m5 [|m6
    [|m7 [|m8 [|m9 [|? ?]]]]]]]]]]]; simpl in Hl; try lia.
  exists m0, m1, m2, m3, m4, m5, m6, m7, m8, m9. now symmetry.
Qed.

Lemma last_n_app_r {A} (n : nat) (front l : list A) :
  (n <= length l)%nat -> Py.last_n n (front ++ l) = Py.last_n n l.
Proof.
  intros H. unfold Py.last_n. rewrite length_app.
  rewrite drop_app_ge by lia. f_equal. lia.
Qed.

Lemma confidence_runs (h : history) :
  exists c, _calculate_prediction_confidence h = (Val c, h).
Proof.
  unfold _calculate_prediction_confidence, mbind, M_bind, read.
  destruct (length h <? 50)%nat eqn:Hlen; [eexists; reflexivity |].
  apply Nat.ltb_ge in Hlen.
  pose proof (MonitorFacts.last_n_length 20 h) as Hl.
  destruct (Py.last_n 20 h) as [|m l]; cbn [length] in Hl; [lia |].
  eexists. reflexivity.
Qed.

(** *** The quotient [horizon / 30] *)

Lemma horizon_threshold (horizon : Z) :
  (Py.overflow_threshold <= Qabs (inject_Z horizon / inject_Z 30))%Q
  <-> max_horizon <= Z.abs horizon.
Proof.
  assert (Eabs : (Qabs (inject_Z horizon / inject_Z 30)
                  == inject_Z (Z.abs horizon) / 30)%Q).
  { unfold Qdiv. rewrite Qabs_Qmult. apply Qmult_comp; reflexivity. }
  assert (Emax : (inject_Z max_horizon == 30 * Py.overflow_threshold)%Q)
    by (vm_compute; reflexivity).
  rewrite Eabs, Zle_Qle, Emax.
  set (a := inject_Z (Z.abs horizon)). set (t := Py.overflow_threshold).
  split; intros H.
  - apply (Qmult_le_l _ _ (1 # 30)); [reflexivity |].
    assert (E1 : ((1 # 30) * (30 * t) == t)%Q) by ring.
    assert (E2 : ((1 # 30) * a == a / 30)%Q) by (field; discriminate).
    now rewrite E1, E2.
  - assert (E2 : (a / 30 == (1 # 30) * a)%Q) by (field; discriminate).
    assert (E1 : (t == (1 # 30) * (30 * t))%Q) by ring.
    rewrite E2, E1. apply Qmult_le_l; [reflexivity | exact H].
Qed.

Lemma int_truediv_in_range {S} (horizon : Z) :
  horizon_in_range horizon ->
  @int_truediv S horizon 30 = mret (scale horizon).
Proof.
  intros Hr. unfold int_truediv. cbn [Z.eqb].
  destruct (Qle_bool _ _) eqn:Hov; [| reflexivity].
  apply overflows_iff, horizon_threshold in Hov.
  unfold horizon_in_range in Hr. lia.
Qed.

Lemma int_truediv_overflow {S} (horizon : Z) :
  ~ horizon_in_range horizon ->
  @int_truediv S horizon 30 = raise OverflowError.
Proof.
  intros Hr. unfold int_truediv. cbn [Z.eqb].
  destruct (Qle_bool _ _) eqn:Hov; [reflexivity |].
  exfalso. apply Hr. unfold horizon_in_range.
  destruct (Z_lt_le_dec (Z.abs horizon) max_horizon) as [Hlt|Hge];
    [exact Hlt |].
  apply horizon_threshold, overflows_iff in Hge. congruence.
Qed.

(** *** The prediction on ten samples *)

Lemma neural_predict_ten {S}
    (m0 m1 m2 m3 m4 m5 m6 m7 m8 m9 : ResourceMetrics.t) (horizon : Z) (s : S) :
  horizon_in_range horizon ->
  _neural_predict
    (_extract_prediction_features [m0; m1; m2; m3; m4; m5; m6; m7; m8; m9])
    horizon s
  = (Val (predicted_usage [m0; m1; m2; m3; m4; m5; m6; m7; m8; m9] horizon),
     s).
Proof.
  intros Hr. unfold _neural_predict.
  rewrite (int_truediv_in_range horizon Hr).
  lazy -[Py.fl Qplus Qminus Qmult Qdiv Z.of_nat inject_Z scale clamp_percent].
  reflexivity.
Qed.

Lemma neural_predict_overflow {S}
    (m0 m1 m2 m3 m4 m5 m6 m7 m8 m9 : ResourceMetrics.t) (horizon : Z) (s : S) :
  ~ horizon_in_range horizon ->
  _neural_predict
    (_extract_prediction_features [m0; m1; m2; m3; m4; m5; m6; m7; m8; m9])
    horizon s
  = (Exn OverflowError, s).
Proof.
  intros Hr. unfold _neural_predict.
  rewrite (int_truediv_overflow horizon Hr).
  lazy -[Py.fl Qplus Qminus Qmult Qdiv Z.of_nat inject_Z].
  reflexivity.
Qed.

(** The projection reads the last five samples only. *)
Lemma projection_last (field : ResourceMetrics.t -> Q)
    (front l : list ResourceMetrics.t) (horizon : Z) :
  (5 <= length l)%nat ->
  projection field (front ++ l) horizon = projection field l horizon.
Proof.
  intros Hl. unfold projection, series. rewrite map_app.
  rewrite last_n_app_r by (rewrite length_map; lia).
  rewrite last_app.
  destruct (last (map (fun m => Py.fl (field m / 100)) l)) eqn:E;
    [reflexivity |].
  apply last_None in E. destruct l; [simpl in Hl; lia | discriminate].
Qed.

Lemma predicted_usage_last (front l : list ResourceMetrics.t) (horizon : Z) :
  (5 <= length l)%nat ->
  predicted_usage (front ++ l) horizon = predicted_usage l horizon.
Proof.
  intros Hl. unfold predicted_usage. now rewrite !projection_last.
Qed.

(** On ten samples or more and a horizon in range the prediction is
    made. *)
Lemma predict_runs (h : history) (horizon : Z) :
  (10 <= length h)%nat -> horizon_in_range horizon ->
  exists confidence,
    _calculate_prediction_confidence h = (Val confidence, h)
    /\ predict_resource_needs horizon h
       = (Val (Prediction horizon (predicted_usage h horizon)
                 (_generate_resource_recommendations
                    (predicted_usage h horizon)) confidence), h).
Proof.
  intros Hlen Hr.
  destruct (last_ten h Hlen)
    as (front & m0 & m1 & m2 & m3 & m4 & m5 & m6 & m7 & m8 & m9 & Hh).
  destruct (confidence_runs h) as [c Hconf].
  exists c. split; [exact Hconf |].
  unfold predict_resource_needs, try_except, mbind, M_bind, read.
  apply Nat.ltb_ge in Hlen. rewrite Hlen.
  assert (Hlast : Py.last_n 10 h = [m0; m1; m2; m3; m4; m5; m6; m7; m8; m9]).
  { rewrite Hh. rewrite last_n_app_r by (simpl; lia). reflexivity. }
  rewrite Hlast, (neural_predict_ten _ _ _ _ _ _ _ _ _ _ _ _ Hr), Hconf.
  rewrite Hh, predicted_usage_last by (simpl; lia). reflexivity.
Qed.

(** On ten samples or more and a horizon out of range the quotient
    raises, and the error form is returned. *)
Lemma predict_overflow (h : history) (horizon : Z) :
  (10 <= length h)%nat -> ~ horizon_in_range horizon ->
  predict_resource_needs horizon h
  = (Val (PredictionFailed OverflowError), h).
Proof.
  intros Hlen Hr.
  destruct (last_ten h Hlen)
    as (front & m0 & m1 & m2 & m3 & m4 & m5 & m6 & m7 & m8 & m9 & Hh).
  unfold predict_resource_needs, try_except, mbind, M_bind, read.
  apply Nat.ltb_ge in Hlen. rewrite Hlen.
  assert (Hlast : Py.last_n 10 h = [m0; m1; m2; m3; m4; m5; m6; m7; m8; m9]).
  { rewrite Hh. rewrite last_n_app_r by (simpl; lia). reflexivity. }
  now rewrite Hlast, (neural_predict_overflow _ _ _ _ _ _ _ _ _ _ _ _ Hr).
Qed.

Lemma predict_short (h : history) (horizon : Z) :
  (length h < 10)%nat ->
  predict_resource_needs horizon h
  = (Val (InsufficientData "Insufficient historical data"), h).
Proof.
  intros Hlen. unfold predict_resource_needs, try_except, mbind, M_bind, read.
  now replace (length h <? 10)%nat with true
    by (symmetry; apply Nat.ltb_lt; lia).
Qed.

Lemma huge_horizon : ~ horizon_in_range (10 ^ 400).
Proof. unfold horizon_in_range. vm_compute. discriminate. Qed.

(** C7. On fewer than ten samples [predict_resource_needs] returns the
    InsufficientData result, with its reason and [prediction_available]
    false, whatever the horizon.  On ten samples or more it returns a
    prediction, with [prediction_available] true, the predicted usage,
    the recommendations made from it and a confidence, for every horizon
    whose quotient by 30 a float can hold; for the other horizons
    [horizon / 30] raises OverflowError and the call returns the error
    form. *)
Theorem prediction_gating (h : history) (horizon : Z) :
  ((length h < 10)%nat ->
   predict_resource_needs horizon h
   = (Val (InsufficientData "Insufficient historical data"), h)
   /\ prediction_available
        (InsufficientData "Insufficient historical data") = false)
  /\ ((10 <= length h)%nat -> horizon_in_range horizon ->
      exists usage confidence,
        predict_resource_needs horizon h
        = (Val (Prediction horizon usage
                  (_generate_resource_recommendations usage) confidence), h)
        /\ prediction_available
             (Prediction horizon usage
                (_generate_resource_recommendations usage) confidence) = true)
  /\ ((10 <= length h)%nat -> ~ horizon_in_range horizon ->
      predict_resource_needs horizon h
      = (Val (PredictionFailed OverflowError), h)
      /\ prediction_available (PredictionFailed OverflowError) = false).
Proof.
  split; [| split].
  - intros Hlen. split; [| reflexivity]. now apply predict_short.
  - intros Hlen Hr.
    destruct (predict_runs h horizon Hlen Hr) as (c & _ & Hrun).
    eexists _, c. split; [exact Hrun | reflexivity].
  - intros Hlen Hr. split; [| reflexivity]. now apply predict_overflow.
Qed.

Lemma prediction_gating_witness :
  let m := ResourceMetrics.mk 50 40 30 20 1000 (datetime.mk 0 0) in
  fst (predict_resource_needs 30 (replicate 9 m))
  = Val (InsufficientData "Insufficient historical data")
  /\ (exists usage confidence,
       fst (predict_resource_needs 30 (replicate 10 m))
       = Val (Prediction 30 usage
                (_generate_resource_recommendations usage) confidence))
  /\ fst (predict_resource_needs (10 ^ 400) (replicate 10 m))
     = Val (PredictionFailed OverflowError).
Proof.
  intros m. split; [| split].
  - destruct (proj1 (prediction_gating (replicate 9 m) 30)) as [H _].
    + simpl. lia.
    + now rewrite H.
  - destruct (proj1 (proj2 (prediction_gating (replicate 10 m) 30)))
      as (usage & c & H & _).
    + simpl. lia.
    + unfold horizon_in_range. vm_compute. reflexivity.
    + exists usage, c. now rewrite H.
  - destruct (proj2 (proj2 (prediction_gating (replicate 10 m) (10 ^ 400))))
      as [H _].
    + simpl. lia.
    + apply huge_horizon.
    + now rewrite H.
Defined.

(** Ten samples and the horizon [10^400]: no prediction is returned. *)
Lemma prediction_on_every_horizon_fails : ~ prediction_on_every_horizon.
Proof.
  intros Hclaim.
  pose (m := ResourceMetrics.mk 50 40 30 20 1000 (datetime.mk 0 0)).
  destruct (Hclaim (replicate 10 m) (10 ^ 400))
    as (usage & recommendations & confidence & Hrun); [simpl; lia |].
  rewrite (predict_overflow (replicate 10 m) (10 ^ 400)) in Hrun;
    [discriminate | simpl; lia | apply huge_horizon].
Qed.

(** C8. On ten samples or more and for every horizon whose quotient by
    30 a float can hold, each predicted percentage is the latest value
    of its feature plus the mean first difference of the last five values
    of that feature scaled by [horizon / 30], every operation rounded to
    the nearest float, as a percentage clamped to [0, 100]; for the other
    horizons no prediction is made and the error form is returned. *)
Theorem prediction_is_clamped_trend (h : history) (horizon : Z) :
  (10 <= length h)%nat ->
  (horizon_in_range horizon ->
   exists usage recommendations confidence,
     predict_resource_needs horizon h
     = (Val (Prediction horizon usage recommendations confidence), h)
     /\ (Predicted.cpu_usage usage
         == percent (projection ResourceMetrics.cpu_usage h horizon))%Q
     /\ (Predicted.memory_usage usage
         == percent (projection ResourceMetrics.memory_usage h horizon))%Q
     /\ (Predicted.gpu_usage usage
         == percent (projection ResourceMetrics.gpu_usage h horizon))%Q
     /\ (Predicted.storage_usage usage
         == percent (projection ResourceMetrics.storage_usage h horizon))%Q
     /\ (0 <= Predicted.cpu_usage usage <= 100)%Q
     /\ (0 <= Predicted.memory_usage usage <= 100)%Q
     /\ (0 <= Predicted.gpu_usage usage <= 100)%Q
     /\ (0 <= Predicted.storage_usage usage <= 100)%Q)
  /\ (~ horizon_in_range horizon ->
      predict_resource_needs horizon h
      = (Val (PredictionFailed OverflowError), h)).
Proof.
  intros Hlen. split; [| now apply predict_overflow].
  intros Hr. destruct (predict_runs h horizon Hlen Hr) as (c & _ & Hrun).
  eexists _, _, c. split; [exact Hrun |].
  cbn [predicted_usage Predicted.cpu_usage Predicted.memory_usage
       Predicted.gpu_usage Predicted.storage_usage].
  repeat split;
    try apply clamp_percent_spec; apply clamp_percent_range.
Qed.

Lemma prediction_is_clamped_trend_witness :
  let m c := ResourceMetrics.mk c 40 30 20 1000 (datetime.mk 0 0) in
  let h := replicate 9 (m 50%Q) ++ [m 78%Q] in
  exists usage recommendations confidence,
    predict_resource_needs 30 h
    = (Val (Prediction 30 usage recommendations confidence), h)
    /\ (Predicted.cpu_usage usage
        == percent (projection ResourceMetrics.cpu_usage h 30))%Q.
Proof.
  intros m h.
  destruct (proj1 (prediction_is_clamped_trend h 30 ltac:(simpl; lia)))
    as (u & r & c & H & Hc & _).
  - unfold horizon_in_range. vm_compute. reflexivity.
  - exists u, r, c. split; assumption.
Defined.

(** Ten samples and the horizon [10^400]: the error form, and no
    percentage at all. *)
Lemma exact_trend_on_every_horizon_fails : ~ exact_trend_on_every_horizon.
Proof.
  intros Hclaim.
  pose (m := ResourceMetrics.mk 57 40 30 20 1000 (datetime.mk 0 0)).
  destruct (Hclaim (replicate 10 m) (- 10 ^ 400))
    as (usage & recommendations & confidence & Hrun & _); [simpl; lia |].
  rewrite (predict_overflow (replicate 10 m) (- 10 ^ 400)) in Hrun;
    [discriminate | simpl; lia |].
  unfold horizon_in_range. vm_compute. discriminate.
Qed.

(** Nor is a prediction that is made the percentage of the rationals:
    cpu readings of 50 and a last one of 78 project to 85 on the horizon
    30, and the prediction is the float above it,
    [85.00000000000001], for which a scale-up is recommended. *)
Lemma prediction_is_rounded :
  let m c := ResourceMetrics.mk c 40 30 20 1000 (datetime.mk 0 0) in
  let h := replicate 9 (m 50%Q) ++ [m 78%Q] in
  (exact_percent (exact_projection ResourceMetrics.cpu_usage h 30) == 85)%Q
  /\ exists usage recommendations confidence,
       predict_resource_needs 30 h
       = (Val (Prediction 30 usage recommendations confidence), h)
       /\ (Predicted.cpu_usage usage == 85 + Py.pow2 (-46))%Q
       /\ Recommendation.action <$> recommendations = ["scale_up"%string].
Proof.
  intros m h. split; [vm_compute; reflexivity |].
  assert (Hr : horizon_in_range 30)
    by (unfold horizon_in_range; vm_compute; reflexivity).
  destruct (predict_runs h 30 ltac:(simpl; lia) Hr) as (c & _ & Hrun).
  eexists _, _, c. split; [exact Hrun |].
  split; vm_compute; reflexivity.
Qed.

End PredictFacts.


(** ** The binary heap of [heapq] *)

Module HeapFacts.
Import heapq HeapSpec.
#[local] Open Scope nat_scope.

Section Swap.

Context {E : Type}.
Implicit Types (h : list E) (i j k : nat).

Lemma length_swap h i j : length (swap h i j) = length h.
Proof.
  unfold swap. destruct (h !! i), (h !! j); try reflexivity.
  now rewrite !length_insert.
Qed.

Lemma lookup_swap_l h i j a b :
  h !! i = Some a -> h !! j = Some b -> swap h i j !! i = Some b.
Proof.
  intros Hi Hj. unfold swap. rewrite Hi, Hj.
  apply list_lookup_insert_eq. rewrite length_insert.
  now apply lookup_lt_Some in Hi.
Qed.

Lemma lookup_swap_r h i j a b :
  h !! i = Some a -> h !! j = Some b -> swap h i j !! j = Some a.
Proof.
  intros Hi Hj. unfold swap. rewrite Hi, Hj.
  destruct (decide (i = j)) as [->|Hne].
  - rewrite list_lookup_insert_eq
      by (rewrite length_insert; now apply lookup_lt_Some in Hi).
    congruence.
  - rewrite list_lookup_insert_ne by assumption.
    apply list_lookup_insert_eq. now apply lookup_lt_Some in Hj.
Qed.

Lemma lookup_swap_ne h i j k :
  k <> i -> k <> j -> swap h i j !! k = h !! k.
Proof.
  intros Hi Hj. unfold swap. destruct (h !! i), (h !! j); try reflexivity.
  now rewrite !list_lookup_insert_ne by congruence.
Qed.

Lemma swap_perm h i j : swap h i j ≡ₚ h.
Proof.
  unfold swap. destruct (h !! i) as [a|] eqn:Hi; [| reflexivity].
  destruct (h !! j) as [b|] eqn:Hj; [| reflexivity].
  now apply Permutation_insert_swap.
Qed.

End Swap.

(** Whatever a sift loop does, and however it ends, the list holds the
    same elements after it. *)
Section Permutation.

Context {E : Type} (lt : E -> E -> option bool).
Implicit Types (h : list E).

Lemma siftdown_perm fuel startpos pos h :
  snd (siftdown lt fuel startpos pos h) ≡ₚ h.
Proof.
  revert pos h. induction fuel as [|fuel IH]; intros pos h; [reflexivity |].
  cbn [siftdown]. destruct (startpos <? pos)%nat; [| reflexivity].
  unfold mbind, M_bind, read, expect, raise, write, mret, M_ret.
  destruct (h !! pos) as [newitem|]; [| reflexivity].
  destruct (h !! ((pos - 1) / 2)%nat) as [parent|]; [| reflexivity].
  destruct (lt newitem parent) as [[|]|]; try reflexivity.
  rewrite IH. apply swap_perm.
Qed.

Lemma siftup_loop_perm fuel endpos pos h :
  snd (siftup_loop lt fuel endpos pos h) ≡ₚ h.
Proof.
  revert pos h. induction fuel as [|fuel IH]; intros pos h; [reflexivity |].
  cbn [siftup_loop]. destruct (pos <? endpos / 2)%nat; [| reflexivity].
  unfold mbind, M_bind, read, expect, raise, write, mret, M_ret.
  destruct (2 * pos + 1 + 1 <? endpos)%nat.
  - destruct (h !! (2 * pos + 1)%nat) as [a|]; [| reflexivity].
    destruct (h !! (2 * pos + 1 + 1)%nat) as [b|]; [| reflexivity].
    destruct (lt a b) as [cmp|]; [| reflexivity].
    rewrite IH. apply swap_perm.
  - rewrite IH. apply swap_perm.
Qed.

Lemma siftup_perm pos h : snd (siftup lt pos h) ≡ₚ h.
Proof.
  unfold siftup, mbind, M_bind, read, raise.
  destruct (length h <=? pos)%nat; [reflexivity |].
  pose proof (siftup_loop_perm (S (length h)) (length h) pos h) as Hl.
  destruct (siftup_loop lt (S (length h)) (length h) pos h) as [[leaf|e|w] h1];
    simpl in Hl; try exact Hl.
  rewrite siftdown_perm. exact Hl.
Qed.

(** After [heappush], raised or not, the heap holds its elements and the
    new item. *)
Lemma heappush_perm item h : snd (heappush lt item h) ≡ₚ h ++ [item].
Proof.
  unfold heappush, mbind, M_bind, read, write. apply siftdown_perm.
Qed.

(** [heappop] returns an element of the heap and leaves the others. *)
Lemma heappop_perm h x h' :
  heappop lt h = (Val x, h') -> h ≡ₚ x :: h'.
Proof.
  unfold heappop, mbind, M_bind, read, write, expect, raise, mret, M_ret.
  destruct (last h) as [lastelt|] eqn:Hlast; [| discriminate].
  destruct (last_Some h lastelt) as [[front Hh] _]; [assumption |].
  subst h.
  assert (Htake : take (length (front ++ [lastelt]) - 1) (front ++ [lastelt])
                  = front).
  { rewrite length_app. cbn [length]. rewrite Nat.add_sub.
    apply take_app_length. }
  rewrite Htake. clear Htake.
  destruct front as [|returnitem rest].
  - intros H. inversion H; subst. reflexivity.
  - cbn [insert list_insert].
    pose proof (siftup_perm 0 (lastelt :: rest)) as Hp.
    destruct (siftup lt 0 (lastelt :: rest)) as [[[]|e|w] h1];
      intros H; inversion H; subst. simpl in Hp.
    rewrite Hp. simpl. constructor.
    symmetry. apply Permutation_cons_append.
Qed.


End Permutation.

Section Parent.

(** A position that is not the root is the left or the right child of its
    parent. *)
Lemma parent_spec (i : nat) :
  (0 < i)%nat -> i = (2 * parent i + 1)%nat \/ i = (2 * parent i + 2)%nat.
Proof.
  unfold parent. intros H.
  pose proof (Nat.div_mod_eq (i - 1) 2) as Hd.
  pose proof (Nat.mod_upper_bound (i - 1) 2 ltac:(lia)). lia.
Qed.

Lemma half_spec (n : nat) : (2 * (n / 2) <= n < 2 * (n / 2) + 2)%nat.
Proof.
  pose proof (Nat.div_mod_eq n 2) as Hd.
  pose proof (Nat.mod_upper_bound n 2 ltac:(lia)). lia.
Qed.

Lemma parent_lt (i : nat) : (0 < i)%nat -> (parent i < i)%nat.
Proof. intros H. destruct (parent_spec i H); lia. Qed.

Lemma parent_left (p : nat) : parent (2 * p + 1) = p.
Proof.
  pose proof (parent_spec (2 * p + 1) ltac:(lia)). lia.
Qed.

Lemma parent_right (p : nat) : parent (2 * p + 1 + 1) = p.
Proof.
  pose proof (parent_spec (2 * p + 1 + 1) ltac:(lia)). lia.
Qed.

End Parent.

Section Order.

Context {E : Type} (lt : E -> E -> option bool) (le : E -> E -> Prop).
Hypothesis le_refl : forall a, le a a.
Hypothesis le_trans : forall a b c, le a b -> le b c -> le a c.
Hypothesis lt_true : forall a b, lt a b = Some true -> le a b.
Hypothesis lt_false : forall a b, lt a b = Some false -> le b a.
Implicit Types (h : list E).

(** The root of an ordered heap is a least element. *)
Lemma root_min h r :
  heap_ordered le h -> h !! 0%nat = Some r ->
  forall i x, h !! i = Some x -> le r x.
Proof.
  intros Hord Hr i. induction i as [i IH] using lt_wf_ind. intros x Hx.
  destruct (Nat.eq_dec i 0) as [->|Hi].
  - rewrite Hr in Hx. inversion Hx; subst. apply le_refl.
  - assert (Hp : (parent i < i)%nat) by (apply parent_lt; lia).
    destruct (lookup_lt_is_Some_2 h (parent i)) as [p Hpl].
    { apply lookup_lt_Some in Hx. lia. }
    apply (le_trans _ p).
    + now apply (IH (parent i)).
    + apply (Hord i ltac:(lia) p x); assumption.
Qed.

(** Moving the item at [pos] above its parent keeps the invariant, at the
    parent's position. *)
Lemma sift_inv_up h pos x p :
  sift_inv le true h pos -> (0 < pos)%nat ->
  h !! pos = Some x -> h !! parent pos = Some p -> le x p ->
  sift_inv le true (swap h pos (parent pos)) (parent pos).
Proof.
  intros [Hpairs Hgrand] Hpos Hx Hp Hxp.
  pose proof (parent_lt pos Hpos) as Hlt.
  pose proof (lookup_swap_l h pos (parent pos) x p Hx Hp) as Hnew_pos.
  pose proof (lookup_swap_r h pos (parent pos) x p Hx Hp) as Hnew_par.
  split.
  - intros i Hi Hne _ a b Ha Hb.
    pose proof (parent_lt i Hi) as Hilt.
    destruct (Nat.eq_dec i pos) as [Hipos|Hipos].
    + rewrite Hipos, Hnew_par in Ha. rewrite Hipos, Hnew_pos in Hb.
      assert (a = x) by congruence. assert (b = p) by congruence.
      subst a b. exact Hxp.
    + rewrite lookup_swap_ne in Hb by assumption.
      destruct (Nat.eq_dec (parent i) pos) as [Hpi|Hpi].
      * rewrite Hpi, Hnew_pos in Ha. assert (a = p) by congruence. subst a.
        apply (Hgrand i Hpos Hi Hpi p b); assumption.
      * destruct (Nat.eq_dec (parent i) (parent pos)) as [Hpp|Hpp].
        -- rewrite Hpp, Hnew_par in Ha. assert (a = x) by congruence. subst a.
           apply (le_trans _ p); [exact Hxp |].
           apply (Hpairs i Hi Hipos ltac:(discriminate) p b);
             [now rewrite Hpp | assumption].
        -- rewrite lookup_swap_ne in Ha by assumption.
           apply (Hpairs i Hi Hipos ltac:(discriminate) a b); assumption.
  - intros c Hppos Hc Hpc a b Ha Hb.
    pose proof (parent_lt (parent pos) Hppos) as Hpplt.
    pose proof (parent_lt c Hc) as Hclt.
    rewrite lookup_swap_ne in Ha by lia.
    assert (Hap : le a p).
    { apply (Hpairs (parent pos) Hppos ltac:(lia) ltac:(discriminate) a p);
        assumption. }
    destruct (Nat.eq_dec c pos) as [Hcpos|Hcpos].
    + rewrite Hcpos, Hnew_pos in Hb. assert (b = p) by congruence. subst b.
      exact Hap.
    + rewrite lookup_swap_ne in Hb by lia.
      apply (le_trans _ p); [exact Hap |].
      apply (Hpairs c Hc Hcpos ltac:(discriminate) p b);
        [now rewrite Hpc | assumption].
Qed.

(** [siftdown] from an almost ordered heap ends in an ordered one. *)
Lemma siftdown_ordered fuel pos h h' :
  (pos < fuel)%nat -> (pos < length h)%nat ->
  sift_inv le true h pos ->
  siftdown lt fuel 0 pos h = (Val tt, h') ->
  heap_ordered le h'.
Proof.
  revert pos h. induction fuel as [|fuel IH]; intros pos h Hfuel Hlen Hinv;
    [lia |].
  cbn [siftdown]. destruct (Nat.ltb_spec 0 pos) as [Hpos|Hpos].
  - pose proof (parent_lt pos Hpos) as Hlt.
    destruct (lookup_lt_is_Some_2 h pos Hlen) as [x Hx].
    destruct (lookup_lt_is_Some_2 h (parent pos) ltac:(lia)) as [p Hp].
    unfold mbind, M_bind, read, expect, raise, write, mret, M_ret.
    fold (parent pos). rewrite Hx, Hp.
    destruct (lt x p) as [[|]|] eqn:Hcmp; try discriminate.
    + intros Hrun. apply (IH (parent pos) (swap h pos (parent pos))).
      * lia.
      * rewrite length_swap. lia.
      * apply (sift_inv_up h pos x p); auto.
      * exact Hrun.
    + intros Hrun. inversion Hrun; subst h'.
      destruct Hinv as [Hpairs _]. intros i Hi.
      destruct (Nat.eq_dec i pos) as [Hipos|Hne].
      * intros a b Ha Hb. rewrite Hipos, Hp in Ha. rewrite Hipos, Hx in Hb.
        assert (a = p) by congruence. assert (b = x) by congruence.
        subst a b. now apply lt_false.
      * apply Hpairs; [assumption | assumption | discriminate].
  - intros Hrun. inversion Hrun; subst h'.
    destruct Hinv as [Hpairs _]. intros i Hi.
    apply Hpairs; [assumption | lia | discriminate].
Qed.

(** Moving the smaller child [c] of [pos] up keeps the invariant, at the
    child's position. *)
Lemma sift_inv_down h pos c v m :
  sift_inv le false h pos -> (0 < c)%nat -> parent c = pos ->
  h !! c = Some m -> h !! pos = Some v ->
  (forall s, (0 < s)%nat -> parent s = pos -> s <> c -> le_at le h c s) ->
  sift_inv le false (swap h c pos) c.
Proof.
  intros [Hpairs Hgrand] Hc Hpc Hm Hv Hsib.
  pose proof (parent_lt c Hc) as Hlt.
  pose proof (lookup_swap_l h c pos m v Hm Hv) as Hnew_c.
  pose proof (lookup_swap_r h c pos m v Hm Hv) as Hnew_pos.
  split.
  - intros i Hi Hic Hpic a b Ha Hb.
    specialize (Hpic eq_refl).
    pose proof (parent_lt i Hi) as Hilt.
    destruct (Nat.eq_dec i pos) as [Hipos|Hipos].
    + rewrite Hipos in *. rewrite Hnew_pos in Hb.
      assert (b = m) by congruence. subst b.
      rewrite lookup_swap_ne in Ha by lia.
      apply (Hgrand c Hi Hc Hpc a m); assumption.
    + rewrite lookup_swap_ne in Hb by assumption.
      destruct (Nat.eq_dec (parent i) pos) as [Hpi|Hpi].
      * rewrite Hpi, Hnew_pos in Ha. assert (a = m) by congruence. subst a.
        apply (Hsib i Hi Hpi Hic m b); assumption.
      * rewrite lookup_swap_ne in Ha by assumption.
        apply (Hpairs i Hi Hipos (fun _ => Hpi) a b); assumption.
  - intros g _ Hg Hpg a b Ha Hb.
    pose proof (parent_lt g Hg) as Hglt.
    rewrite Hpc, Hnew_pos in Ha. assert (a = m) by congruence. subst a.
    rewrite lookup_swap_ne in Hb by lia.
    apply (Hpairs g Hg ltac:(lia) ltac:(intros _; lia) m b);
      [now rewrite Hpg | assumption].
Qed.

(** The first loop of [siftup] ends at a leaf, with the invariant. *)
Lemma siftup_loop_inv fuel endpos pos h leaf h1 :
  endpos = length h -> (pos < endpos)%nat ->
  sift_inv le false h pos ->
  siftup_loop lt fuel endpos pos h = (Val leaf, h1) ->
  sift_inv le false h1 leaf
  /\ length h1 = endpos /\ (endpos <= 2 * leaf + 1)%nat /\ (leaf < endpos)%nat.
Proof.
  revert pos h. induction fuel as [|fuel IH]; intros pos h Hend Hpos Hinv;
    [discriminate |].
  cbn [siftup_loop]. pose proof (half_spec endpos) as Hhalf.
  destruct (Nat.ltb_spec pos (endpos / 2)) as [Hin|Hout].
  - unfold mbind, M_bind, read, expect, raise, write, mret, M_ret.
    destruct (lookup_lt_is_Some_2 h pos ltac:(lia)) as [v Hv].
    destruct (lookup_lt_is_Some_2 h (2 * pos + 1) ltac:(lia)) as [a Ha].
    assert (Hstep : forall c m,
      (c = 2 * pos + 1 \/ c = 2 * pos + 1 + 1)%nat -> h !! c = Some m ->
      (forall s, (0 < s)%nat -> parent s = pos -> s <> c -> le_at le h c s) ->
      siftup_loop lt fuel endpos c (swap h c pos) = (Val leaf, h1) ->
      sift_inv le false h1 leaf
      /\ length h1 = endpos /\ (endpos <= 2 * leaf + 1)%nat
      /\ (leaf < endpos)%nat).
    { intros c m Hc Hm Hsib Hrun.
      assert (Hpc : parent c = pos)
        by (destruct Hc as [->| ->]; [apply parent_left | apply parent_right]).
      apply lookup_lt_Some in Hm as Hclen.
      apply (IH c (swap h c pos)).
      - now rewrite length_swap.
      - lia.
      - apply (sift_inv_down h pos c v m); auto. lia.
      - exact Hrun. }
    destruct (Nat.ltb_spec (2 * pos + 1 + 1) endpos) as [Hright|Hright].
    + destruct (lookup_lt_is_Some_2 h (2 * pos + 1 + 1) ltac:(lia)) as [b Hb].
      rewrite Ha, Hb.
      destruct (lt a b) as [[|]|] eqn:Hcmp; try discriminate.
      * apply (Hstep _ a); [now left | assumption |].
        intros s Hs Hps Hne x y Hx Hy.
        destruct (parent_spec s Hs) as [Hs'|Hs']; rewrite Hps in Hs'; [lia |].
        replace s with (2 * pos + 1 + 1)%nat in Hy by lia.
        assert (x = a) by congruence. assert (y = b) by congruence.
        subst x y. now apply lt_true.
      * apply (Hstep _ b); [now right | assumption |].
        intros s Hs Hps Hne x y Hx Hy.
        destruct (parent_spec s Hs) as [Hs'|Hs']; rewrite Hps in Hs'; [| lia].
        replace s with (2 * pos + 1)%nat in Hy by lia.
        assert (x = b) by congruence. assert (y = a) by congruence.
        subst x y. now apply lt_false.
    + apply (Hstep _ a); [now left | assumption |].
      intros s Hs Hps Hne x y Hx Hy.
      destruct (parent_spec s Hs) as [Hs'|Hs']; rewrite Hps in Hs'; [lia |].
      apply lookup_lt_Some in Hy. lia.
  - intros Hrun. inversion Hrun; subst leaf h1.
    repeat split; try assumption; try lia; apply Hinv.
Qed.

(** At a leaf the invariant of the first loop is that of [siftdown]. *)
Lemma sift_inv_leaf h leaf :
  sift_inv le false h leaf -> (length h <= 2 * leaf + 1)%nat ->
  sift_inv le true h leaf.
Proof.
  intros [Hpairs Hgrand] Hleaf. split; [| exact Hgrand].
  intros i Hi Hne _ a b Ha Hb.
  destruct (Nat.eq_dec (parent i) leaf) as [Hpi|Hpi].
  - apply lookup_lt_Some in Hb.
    destruct (parent_spec i Hi); lia.
  - apply (Hpairs i Hi Hne (fun _ => Hpi) a b); assumption.
Qed.

(** [heappush] keeps the heap ordered. *)
Lemma heappush_ordered item h h' :
  heap_ordered le h -> heappush lt item h = (Val tt, h') ->
  heap_ordered le h'.
Proof.
  intros Hord. unfold heappush, mbind, M_bind, read, write.
  apply siftdown_ordered; [lia | rewrite length_app; simpl; lia |].
  split.
  - intros i Hi Hne _ a b Ha Hb.
    pose proof (parent_lt i Hi) as Hlt.
    apply lookup_lt_Some in Hb as Hlen. rewrite length_app in Hlen.
    simpl in Hlen.
    rewrite lookup_app_l in Ha by lia. rewrite lookup_app_l in Hb by lia.
    apply (Hord i Hi a b); assumption.
  - intros c Hpos Hc Hpc a b Ha Hb.
    apply lookup_lt_Some in Hb. rewrite length_app in Hb. simpl in Hb.
    destruct (parent_spec c Hc); lia.
Qed.

(** [heappop] returns the root and keeps the heap ordered. *)
Lemma heappop_ordered h x h' :
  heap_ordered le h -> heappop lt h = (Val x, h') ->
  h !! 0 = Some x /\ heap_ordered le h'.
Proof.
  intros Hord.
  unfold heappop, mbind, M_bind, read, write, expect, raise, mret, M_ret.
  destruct (last h) as [lastelt|] eqn:Hlast; [| discriminate].
  destruct (last_Some h lastelt) as [[front Hh] _]; [assumption |].
  subst h.
  assert (Htake : take (length (front ++ [lastelt]) - 1) (front ++ [lastelt])
                  = front).
  { rewrite length_app. cbn [length]. rewrite Nat.add_sub.
    apply take_app_length. }
  rewrite Htake. clear Htake.
  destruct front as [|returnitem rest].
  - intros H. inversion H; subst. split; [reflexivity |].
    intros i Hi a b Ha Hb. discriminate.
  - cbn [insert list_insert].
    unfold siftup, mbind, M_bind, read, raise. cbn [length Nat.leb].
    set (n := S (length rest)).
    assert (Hinv0 : sift_inv le false (lastelt :: rest) 0).
    { split; [| intros; lia].
      intros i Hi _ Hpi a b Ha Hb. specialize (Hpi eq_refl).
      destruct i as [|i]; [lia |].
      destruct (parent (S i)) as [|k] eqn:Hk; [congruence |].
      simpl in Ha, Hb.
      apply (Hord (S i) Hi a b).
      - rewrite Hk. simpl. rewrite lookup_app_l; [assumption |].
        now apply lookup_lt_Some in Ha.
      - simpl. rewrite lookup_app_l; [assumption |].
        now apply lookup_lt_Some in Hb. }
    destruct (siftup_loop lt (S n) n 0 (lastelt :: rest)) as [[leaf|e|w] h1]
      eqn:Hloop; try discriminate.
    destruct (siftup_loop_inv (S n) n 0 (lastelt :: rest) leaf h1)
      as (Hinv & Hlen & Hleaf & Hlt); [reflexivity | subst n; lia | assumption
                                      | assumption |].
    destruct (siftdown lt (S n) 0 leaf h1) as [[[]|e|w] h2] eqn:Hdown;
      try discriminate.
    intros H. inversion H; subst. split; [reflexivity |].
    apply (siftdown_ordered (S n) leaf h1 h'); [lia | lia | | assumption].
    apply sift_inv_leaf; [assumption | lia].
Qed.

End Order.

(** Where no comparison raises, the heap operations return. *)
Section Total.

Context {E : Type} (lt : E -> E -> option bool).
Implicit Types (h : list E).

Lemma comparable_perm h h' : h' ≡ₚ h -> comparable lt h -> comparable lt h'.
Proof.
  intros Hp Hc a b Ha Hb. rewrite Hp in Ha, Hb. now apply Hc.
Qed.

Lemma siftdown_total fuel startpos pos h :
  pos < fuel -> pos < length h -> comparable lt h ->
  exists h', siftdown lt fuel startpos pos h = (Val tt, h').
Proof.
  revert pos h. induction fuel as [|fuel IH]; intros pos h Hfuel Hlen Hc;
    [lia |].
  cbn [siftdown]. destruct (Nat.ltb_spec startpos pos) as [Hpos|Hpos];
    [| eexists; reflexivity].
  pose proof (parent_lt pos ltac:(lia)) as Hlt.
  destruct (lookup_lt_is_Some_2 h pos Hlen) as [x Hx].
  destruct (lookup_lt_is_Some_2 h (parent pos) ltac:(lia)) as [p Hp].
  unfold mbind, M_bind, read, expect, raise, write, mret, M_ret.
  fold (parent pos). rewrite Hx, Hp.
  destruct (lt x p) as [[|]|] eqn:Hcmp.
  - apply IH; [lia | rewrite length_swap; lia |].
    apply (comparable_perm h); [apply swap_perm | assumption].
  - eexists; reflexivity.
  - exfalso. apply (Hc x p); [| | assumption];
      eapply list_elem_of_lookup_2; eassumption.
Qed.

Lemma siftup_loop_total fuel endpos pos h :
  endpos = length h -> endpos - pos < fuel -> pos < endpos ->
  comparable lt h ->
  exists leaf h1,
    siftup_loop lt fuel endpos pos h = (Val leaf, h1)
    /\ leaf < endpos /\ length h1 = endpos.
Proof.
  revert pos h. induction fuel as [|fuel IH]; intros pos h Hend Hfuel Hpos Hc;
    [lia |].
  cbn [siftup_loop]. pose proof (half_spec endpos) as Hhalf.
  destruct (Nat.ltb_spec pos (endpos / 2)) as [Hin|Hout];
    [| exists pos, h; repeat split; [assumption | now symmetry]].
  unfold mbind, M_bind, read, expect, raise, write, mret, M_ret.
  destruct (lookup_lt_is_Some_2 h (2 * pos + 1) ltac:(lia)) as [a Ha].
  assert (Hstep : forall c, c = 2 * pos + 1 \/ c = 2 * pos + 1 + 1 ->
    c < endpos ->
    exists leaf h1,
      siftup_loop lt fuel endpos c (swap h c pos) = (Val leaf, h1)
      /\ leaf < endpos /\ length h1 = endpos).
  { intros c Hcc Hclt. apply IH.
    - now rewrite length_swap.
    - lia.
    - assumption.
    - apply (comparable_perm h); [apply swap_perm | assumption]. }
  destruct (Nat.ltb_spec (2 * pos + 1 + 1) endpos) as [Hright|Hright].
  - destruct (lookup_lt_is_Some_2 h (2 * pos + 1 + 1) ltac:(lia)) as [b Hb].
    rewrite Ha, Hb.
    destruct (lt a b) as [[|]|] eqn:Hcmp.
    + apply Hstep; [now left | lia].
    + apply Hstep; [now right | lia].
    + exfalso. apply (Hc a b); [| | assumption];
        eapply list_elem_of_lookup_2; eassumption.
  - apply Hstep; [now left | lia].
Qed.

Lemma heappush_total item h :
  comparable lt (h ++ [item]) ->
  exists h', heappush lt item h = (Val tt, h').
Proof.
  intros Hc. unfold heappush, mbind, M_bind, read, write.
  apply siftdown_total; [lia | rewrite length_app; simpl; lia | assumption].
Qed.

Lemma heappop_total h :
  h <> [] -> comparable lt h -> exists x h', heappop lt h = (Val x, h').
Proof.
  intros Hne Hc.
  unfold heappop, mbind, M_bind, read, write, expect, raise, mret, M_ret.
  destruct (last h) as [lastelt|] eqn:Hlast;
    [| apply last_None in Hlast; contradiction].
  destruct (last_Some h lastelt) as [[front Hh] _]; [assumption |].
  subst h.
  assert (Htake : take (length (front ++ [lastelt]) - 1) (front ++ [lastelt])
                  = front).
  { rewrite length_app. cbn [length]. rewrite Nat.add_sub.
    apply take_app_length. }
  rewrite Htake. clear Htake.
  destruct front as [|returnitem rest]; [eexists _, _; reflexivity |].
  cbn [insert list_insert].
  unfold siftup, mbind, M_bind, read, raise. cbn [length Nat.leb].
  set (n := S (length rest)).
  assert (Hc' : comparable lt (lastelt :: rest)).
  { assert (Hsub : forall a, a ∈ lastelt :: rest ->
                              a ∈ (returnitem :: rest) ++ [lastelt]).
    { intros a Ha. apply elem_of_app.
      apply elem_of_cons in Ha as [->|Ha].
      - right. now apply list_elem_of_singleton.
      - left. now apply list_elem_of_further. }
    intros a b Ha Hb. apply Hc; now apply Hsub. }
  destruct (siftup_loop_total (S n) n 0 (lastelt :: rest))
    as (leaf & h1 & Hloop & Hleaf & Hlen); [reflexivity | lia | subst n; lia
                                            | assumption |].
  rewrite Hloop.
  destruct (siftdown_total (S n) 0 leaf h1) as [h2 Hdown]; [lia | lia | |].
  - pose proof (siftup_loop_perm lt (S n) n 0 (lastelt :: rest)) as Hp.
    rewrite Hloop in Hp. simpl in Hp.
    apply (comparable_perm (lastelt :: rest)); assumption.
  - rewrite Hdown. eexists _, _; reflexivity.
Qed.

End Total.

(** The fuel given to the sift loops is enough, whatever the comparisons
    do: the model never stops for want of fuel. *)
Section Fuel.

Context {E : Type} (lt : E -> E -> option bool).
Implicit Types (h : list E).

Lemma siftdown_fuel fuel startpos pos h :
  pos < fuel -> not_stuck (fst (siftdown lt fuel startpos pos h)).
Proof.
  revert pos h. induction fuel as [|fuel IH]; intros pos h Hfuel; [lia |].
  cbn [siftdown]. destruct (Nat.ltb_spec startpos pos) as [Hpos|Hpos];
    [| exact I].
  pose proof (parent_lt pos ltac:(lia)) as Hlt.
  unfold mbind, M_bind, read, expect, raise, write, mret, M_ret.
  fold (parent pos).
  destruct (h !! pos) as [x|]; [| exact I].
  destruct (h !! parent pos) as [p|]; [| exact I].
  destruct (lt x p) as [[|]|]; try exact I.
  apply IH. lia.
Qed.

Lemma siftup_loop_fuel fuel endpos pos h :
  endpos - pos < fuel -> pos < endpos ->
  match fst (siftup_loop lt fuel endpos pos h) with
  | Val leaf => leaf < endpos
  | Exn _ => True
  | Stuck _ => False
  end.
Proof.
  revert pos h. induction fuel as [|fuel IH]; intros pos h Hfuel Hpos; [lia |].
  cbn [siftup_loop]. pose proof (half_spec endpos) as Hhalf.
  destruct (Nat.ltb_spec pos (endpos / 2)) as [Hin|Hout]; [| exact Hpos].
  unfold mbind, M_bind, read, expect, raise, write, mret, M_ret.
  destruct (Nat.ltb_spec (2 * pos + 1 + 1) endpos) as [Hright|Hright].
  - destruct (h !! (2 * pos + 1)) as [a|]; [| exact I].
    destruct (h !! (2 * pos + 1 + 1)) as [b|]; [| exact I].
    destruct (lt a b) as [[|]|]; [apply IH; lia | apply IH; lia | exact I].
  - apply IH; lia.
Qed.

Lemma siftup_fuel h : not_stuck (fst (siftup lt 0 h)).
Proof.
  unfold siftup, mbind, M_bind, read, raise.
  destruct (Nat.leb_spec (length h) 0) as [Hle|Hgt]; [exact I |].
  pose proof (siftup_loop_fuel (S (length h)) (length h) 0 h
                ltac:(lia) Hgt) as Hloop.
  destruct (siftup_loop lt (S (length h)) (length h) 0 h)
    as [[leaf|e|w] h1]; simpl in Hloop; [| exact I | contradiction].
  apply siftdown_fuel. lia.
Qed.

Lemma heappush_fuel item h : not_stuck (fst (heappush lt item h)).
Proof.
  unfold heappush, mbind, M_bind, read, write. apply siftdown_fuel. lia.
Qed.

(** [heappop] on a heap that is not empty: it never stops for want of
    fuel, and it leaves one element less even when a comparison raises. *)
Lemma heappop_fuel h :
  h <> [] ->
  not_stuck (fst (heappop lt h))
  /\ length (snd (heappop lt h)) = length h - 1.
Proof.
  intros Hne.
  unfold heappop, mbind, M_bind, read, write, expect, raise, mret, M_ret.
  destruct (last h) as [lastelt|] eqn:Hlast;
    [| apply last_None in Hlast; contradiction].
  destruct (last_Some h lastelt) as [[front Hh] _]; [assumption |].
  subst h.
  assert (Htake : take (length (front ++ [lastelt]) - 1) (front ++ [lastelt])
                  = front).
  { rewrite length_app. cbn [length]. rewrite Nat.add_sub.
    apply take_app_length. }
  rewrite Htake. clear Htake.
  rewrite length_app. cbn [length]. rewrite Nat.add_sub.
  destruct front as [|returnitem rest]; [split; [exact I | reflexivity] |].
  cbn [insert list_insert].
  pose proof (siftup_fuel (lastelt :: rest)) as Hfuel.
  pose proof (siftup_perm lt 0 (lastelt :: rest)) as Hperm.
  apply Permutation_length in Hperm.
  destruct (siftup lt 0 (lastelt :: rest)) as [[[]|e|w] h1];
    simpl in Hfuel, Hperm; split; try exact I; assumption.
Qed.

End Fuel.

End HeapFacts.


(** ** The order of the job queue *)

Module QueueOrderFacts.
Import WorkloadAwareScheduler QueueSpec HeapSpec.

Lemma ascii_compare_trans (a b c : ascii) :
  Ascii.compare a b = Lt -> Ascii.compare b c = Lt -> Ascii.compare a c = Lt.
Proof.
  unfold Ascii.compare. rewrite !N.compare_lt_iff. apply N.lt_trans.
Qed.

Lemma string_compare_trans (a b c : string) :
  String.compare a b = Lt -> String.compare b c = Lt ->
  String.compare a c = Lt.
Proof.
  revert b c. induction a as [|x a IH]; intros [|y b] [|z c]; simpl;
    try discriminate; try reflexivity.
  destruct (Ascii.compare x y) eqn:Hxy; try discriminate;
    destruct (Ascii.compare y z) eqn:Hyz; try discriminate.
  - apply Ascii.compare_eq_iff in Hxy, Hyz. subst.
    rewrite (proj2 (N.compare_eq_iff _ _) eq_refl
             : Ascii.compare z z = Eq). apply IH.
  - apply Ascii.compare_eq_iff in Hxy. subst. rewrite Hyz. reflexivity.
  - apply Ascii.compare_eq_iff in Hyz. subst. rewrite Hxy. reflexivity.
  - rewrite (ascii_compare_trans x y z Hxy Hyz). reflexivity.
Qed.

Lemma string_ltb_trans (a b c : string) :
  String.ltb a b = true -> String.ltb b c = true -> String.ltb a c = true.
Proof.
  unfold String.ltb. intros Hab Hbc.
  destruct (String.compare a b) eqn:Eab; try discriminate.
  destruct (String.compare b c) eqn:Ebc; try discriminate.
  now rewrite (string_compare_trans a b c Eab Ebc).
Qed.

Lemma string_ltb_total (a b : string) :
  String.ltb a b = false -> a <> b -> String.ltb b a = true.
Proof.
  unfold String.ltb. intros Hab Hne. rewrite String.compare_antisym.
  destruct (String.compare a b) eqn:Eab; try discriminate.
  - apply String.compare_eq_iff in Eab. contradiction.
  - reflexivity.
Qed.

Lemma key_le_refl (e : Entry) : key_le e e.
Proof. right. split; [reflexivity | now left]. Qed.

Lemma key_le_trans (a b c : Entry) : key_le a b -> key_le b c -> key_le a c.
Proof.
  unfold key_le.
  intros [Hab|[Hab Iab]] [Hbc|[Hbc Ibc]]; try (left; lia).
  right. split; [lia |].
  destruct Iab as [Iab|Iab], Ibc as [Ibc|Ibc].
  - left. congruence.
  - right. now rewrite Iab.
  - right. now rewrite <- Ibc.
  - right. now apply (string_ltb_trans _ (entry_id b)).
Qed.

Lemma entry_lt_true (a b : Entry) : entry_lt a b = Some true -> key_le a b.
Proof.
  destruct a as [[p1 id1] j1], b as [[p2 id2] j2].
  unfold entry_lt, key_le, entry_priority, entry_id. simpl.
  destruct (Z.eqb_spec p1 p2) as [Hp|Hp]; simpl.
  - destruct (String.eqb_spec id1 id2) as [Hi|Hi]; simpl.
    + destruct (job_eqb j1 j2); discriminate.
    + intros H. right. split; [assumption | right; congruence].
  - intros H. left. apply Z.ltb_lt. congruence.
Qed.

Lemma entry_lt_false (a b : Entry) : entry_lt a b = Some false -> key_le b a.
Proof.
  destruct a as [[p1 id1] j1], b as [[p2 id2] j2].
  unfold entry_lt, key_le, entry_priority, entry_id. simpl.
  destruct (Z.eqb_spec p1 p2) as [Hp|Hp]; simpl.
  - destruct (String.eqb_spec id1 id2) as [Hi|Hi]; simpl.
    + intros _. right. split; [congruence | left; congruence].
    + intros H. right. split; [congruence |].
      right. apply string_ltb_total; congruence.
  - intros H. left. assert ((p1 <? p2) = false) as Hlt by congruence.
    apply Z.ltb_ge in Hlt. lia.
Qed.

Lemma opt_eqb_refl {A} (eqb : A -> A -> bool) (o : option A) :
  (forall a, eqb a a = true) -> opt_eqb eqb o o = true.
Proof. intros H. destruct o; simpl; auto. Qed.

Lemma job_eqb_refl (j : Job) : job_eqb j j = true.
Proof.
  unfold job_eqb.
  rewrite !(opt_eqb_refl String.eqb) by apply String.eqb_refl.
  rewrite !(opt_eqb_refl Py.eqb) by apply Qeq_bool_refl.
  reflexivity.
Qed.

(** Entries with pairwise different job ids never fail to compare. *)
Lemma distinct_ids_comparable (h : list Entry) :
  NoDup (entry_id <$> h) -> comparable entry_lt h.
Proof.
  intros Hnd a b Ha Hb Hcmp.
  assert (Hinj : forall l : list Entry,
            NoDup (entry_id <$> l) -> forall x y, x ∈ l -> y ∈ l ->
            entry_id x = entry_id y -> x = y).
  { induction l as [|e l IH]; intros Hl x y Hx Hy Hxy.
    - inversion Hx.
    - rewrite fmap_cons in Hl. apply NoDup_cons in Hl as [Hnotin Hl].
      apply elem_of_cons in Hx as [->|Hx], Hy as [->|Hy]; auto.
      + exfalso. apply Hnotin. rewrite Hxy.
        now apply list_elem_of_fmap_2.
      + exfalso. apply Hnotin. rewrite <- Hxy.
        now apply list_elem_of_fmap_2. }
  destruct a as [[p1 id1] j1], b as [[p2 id2] j2].
  unfold entry_lt in Hcmp.
  destruct (Z.eqb_spec p1 p2) as [Hp|Hp]; simpl in Hcmp; [| discriminate].
  destruct (String.eqb_spec id1 id2) as [Hi|Hi]; simpl in Hcmp;
    [| discriminate].
  assert (Heq : (p1, id1, j1) = (p2, id2, j2))
    by (apply (Hinj h Hnd); auto).
  inversion Heq; subst. rewrite job_eqb_refl in Hcmp. discriminate.
Qed.

End QueueOrderFacts.

(** ** Scheduling and draining *)

Module SchedulerFacts.
Import WorkloadAwareScheduler QueueSpec HeapSpec UsageSpec.
Import HeapFacts QueueOrderFacts.

Lemma usage_has_keys (env : Env.t) :
  has_usage_keys (_get_current_resource_usage env).
Proof.
  unfold has_usage_keys, _get_current_resource_usage.
  repeat split; eexists; reflexivity.
Qed.

Lemma update_usage_run {S} (job : Job) (m : gmap string Q) (s : S) :
  has_usage_keys m ->
  exists m', _update_resource_usage job m s = (Val m', s)
             /\ has_usage_keys m'.
Proof.
  intros ([cpu Hc] & [mem Hm] & [gpu Hg]).
  unfold _update_resource_usage, mbind, M_bind, expect, mret, M_ret.
  rewrite Hc, Hm, Hg. eexists. split; [reflexivity |].
  repeat split; eexists; reflexivity.
Qed.

Lemma empty_false (q : queue) : empty q = false -> q <> [].
Proof. intros H ->. discriminate. Qed.

Lemma empty_true (q : queue) : empty q = true -> q = [].
Proof. destruct q; [reflexivity | discriminate]. Qed.

Lemma update_usage_bump {S} (job : Job) (m : gmap string Q) (s : S) :
  has_usage_keys m ->
  _update_resource_usage job m s = (Val (bump job m), s).
Proof.
  intros ([cpu Hc] & [mem Hm] & [gpu Hg]).
  unfold _update_resource_usage, bump, reading, weight, mbind, M_bind,
    expect, mret, M_ret.
  rewrite Hc, Hm, Hg. reflexivity.
Qed.

Lemma bump_has_keys (job : Job) (m : gmap string Q) :
  has_usage_keys (bump job m).
Proof.
  unfold has_usage_keys, bump. repeat split; eexists; reflexivity.
Qed.

Lemma usage_after_snoc (m : gmap string Q) (done : list Entry) (x : Entry) :
  usage_after m (done ++ [x]) = bump (entry_job x) (usage_after m done).
Proof. unfold usage_after. now rewrite fold_left_app. Qed.






(** One passage through the loop takes a least entry from the queue and
    reports it. *)
Lemma drain_body_run (q : queue) (l : locals) :
  q <> [] -> heap_ordered key_le q -> comparable entry_lt q ->
  has_usage_keys (current_metrics l) ->
  exists x q1 m1,
    drain_body (q, l)
    = (Val tt, (q1, mkLocals (executed_jobs l ++ [report x]) m1))
    /\ q ≡ₚ x :: q1
    /\ heap_ordered key_le q1
    /\ (forall y, y ∈ q -> key_le x y)
    /\ has_usage_keys m1.
Proof.
  intros Hne Hord Hcmp Hkeys.
  destruct (heappop_total entry_lt q Hne Hcmp) as (x & q1 & Hpop).
  destruct (heappop_ordered entry_lt key_le key_le_trans
              entry_lt_true entry_lt_false q x q1 Hord Hpop) as [Hroot Hord1].
  pose proof (heappop_perm entry_lt q x q1 Hpop) as Hperm.
  destruct x as [[priority job_id] job].
  destruct (update_usage_run job (current_metrics l)
              (q1, mkLocals (executed_jobs l
                             ++ [report (priority, job_id, job)])
                            (current_metrics l)) Hkeys)
    as (m1 & Hupd & Hkeys1).
  exists (priority, job_id, job), q1, m1.
  split; [| split; [assumption | split; [assumption | split;
    [| assumption]]]].
  - unfold drain_body, try_except, mbind, M_bind, on_self, get_nowait.
    cbn [fst snd]. rewrite Hpop.
    unfold read_locals, write_locals. cbn [fst snd executed_jobs current_metrics].
    unfold report, entry_id, entry_job in Hupd. cbn [fst snd] in Hupd.
    rewrite Hupd. reflexivity.
  - intros y Hy. apply list_elem_of_lookup in Hy as [i Hi].
    apply (root_min key_le key_le_refl key_le_trans q _ Hord Hroot i y Hi).
Qed.

(** The loop takes the entries in ascending order of (priority, job id),
    every entry it leaves being at least as large, and stops on the empty
    queue or when admission is denied. *)
Lemma drain_run (fuel : nat) (config : Config.t) (q : queue) (l : locals) :
  (length q < fuel)%nat ->
  heap_ordered key_le q -> comparable entry_lt q ->
  has_usage_keys (current_metrics l) ->
  exists popped q' m',
    drain fuel config (q, l)
    = (Val tt, (q', mkLocals (executed_jobs l ++ (report <$> popped)) m'))
    /\ q ≡ₚ popped ++ q'
    /\ heap_ordered key_le q'
    /\ StronglySorted key_le popped
    /\ (forall x y, x ∈ popped -> y ∈ q' -> key_le x y)
    /\ (q' = [] \/ _can_execute_job config m' = false).
Proof.
  revert q l. induction fuel as [|fuel IH]; intros q l Hfuel Hord Hcmp Hkeys;
    [lia |].
  cbn [drain]. unfold mbind, M_bind, read. cbn [fst snd].
  destruct (negb (empty q)
            && _can_execute_job config (current_metrics l)) eqn:Hguard.
  - apply andb_true_iff in Hguard as [Hne _].
    apply negb_true_iff, empty_false in Hne.
    destruct (drain_body_run q l Hne Hord Hcmp Hkeys)
      as (x & q1 & m1 & Hbody & Hperm & Hord1 & Hmin & Hkeys1).
    rewrite Hbody.
    assert (Hlen : length q = S (length q1)) by now rewrite Hperm.
    assert (Hsub : forall y, y ∈ q1 -> y ∈ q).
    { intros y Hy. rewrite Hperm. now apply list_elem_of_further. }
    assert (Hcmp1 : comparable entry_lt q1).
    { intros a b Ha Hb. apply Hcmp; now apply Hsub. }
    destruct (IH q1 (mkLocals (executed_jobs l ++ [report x]) m1)
                ltac:(lia) Hord1 Hcmp1 Hkeys1)
      as (popped & q' & m' & Hrun & Hperm' & Hord' & Hsorted & Hcross & Hstop).
    cbn [executed_jobs current_metrics] in Hrun.
    exists (x :: popped), q', m'.
    split; [| split; [| split; [assumption | split; [| split;
      [| assumption]]]]].
    + rewrite Hrun, fmap_cons, <- app_assoc. reflexivity.
    + rewrite Hperm, Hperm'. reflexivity.
    + apply SSorted_cons; [assumption |].
      apply Forall_forall. intros y Hy. apply Hmin, Hsub.
      rewrite Hperm'. apply elem_of_app. now left.
    + intros a b Ha Hb. apply elem_of_cons in Ha as [->|Ha].
      * apply Hmin, Hsub. rewrite Hperm'. apply elem_of_app. now right.
      * now apply Hcross.
  - exists [], q, (current_metrics l).
    split; [| split; [reflexivity | split; [assumption | split;
      [constructor | split]]]].
    + destruct l. cbn [executed_jobs current_metrics fmap list_fmap].
      now rewrite app_nil_r.
    + intros a b Ha. inversion Ha.
    + apply andb_false_iff in Hguard as [Hq|Hcan]; [left | now right].
      apply negb_false_iff, empty_true in Hq. exact Hq.
Qed.






(** [schedule_job] returns on every queue and every job: the sift loops
    and the drain loop have the fuel they need, and what is raised in them
    is caught. *)
Lemma drain_body_total (q : queue) (l : locals) :
  q <> [] ->
  exists q1 l1,
    drain_body (q, l) = (Val tt, (q1, l1))
    /\ length q1 = (length q - 1)%nat.
Proof.
  intros Hne.
  destruct (heappop_fuel entry_lt q Hne) as [Hfuel Hlen].
  unfold drain_body, try_except, mbind, M_bind, on_self, get_nowait.
  cbn [fst snd].
  destruct (heapq.heappop entry_lt q) as [[[[priority job_id] job]|e|w] q1];
    simpl in Hfuel, Hlen; [| eexists _, _; split; [reflexivity | assumption]
                           | contradiction].
  unfold read_locals, write_locals, _update_resource_usage, mbind, M_bind,
    expect, raise, mret, M_ret.
  cbn [fst snd executed_jobs current_metrics].
  destruct (current_metrics l !! "cpu");
    [| eexists _, _; split; [reflexivity | assumption]].
  destruct (current_metrics l !! "memory");
    [| eexists _, _; split; [reflexivity | assumption]].
  destruct (current_metrics l !! "gpu");
    eexists _, _; (split; [reflexivity | assumption]).
Qed.

Lemma drain_total (fuel : nat) (config : Config.t) (q : queue) (l : locals) :
  (length q < fuel)%nat ->
  exists st, drain fuel config (q, l) = (Val tt, st).
Proof.
  revert q l. induction fuel as [|fuel IH]; intros q l Hfuel; [lia |].
  cbn [drain]. unfold mbind, M_bind, read. cbn [fst snd].
  destruct (negb (empty q)
            && _can_execute_job config (current_metrics l)) eqn:Hguard;
    [| eexists; reflexivity].
  apply andb_true_iff in Hguard as [Hne _].
  apply negb_true_iff, empty_false in Hne.
  destruct (drain_body_total q l Hne) as (q1 & l1 & Hbody & Hlen).
  rewrite Hbody. apply IH.
  destruct q; [contradiction | simpl in *; lia].
Qed.

Lemma schedule_job_total
    (config : Config.t) (env : Env.t) (job : Job) (q : queue) :
  exists r q', schedule_job config env job q = (Val r, q').
Proof.
  pose proof (heappush_fuel entry_lt (new_entry env job) q) as Hfuel.
  unfold schedule_job, try_except, mbind, M_bind, put.
  fold (new_entry env job).
  destruct (heapq.heappush entry_lt (new_entry env job) q)
    as [[[]|e|w] q0]; simpl in Hfuel;
    [| eexists _, _; reflexivity | contradiction].
  unfold _try_execute_jobs, with_locals, mbind, M_bind, read.
  destruct (drain_total (S (length q0)) config q0
              (mkLocals [] (_get_current_resource_usage env)) ltac:(lia))
    as [st Hdrain].
  rewrite Hdrain. eexists _, _; reflexivity.
Qed.

Lemma key_le_tie (x y : Entry) :
  key_le x y -> entry_priority x = entry_priority y ->
  entry_id x <> entry_id y -> String.ltb (entry_id x) (entry_id y) = true.
Proof.
  intros [Hlt|[_ [Heq|Hlt]]] Hp Hid; [lia | contradiction | assumption].
Qed.

(** One call of [schedule_job] on an ordered queue, the ids in the queue
    and the new one pairwise different. *)
Lemma schedule_job_order
    (config : Config.t) (env : Env.t) (job : Job) (q : queue) :
  heap_ordered key_le q ->
  NoDup (entry_id <$> (q ++ [new_entry env job])) ->
  exists popped q',
    schedule_job config env job q
    = (Val (Scheduled (entry_id (new_entry env job))
              (entry_priority (new_entry env job)) (length q')
              (ExecutionResult.mk (length popped) (report <$> popped)
                                  (length q'))), q')
    /\ q ++ [new_entry env job] ≡ₚ popped ++ q'
    /\ StronglySorted key_le popped
    /\ (forall i j x y,
          popped !! i = Some x -> popped !! j = Some y -> (i < j)%nat ->
          entry_priority x = entry_priority y ->
          String.ltb (entry_id x) (entry_id y) = true)
    /\ (forall x y,
          x ∈ popped -> y ∈ q' ->
          key_le x y
          /\ (entry_priority x = entry_priority y ->
              String.ltb (entry_id x) (entry_id y) = true))
    /\ heap_ordered key_le q'
    /\ NoDup (entry_id <$> q').
Proof.
  intros Hord Hnd. set (e := new_entry env job) in *.
  pose proof (distinct_ids_comparable _ Hnd) as Hcmp.
  destruct (heappush_total entry_lt e q Hcmp) as [q0 Hpush].
  pose proof (heappush_ordered entry_lt key_le key_le_trans entry_lt_true
                entry_lt_false e q q0 Hord Hpush) as Hord0.
  pose proof (heappush_perm entry_lt e q) as Hperm0.
  rewrite Hpush in Hperm0. cbn [snd] in Hperm0.
  pose proof (comparable_perm entry_lt _ _ Hperm0 Hcmp) as Hcmp0.
  destruct (drain_run (S (length q0)) config q0
              (mkLocals [] (_get_current_resource_usage env))
              ltac:(lia) Hord0 Hcmp0 (usage_has_keys env))
    as (popped & q' & m' & Hdrain & Hperm & Hord' & Hsorted & Hcross & _).
  cbn [executed_jobs app] in Hdrain.
  assert (Hall : q ++ [e] ≡ₚ popped ++ q') by now rewrite <- Hperm0.
  assert (Hnd' : NoDup (entry_id <$> (popped ++ q'))) by now rewrite <- Hall.
  rewrite fmap_app in Hnd'.
  apply NoDup_app in Hnd' as (Hnd_popped & Hdisjoint & Hnd_rest).
  exists popped, q'.
  split; [| split; [exact Hall | split; [exact Hsorted | split; [| split;
    [| split; assumption]]]]].
  - unfold schedule_job, try_except, mbind, M_bind, put.
    fold (new_entry env job). fold e. rewrite Hpush.
    unfold _try_execute_jobs, with_locals, mbind, M_bind, read.
    rewrite Hdrain. cbn [fst snd executed_jobs mret M_ret qsize].
    rewrite length_fmap. reflexivity.
  - intros i j x y Hi Hj Hij Hprio.
    apply key_le_tie; [| assumption |].
    + rewrite <- (take_drop j popped) in Hsorted.
      apply (StronglySorted_app_1_elem_of _ _ _ x y Hsorted).
      * apply list_elem_of_lookup. exists i.
        rewrite lookup_take_lt by assumption. exact Hi.
      * apply list_elem_of_lookup. exists 0%nat.
        rewrite lookup_drop, Nat.add_0_r. exact Hj.
    + intros Hid.
      assert (i = j); [| lia].
      apply (NoDup_lookup (entry_id <$> popped) i j (entry_id x));
        [assumption | |]; rewrite list_lookup_fmap.
      * now rewrite Hi.
      * now rewrite Hj, Hid.
  - intros x y Hx Hy. split; [now apply Hcross |].
    intros Hprio. apply key_le_tie; [now apply Hcross | assumption |].
    intros Hid. apply (Hdisjoint (entry_id x)).
    + now apply list_elem_of_fmap_2.
    + rewrite Hid. now apply list_elem_of_fmap_2.
Qed.

Lemma queue_after_app config (l1 l2 : list (Env.t * Job)) (q : queue) :
  queue_after config (l1 ++ l2) q
  = queue_after config l2 (queue_after config l1 q).
Proof.
  revert q. induction l1 as [|[env job] l1 IH]; intros q; simpl;
    [reflexivity | apply IH].
Qed.

(** After any sequence of calls with pairwise different job ids the queue
    is an ordered heap of entries of those calls, with different ids. *)
Lemma queue_after_inv config (pre post : list (Env.t * Job)) :
  NoDup (call_ids (pre ++ post)) ->
  heap_ordered key_le (queue_after config pre [])
  /\ NoDup (entry_id <$> queue_after config pre [])
  /\ (forall x, x ∈ queue_after config pre [] ->
                entry_id x ∈ call_ids pre).
Proof.
  revert post. induction pre as [|[env job] pre IH] using rev_ind;
    intros post Hnd.
  - simpl. split; [| split].
    + intros i Hi x y Hx. discriminate.
    + constructor.
    + intros x Hx. inversion Hx.
  - rewrite <- app_assoc in Hnd.
    destruct (IH _ Hnd) as (Hord & Hids & Hsub).
    rewrite queue_after_app. simpl.
    set (q := queue_after config pre []) in *.
    assert (Hnew : NoDup (entry_id <$> (q ++ [new_entry env job]))).
    { rewrite fmap_app. apply NoDup_app. split; [assumption | split].
      - intros id Hin Hin'. apply list_elem_of_singleton in Hin'. subst id.
        apply list_elem_of_fmap in Hin as (x & Hx & Hxq).
        unfold call_ids in Hnd. rewrite fmap_app in Hnd.
        apply NoDup_app in Hnd as (_ & Hdisj & _).
        apply (Hdisj (entry_id x)); [now apply Hsub |].
        rewrite <- Hx. simpl. apply list_elem_of_here.
      - apply NoDup_singleton. }
    destruct (schedule_job_order config env job q Hord Hnew)
      as (popped & q' & Hrun & Hperm & _ & _ & _ & Hord' & Hids').
    rewrite Hrun. cbn [snd]. split; [assumption | split; [assumption |]].
    intros x Hx. unfold call_ids. rewrite fmap_app. apply elem_of_app.
    assert (Hx' : x ∈ q ++ [new_entry env job]).
    { rewrite Hperm. apply elem_of_app. now right. }
    apply elem_of_app in Hx' as [Hx'|Hx'].
    + left. now apply Hsub.
    + right. apply list_elem_of_singleton in Hx'. subst x.
      simpl. apply list_elem_of_here.
Qed.

(** C2, as the code has it. In every sequence of calls of [schedule_job]
    with pairwise different job ids, each call puts its entry in the queue
    and executes entries in ascending order of (priority, job id): among
    entries of equal priority the one whose id is the smaller string is
    taken first, whenever it was put in the queue, and every entry left in
    the queue comes after every entry executed. *)
Theorem ties_broken_by_job_id
    (config : Config.t) (calls : list (Env.t * Job)) (k : nat)
    (env : Env.t) (job : Job) :
  NoDup (call_ids calls) ->
  calls !! k = Some (env, job) ->
  let q := queue_after config (take k calls) [] in
  exists popped q',
    schedule_job config env job q
    = (Val (Scheduled (entry_id (new_entry env job))
              (entry_priority (new_entry env job)) (length q')
              (ExecutionResult.mk (length popped) (report <$> popped)
                                  (length q'))), q')
    /\ q ++ [new_entry env job] ≡ₚ popped ++ q'
    /\ StronglySorted key_le popped
    /\ (forall i j x y,
          popped !! i = Some x -> popped !! j = Some y -> (i < j)%nat ->
          entry_priority x = entry_priority y ->
          String.ltb (entry_id x) (entry_id y) = true)
    /\ (forall x y,
          x ∈ popped -> y ∈ q' ->
          key_le x y
          /\ (entry_priority x = entry_priority y ->
              String.ltb (entry_id x) (entry_id y) = true)).
Proof.
  intros Hnd Hk q.
  pose proof (take_drop_middle calls k (env, job) Hk) as Hsplit.
  rewrite <- Hsplit in Hnd.
  destruct (queue_after_inv config (take k calls) _ Hnd)
    as (Hord & Hids & Hsub).
  fold q in Hord, Hids, Hsub.
  assert (Hnew : NoDup (entry_id <$> (q ++ [new_entry env job]))).
  { rewrite fmap_app. apply NoDup_app. split; [assumption | split].
    - intros id Hin Hin'. apply list_elem_of_singleton in Hin'. subst id.
      apply list_elem_of_fmap in Hin as (x & Hx & Hxq).
      unfold call_ids in Hnd. rewrite fmap_app in Hnd.
      apply NoDup_app in Hnd as (_ & Hdisj & _).
      apply (Hdisj (entry_id x)); [now apply Hsub |].
      rewrite <- Hx. simpl. apply list_elem_of_here.
    - apply NoDup_singleton. }
  destruct (schedule_job_order config env job q Hord Hnew)
    as (popped & q' & Hrun & Hperm & Hsorted & Hties & Hcross & _).
  exists popped, q'. repeat (split; [assumption |]). assumption.
Qed.

Lemma ties_broken_by_job_id_witness :
  let job k := Job.mk (Some k) None None None None None in
  let busy := Env.mk 95 50 50 0 in
  let idle := Env.mk 10 10 10 0 in
  let calls :=
    [(busy, job "b"%string); (busy, job "a"%string); (idle, job "c"%string)] in
  let q := queue_after (Config.mk None) (take 2 calls) [] in
  exists popped q' : queue,
    fst (schedule_job (Config.mk None) idle (job "c"%string) q)
    = Val (Scheduled "c" 110 (length q')
             (ExecutionResult.mk (length popped) (report <$> popped)
                (length q')))
    /\ StronglySorted key_le popped.
Proof.
  intros job busy idle calls q.
  destruct (ties_broken_by_job_id (Config.mk None) calls 2 idle
              (job "c"%string))
    as (popped & q' & Hrun & _ & Hsorted & _).
  - apply (bool_decide_unpack _). vm_compute. exact I.
  - reflexivity.
  - exists popped, q'. split; [| exact Hsorted].
    fold calls in Hrun. fold q in Hrun. now rewrite Hrun.
Defined.

(** C2, as it is stated, fails: of two jobs of equal priority the one
    scheduled later is executed first when its id is the smaller string.
    Job "b" and then job "a" (both of priority 110) are scheduled while
    the cpu is at 95; a third call with the cpu at 10 executes "a", then
    "b". *)
Lemma fifo_among_equal_priorities_fails : ~ fifo_among_equal_priorities.
Proof.
  intros Hfifo.
  pose (job := fun k => Job.mk (Some k) None None None None None).
  pose (busy := Env.mk 95 50 50 0).
  pose (idle := Env.mk 10 10 10 0).
  pose (jc := Job.mk (Some "c"%string) (Some "training"%string)
                (Some "low"%string) None None None).
  specialize (Hfifo (Config.mk None)
                [(busy, job "b"%string); (busy, job "a"%string); (idle, jc)]
                0%nat 1%nat (busy, job "b"%string) (busy, job "a"%string)
                1%nat 0%nat).
  assert (1 < 0)%nat; [| lia].
  apply Hfifo.
  - apply (bool_decide_unpack _). vm_compute. exact I.
  - reflexivity.
  - reflexivity.
  - lia.
  - reflexivity.
  - vm_compute. reflexivity.
  - vm_compute. reflexivity.
Qed.

End SchedulerFacts.


(** ** The forecast of green windows *)

Module ForecastFacts.
Import CarbonAwareScheduler CarbonSpec ForecastSpec.

Lemma insort_perm {A} (key : A -> Q) (x : A) (l : list A) :
  Py.insort key x l ≡ₚ x :: l.
Proof.
  induction l as [|y l IH]; simpl; [reflexivity |].
  destruct (Py.ltb (key y) (key x)); [| reflexivity].
  rewrite IH. apply perm_swap.
Qed.

Lemma sorted_perm {A} (key : A -> Q) (l : list A) : Py.sorted key l ≡ₚ l.
Proof.
  unfold Py.sorted. induction l as [|x l IH]; simpl; [reflexivity |].
  now rewrite insort_perm, IH.
Qed.

Lemma insort_sorted {A} (key : A -> Q) (x : A) (l : list A) :
  StronglySorted (fun a b => (key a <= key b)%Q) l ->
  StronglySorted (fun a b => (key a <= key b)%Q) (Py.insort key x l).
Proof.
  induction l as [|y l IH]; intros Hs; simpl.
  - repeat constructor.
  - apply StronglySorted_inv in Hs as [Hs Hy].
    destruct (Py.ltb (key y) (key x)) eqn:Hlt.
    + apply ltb_spec in Hlt. apply SSorted_cons; [now apply IH |].
      rewrite insort_perm. constructor; [lra | assumption].
    + apply ltb_nspec in Hlt. apply SSorted_cons.
      * now apply SSorted_cons.
      * constructor; [assumption |].
        eapply Forall_impl; [exact Hy |]. intros z Hz. simpl in Hz. lra.
Qed.

Lemma sorted_sorted {A} (key : A -> Q) (l : list A) :
  StronglySorted (fun a b => (key a <= key b)%Q) (Py.sorted key l).
Proof.
  unfold Py.sorted. induction l as [|x l IH]; simpl; [constructor |].
  now apply insort_sorted.
Qed.

(** A loop that appends conditionally collects what its body yields. *)
Lemma fold_left_collect {A B} (step : list B -> A -> list B)
    (f : A -> option B) (l : list A) (acc : list B) :
  (forall acc a, step acc a = acc ++ option_list (f a)) ->
  fold_left step l acc = acc ++ omap f l.
Proof.
  intros Hstep. revert acc. induction l as [|a l IH]; intros acc; simpl.
  - now rewrite app_nil_r.
  - rewrite IH, Hstep. destruct (f a); simpl.
    + now rewrite <- app_assoc.
    + now rewrite app_nil_r.
Qed.

Lemma green_windows_unfold (forecast : Forecast) (jobs : list Job) :
  _find_green_windows forecast jobs
  = Py.sorted Window.carbon_intensity
      (omap (hour_window forecast) (Py.range 24)).
Proof.
  unfold _find_green_windows. f_equal.
  rewrite (fold_left_collect _ (hour_window forecast)); [reflexivity |].
  intros acc hour. unfold hour_window, solar.
  destruct (forecast hour) as [u r]. cbn [fst snd].
  destruct ((9 <=? hour) && (hour <=? 17));
    match goal with |- context [Py.ltb ?a ?b] => destruct (Py.ltb a b) end;
    simpl; now rewrite ?app_nil_r.
Qed.

Lemma range_elem (n : nat) (h : Z) :
  h ∈ Py.range n <-> 0 <= h < Z.of_nat n.
Proof.
  unfold Py.range. rewrite list_elem_of_fmap. split.
  - intros (k & -> & Hk). apply elem_of_seq in Hk. lia.
  - intros Hh. exists (Z.to_nat h). split; [lia |]. apply elem_of_seq. lia.
Qed.

Lemma hour_window_Some (forecast : Forecast) (h : Z) (w : Window.t) :
  hour_window forecast h = Some w ->
  Window.start_hour w = h
  /\ Window.end_hour w = h + 1
  /\ Window.capacity w = 10%Q
  /\ (Window.carbon_intensity w < 350)%Q
  /\ Window.carbon_intensity w
     = (if solar h then 250 + fst (forecast h)
        else 450 + fst (forecast h))%Q
  /\ Window.renewable_percentage w
     = (if solar h then 70 + snd (forecast h)
        else 30 + snd (forecast h))%Q.
Proof.
  unfold hour_window.
  match goal with |- context [Py.ltb ?a ?b] =>
    destruct (Py.ltb a b) eqn:Hlt end; [| discriminate].
  intros [= <-]. apply ltb_spec in Hlt. simpl. auto 10.
Qed.

Lemma green_hours_sublist (forecast : Forecast) (l : list Z) :
  Window.start_hour <$> omap (hour_window forecast) l `sublist_of` l.
Proof.
  induction l as [|h l IH]; simpl; [constructor |].
  destruct (hour_window forecast h) as [w|] eqn:Hw.
  - apply hour_window_Some in Hw as (Hs & _). simpl. rewrite Hs.
    now apply sublist_skip.
  - now apply sublist_cons.
Qed.

Lemma green_windows_elem (forecast : Forecast) (jobs : list Job)
    (w : Window.t) :
  w ∈ _find_green_windows forecast jobs
  <-> exists h, 0 <= h < 24 /\ hour_window forecast h = Some w.
Proof.
  rewrite green_windows_unfold, sorted_perm, list_elem_of_omap.
  split; intros (h & Hh & Hw); exists h; (split; [| assumption]).
  - now apply range_elem in Hh.
  - now apply range_elem.
Qed.

(** In range, the solar hours are green and the others are not. *)
Lemma hour_window_in_range (forecast : Forecast) (h : Z) :
  in_range forecast ->
  hour_window forecast h
  = if solar h
    then Some (Window.mk h (h + 1) (250 + fst (forecast h))
                 (70 + snd (forecast h)) 10)
    else None.
Proof.
  intros Hr. destruct (Hr h) as [[Hu1 Hu2] _]. unfold hour_window.
  destruct (solar h);
    match goal with |- context [Py.ltb ?a ?b] =>
      destruct (Py.ltb a b) eqn:Hlt end; try reflexivity.
  - apply ltb_nspec in Hlt. lra.
  - apply ltb_spec in Hlt. lra.
Qed.

Lemma solar_spec (h : Z) : solar h = true <-> 9 <= h <= 17.
Proof. unfold solar. rewrite andb_true_iff, !Z.leb_le. tauto. Qed.

(** X1. Whatever the forecast draws, the windows that
    [_find_green_windows] returns are exactly the hours of the day whose
    forecast intensity is below the green threshold of 350: each covers
    one hour from 0 to 23, ends an hour after it starts and has capacity
    10; no hour occurs twice; the list is in ascending order of the
    intensity; and the jobs passed in have no part in it. *)
Theorem green_windows_below_threshold
    (forecast : Forecast) (jobs : list Job) :
  let ws := _find_green_windows forecast jobs in
  (forall w, w ∈ ws
             <-> exists h, 0 <= h < 24 /\ hour_window forecast h = Some w)
  /\ Forall (fun w => (Window.carbon_intensity w < 350)%Q
                      /\ 0 <= Window.start_hour w < 24
                      /\ Window.end_hour w = Window.start_hour w + 1
                      /\ Window.capacity w = 10%Q) ws
  /\ NoDup (Window.start_hour <$> ws)
  /\ StronglySorted by_intensity ws
  /\ (forall jobs', _find_green_windows forecast jobs' = ws).
Proof.
  intros ws. split; [| split; [| split; [| split]]].
  - intros w. apply green_windows_elem.
  - apply Forall_forall. intros w Hw.
    apply green_windows_elem in Hw as (h & Hh & Hw).
    apply hour_window_Some in Hw as (Hs & He & Hc & Hi & _).
    rewrite Hs, He. auto.
  - subst ws. rewrite green_windows_unfold, sorted_perm.
    eapply sublist_NoDup; [| apply green_hours_sublist].
    unfold Py.range. apply NoDup_fmap_2; [| apply NoDup_seq].
    intros a b. lia.
  - subst ws. rewrite green_windows_unfold. apply sorted_sorted.
  - intros jobs'. subst ws. now rewrite !green_windows_unfold.
Qed.

Lemma green_hours_in_range (forecast : Forecast) (jobs : list Job) :
  in_range forecast ->
  Window.start_hour <$> _find_green_windows forecast jobs ≡ₚ solar_hours.
Proof.
  intros Hr. rewrite green_windows_unfold, sorted_perm.
  rewrite (list_omap_ext _
    (fun h => if solar h
              then Some (Window.mk h (h + 1) (250 + fst (forecast h))
                           (70 + snd (forecast h)) 10)
              else None) _ (Py.range 24)); [reflexivity |].
  apply Forall2_same_length_lookup_2; [reflexivity |].
  intros k x y Hx Hy. rewrite Hx in Hy. injection Hy as <-.
  now apply hour_window_in_range.
Qed.

Lemma green_window_in_range (forecast : Forecast) (jobs : list Job)
    (w : Window.t) :
  in_range forecast ->
  w ∈ _find_green_windows forecast jobs ->
  let h := Window.start_hour w in
  9 <= h <= 17
  /\ w = Window.mk h (h + 1) (250 + fst (forecast h))
           (70 + snd (forecast h)) 10
  /\ (200 <= Window.carbon_intensity w <= 300)%Q
  /\ (60 <= Window.renewable_percentage w <= 80)%Q.
Proof.
  intros Hr Hw.
  apply green_windows_elem in Hw as (h & Hh & Hw).
  rewrite (hour_window_in_range _ _ Hr) in Hw.
  destruct (solar h) eqn:Hs; [| discriminate].
  apply solar_spec in Hs. destruct (Hr h) as [Hu Hv].
  injection Hw as <-. cbn. repeat split; try lia; lra.
Qed.

(** X2. When the draws are where [np.random.uniform(-50, 50)] and
    [np.random.uniform(-10, 10)] take them from, the green windows are
    the nine solar hours 9 to 17, each once, whatever was drawn: every
    window has the intensity 250 plus the draw of its hour, between 200
    and 300, and a renewable share between 60 and 80; no hour of the
    night is ever green. *)
Theorem green_windows_are_the_solar_hours
    (forecast : Forecast) (jobs : list Job) :
  in_range forecast ->
  let ws := _find_green_windows forecast jobs in
  Window.start_hour <$> ws ≡ₚ solar_hours
  /\ length ws = 9%nat
  /\ Forall (fun w =>
       let h := Window.start_hour w in
       9 <= h <= 17
       /\ w = Window.mk h (h + 1) (250 + fst (forecast h))
                (70 + snd (forecast h)) 10
       /\ (200 <= Window.carbon_intensity w <= 300)%Q
       /\ (60 <= Window.renewable_percentage w <= 80)%Q) ws.
Proof.
  intros Hr ws. subst ws.
  pose proof (green_hours_in_range forecast jobs Hr) as Hperm.
  split; [assumption | split].
  - rewrite <- (length_fmap Window.start_hour), Hperm. reflexivity.
  - apply Forall_forall. intros w Hw.
    now apply (green_window_in_range forecast jobs w Hr).
Qed.

Lemma green_windows_are_the_solar_hours_witness :
  let forecast := fun h : Z =>
    if h <? 12 then (-40, 5)%Q else (25, -5)%Q in
  length (_find_green_windows forecast []) = 9%nat.
Proof.
  intros forecast.
  refine (proj1 (proj2 (green_windows_are_the_solar_hours forecast [] _))).
  intros h. unfold forecast.
  destruct (h <? 12); simpl; repeat split; discriminate.
Defined.

End ForecastFacts.


(** ** Carbon-aware scheduling as a whole *)

Module CarbonScheduleFacts.
Import CarbonAwareScheduler CarbonSpec ForecastSpec.
Import FloatFacts CarbonPackingFacts CarbonSavingsFacts ForecastFacts.

(** The sum [300 + draw] rounds below 350 exactly when it is below the
    midpoint of 350 and the float before it. *)
Lemma day_intensity_below (u : Q) :
  (-50 <= u)%Q ->
  (Py.fl (300 + u) < 350)%Q <-> (u < 50 - Py.pow2 (-45))%Q.
Proof.
  intros Hu. set (x := (300 + u)%Q).
  assert (Hx : (0 < x)%Q) by (subst x; lra).
  assert (Emid : (350 - Py.pow2 (-45)
                  == (inject_Z (350 * 2 ^ 44) - (1 # 2)) * Py.pow2 (-44))%Q)
    by (vm_compute; reflexivity).
  split.
  - intros Hlt. apply Qnot_le_lt. intros Hge.
    assert (Hmid : (350 - Py.pow2 (-45) <= x)%Q) by (subst x; lra).
    apply fl_mono in Hmid.
    assert (E : (Py.fl (350 - Py.pow2 (-45)) == 350)%Q)
      by (vm_compute; reflexivity).
    rewrite E in Hmid. lra.
  - intros Hlt. rewrite (fl_of_pos x Hx).
    destruct (Qlt_le_dec x 256) as [Hs|Hb].
    + apply (Qle_lt_trans _ (Py.pow2 8)); [| reflexivity].
      apply fl_pos_upper; [assumption | exact (Qlt_le_weak _ _ Hs) |].
      destruct (ilog2_spec x Hx) as [S1 _].
      assert (Py.ilog2 x < 8)
        by (apply pow2_lt_inv; apply (Qle_lt_trans _ _ _ S1 Hs)).
      unfold Py.ulp_exp. lia.
    + apply (Qle_lt_trans _ (inject_Z (350 * 2 ^ 44 - 1) * Py.pow2 (-44)));
        [| vm_compute; reflexivity].
      apply (fl_pos_below x (350 * 2 ^ 44) (-44)); [lia | lia | exact Hb |].
      rewrite <- Emid. subst x. lra.
Qed.

(** X3. With the draws where [np.random.uniform] takes them from, the
    intensity from 8 to 18 o'clock is the float sum of 300 and the draw,
    between 250 and 350, and the source is "renewable" exactly when that
    sum is below 350: for every draw below [50 - 2^-45]; the draws above
    it, such as [50 - 2^-46 = 49.999999999999986], give 350 and "mixed".
    At every other hour the intensity is the float sum of 450 and the
    draw, between 420 and 480, and the source is "mixed".  The floor of
    200 is never the value reported. *)
Theorem carbon_intensity_by_hour (env : CarbonEnv) :
  (-50 <= uniform_50 env <= 50)%Q ->
  (-30 <= uniform_30 env <= 30)%Q ->
  let r := _get_carbon_intensity env in
  timestamp r = now_iso env
  /\ (8 <= hour env <= 18 ->
      intensity_gco2_kwh r = Py.fl (300 + uniform_50 env)
      /\ (250 <= intensity_gco2_kwh r <= 350)%Q
      /\ (source r = "renewable"%string
          <-> (intensity_gco2_kwh r < 350)%Q)
      /\ (source r = "renewable"%string
          <-> (uniform_50 env < 50 - Py.pow2 (-45))%Q)
      /\ (source r = "renewable"%string \/ source r = "mixed"%string))
  /\ (~ 8 <= hour env <= 18 ->
      intensity_gco2_kwh r = Py.fl (450 + uniform_30 env)
      /\ (420 <= intensity_gco2_kwh r <= 480)%Q
      /\ source r = "mixed"%string).
Proof.
  intros Hu Hv r. subst r. unfold _get_carbon_intensity.
  split; [reflexivity | split]; intros Hh.
  - replace ((8 <=? hour env) && (hour env <=? 18)) with true
      by (symmetry; apply andb_true_iff; split; apply Z.leb_le; lia).
    cbn [intensity_gco2_kwh source].
    change (400 - 100 + uniform_50 env)%Q with (300 + uniform_50 env)%Q.
    set (x := Py.fl (300 + uniform_50 env)).
    assert (Hx : (250 <= x <= 350)%Q)
      by (apply fl_between; [reflexivity | reflexivity | lra]).
    assert (Hmax : Py.max 200 x = x).
    { unfold Py.max. destruct (Py.ltb 200 x) eqn:E; [reflexivity |].
      apply ltb_nspec in E. lra. }
    rewrite Hmax.
    assert (Hsrc : (if Py.ltb x 350 then "renewable"%string
                    else "mixed"%string) = "renewable"%string
                   <-> (x < 350)%Q).
    { destruct (Py.ltb x 350) eqn:Hlt.
      - apply ltb_spec in Hlt. tauto.
      - apply ltb_nspec in Hlt. split; [discriminate | intros; lra]. }
    split; [reflexivity | split; [exact Hx | split; [exact Hsrc | split]]].
    + rewrite Hsrc. apply day_intensity_below. lra.
    + destruct (Py.ltb x 350); [now left | now right].
  - replace ((8 <=? hour env) && (hour env <=? 18)) with false
      by (symmetry; apply andb_false_iff;
          rewrite !Z.leb_gt; lia).
    cbn [intensity_gco2_kwh source].
    change (400 + 50 + uniform_30 env)%Q with (450 + uniform_30 env)%Q.
    set (x := Py.fl (450 + uniform_30 env)).
    assert (Hx : (420 <= x <= 480)%Q)
      by (apply fl_between; [reflexivity | reflexivity | lra]).
    assert (Hmax : Py.max 200 x = x).
    { unfold Py.max. destruct (Py.ltb 200 x) eqn:E; [reflexivity |].
      apply ltb_nspec in E. lra. }
    rewrite Hmax.
    split; [reflexivity | split; [exact Hx |]].
    destruct (Py.ltb x 350) eqn:Hlt; [| reflexivity].
    apply ltb_spec in Hlt. lra.
Qed.

Lemma carbon_intensity_by_hour_witness :
  let env :=
    mkCarbonEnv 13 (50 - Py.pow2 (-46)) 10 "2025-06-01T13:00:00+00:00" in
  ~ source (_get_carbon_intensity env) = "renewable"%string.
Proof.
  intros env.
  destruct (carbon_intensity_by_hour env) as (_ & Hday & _).
  - vm_compute. split; discriminate.
  - vm_compute. split; discriminate.
  - destruct Hday as (_ & _ & _ & Hsrc & _); [simpl; lia |].
    rewrite Hsrc. vm_compute. discriminate.
Defined.

(** *** Packing *)

Lemma same_slot_refl (w : Window.t) : same_slot w w.
Proof. repeat split. Qed.

Lemma same_slot_trans (a b c : Window.t) :
  same_slot a b -> same_slot b c -> same_slot a c.
Proof. unfold same_slot. intuition congruence. Qed.

Lemma same_slot_take (w : Window.t) (d : Q) :
  same_slot w (take_capacity w d).
Proof. repeat split. Qed.

Lemma same_slot_all_refl (ws : list Window.t) : Forall2 same_slot ws ws.
Proof. induction ws; constructor; auto using same_slot_refl. Qed.

Lemma same_slot_all_trans (a b c : list Window.t) :
  Forall2 same_slot a b -> Forall2 same_slot b c -> Forall2 same_slot a c.
Proof.
  intros Hab. revert c. induction Hab; intros c Hbc; inversion Hbc; subst;
    constructor; eauto using same_slot_trans.
Qed.

Lemma entry_for_same_slot (job : Job) (w w' : Window.t) :
  same_slot w w' -> entry_for job w' = entry_for job w.
Proof. intros (H1 & H2 & H3 & H4). unfold entry_for. congruence. Qed.

Lemma in_slot_same_slot (e : ScheduledEntry.t) (ws ws' : list Window.t) :
  Forall2 same_slot ws ws' ->
  (exists w, w ∈ ws' /\ in_slot e w) -> exists w, w ∈ ws /\ in_slot e w.
Proof.
  intros Hs (w' & Hw' & He).
  apply list_elem_of_lookup in Hw' as [i Hi].
  destruct (Forall2_lookup_r _ _ _ _ _ Hs Hi) as (w & Hw & H1 & H2 & H3 & H4).
  exists w. split; [eapply list_elem_of_lookup_2; eassumption |].
  destruct He as (E1 & E2 & E3 & E4). unfold in_slot. intuition congruence.
Qed.

(** One passage of the inner loop: the windows keep their slots, and an
    entry made is the job's, in the slot of one of the windows. *)
Lemma find_window_slot (job : Job) (ws : list Window.t) :
  Forall2 same_slot ws (snd (find_window job ws))
  /\ (forall e, fst (find_window job ws) = Some e ->
        ScheduledEntry.job_id e = Job.id job
        /\ exists w, w ∈ ws /\ in_slot e w).
Proof.
  induction ws as [|w ws [IH1 IH2]]; simpl.
  - split; [constructor | discriminate].
  - destruct (Py.leb (job_duration job) (Window.capacity w)).
    + simpl. split.
      * constructor; [apply same_slot_take | apply same_slot_all_refl].
      * intros e [= <-]. split; [reflexivity |].
        exists w. split; [left | repeat split].
    + destruct (find_window job ws) as [r ws']. simpl in *. split.
      * constructor; [apply same_slot_refl | assumption].
      * intros e He. destruct (IH2 e He) as (Hid & w' & Hw' & Hs).
        split; [assumption |]. exists w'. split; [now right | assumption].
Qed.

Lemma find_window_none (job : Job) (ws : list Window.t) :
  Forall (fun w => (Window.capacity w < job_duration job)%Q) ws ->
  find_window job ws = (None, ws).
Proof.
  induction 1 as [|w ws Hw _ IH]; simpl; [reflexivity |].
  apply leb_nspec in Hw. now rewrite Hw, IH.
Qed.

Lemma place_unfold (acc : list ScheduledEntry.t) (ws : list Window.t)
    (job : Job) :
  place (acc, ws) job
  = (acc ++ option_list (fst (find_window job ws)),
     snd (find_window job ws)).
Proof.
  unfold place. cbn [fst snd].
  destruct (find_window job ws) as [[e|] ws']; simpl;
    now rewrite ?app_nil_r.
Qed.

Lemma schedule_slots (jobs : list Job) (ws : list Window.t)
    (acc : list ScheduledEntry.t) :
  exists new,
    fst (fold_left place jobs (acc, ws)) = acc ++ new
    /\ ScheduledEntry.job_id <$> new `sublist_of` Job.id <$> jobs
    /\ Forall (fun e => exists w, w ∈ ws /\ in_slot e w) new
    /\ Forall2 same_slot ws (snd (fold_left place jobs (acc, ws))).
Proof.
  revert ws acc. induction jobs as [|j jobs IH]; intros ws acc; simpl.
  - exists []. rewrite app_nil_r.
    split; [reflexivity | split; [constructor | split; [constructor |]]].
    apply same_slot_all_refl.
  - destruct (find_window_slot j ws) as [Hs He].
    rewrite place_unfold.
    destruct (find_window j ws) as [[e|] ws1]; simpl in *;
      rewrite ?app_nil_r.
    + destruct (IH ws1 (acc ++ [e])) as (new & Hf & Hsub & Hin & Hsl).
      destruct (He e eq_refl) as (Hid & Hw).
      exists (e :: new). rewrite Hf, <- app_assoc. simpl.
      split; [reflexivity | split; [| split]].
      * rewrite Hid. now apply sublist_skip.
      * constructor; [assumption |].
        eapply Forall_impl; [exact Hin |]. intros e'.
        now apply in_slot_same_slot.
      * eapply same_slot_all_trans; eassumption.
    + destruct (IH ws1 acc) as (new & Hf & Hsub & Hin & Hsl).
      exists new. split; [assumption | split; [| split]].
      * now apply sublist_cons.
      * eapply Forall_impl; [exact Hin |]. intros e'.
        now apply in_slot_same_slot.
      * eapply same_slot_all_trans; eassumption.
Qed.

Lemma schedule_follows_slots (jobs : list Job) (windows : list Window.t) :
  let r := _schedule_in_green_windows jobs windows in
  ScheduledEntry.job_id <$> fst r `sublist_of` Job.id <$> jobs
  /\ Forall (fun e => exists w, w ∈ windows /\ in_slot e w) (fst r)
  /\ Forall2 same_slot windows (snd r).
Proof.
  intros r. subst r. unfold _schedule_in_green_windows.
  destruct (schedule_slots jobs windows []) as (new & Hf & Hsub & Hin & Hs).
  rewrite Hf. simpl. auto.
Qed.

(** X4. Whatever the jobs and the windows, the packing takes the jobs in
    the order given and each at most once: the ids of the scheduled
    entries are a subsequence of the ids of the jobs.  Every entry
    reports the hours, the intensity and the renewable share of one of
    the windows passed in, and the windows come out in the same order
    with nothing but their capacity changed. *)
Theorem schedule_follows_the_jobs
    (jobs : list Job) (windows : list Window.t) :
  let r := _schedule_in_green_windows jobs windows in
  ScheduledEntry.job_id <$> fst r `sublist_of` Job.id <$> jobs
  /\ (length (fst r) <= length jobs)%nat
  /\ Forall (fun e => exists w, w ∈ windows /\ in_slot e w) (fst r)
  /\ Forall2 same_slot windows (snd r).
Proof.
  intros r. subst r.
  destruct (schedule_follows_slots jobs windows) as (Hsub & Hin & Hs).
  split; [assumption | split; [| split]]; try assumption.
  apply sublist_length in Hsub. now rewrite !length_fmap in Hsub.
Qed.

Lemma total_duration_cons (j : Job) (jobs : list Job) :
  (total_duration (j :: jobs) == job_duration j + total_duration jobs)%Q.
Proof. unfold total_duration. simpl. apply sum_cons. Qed.

Lemma total_duration_nonneg (jobs : list Job) :
  Forall (fun j => (0 <= job_duration j)%Q) jobs ->
  (0 <= total_duration jobs)%Q.
Proof.
  induction 1 as [|j jobs Hj _ IH].
  - unfold total_duration, Py.sum. simpl. lra.
  - rewrite total_duration_cons. lra.
Qed.

Lemma whole_nonneg (x : Q) : whole x -> (0 <= x)%Q.
Proof.
  intros (k & Hk & E). rewrite E. change 0%Q with (inject_Z 0).
  rewrite <- Zle_Qle. lia.
Qed.

Lemma whole_hours_nonneg (jobs : list Job) :
  Forall (fun j => whole (estimated_duration_hours j)) jobs ->
  Forall (fun j => (0 <= job_duration j)%Q) jobs.
Proof.
  intros H. eapply Forall_impl; [exact H |]. intros j. apply whole_nonneg.
Qed.

(** Whole hours taken from a whole capacity that holds them. *)
Lemma take_whole (w : Window.t) (d : Q) :
  whole (Window.capacity w) -> whole d -> (d <= Window.capacity w)%Q ->
  (Window.capacity (take_capacity w d) == Window.capacity w - d)%Q
  /\ whole (Window.capacity (take_capacity w d)).
Proof.
  intros (kc & Hkc & Ec) (kd & Hkd & Ed) Hle.
  assert (Hk : kd <= kc) by (rewrite Zle_Qle, <- Ec, <- Ed; exact Hle).
  pose proof (fsub_whole _ _ kc kd Ec Ed ltac:(lia) ltac:(lia)) as E.
  cbn [take_capacity Window.capacity]. split.
  - rewrite E, Ec, Ed. unfold Zminus.
    rewrite inject_Z_plus, inject_Z_opp. reflexivity.
  - exists (kc - kd). split; [lia | exact E].
Qed.

Lemma packed_same_slot (jobs : list Job) (w : Window.t) :
  same_slot w (packed jobs w).
Proof.
  revert w. induction jobs as [|j jobs IH]; intros w; [apply same_slot_refl |].
  change (packed (j :: jobs) w)
    with (packed jobs (take_capacity w (job_duration j))).
  eapply same_slot_trans; [apply same_slot_take | apply IH].
Qed.

Lemma all_in_first_window (jobs : list Job) (w0 w : Window.t)
    (rest : list Window.t) (acc : list ScheduledEntry.t) :
  Forall (fun j => whole (estimated_duration_hours j)) jobs ->
  whole (Window.capacity w) ->
  (total_duration jobs <= Window.capacity w)%Q ->
  same_slot w0 w ->
  fold_left place jobs (acc, w :: rest)
  = (acc ++ ((fun j => scheduled_in j w0) <$> jobs), packed jobs w :: rest)
  /\ (Window.capacity (packed jobs w)
      == Window.capacity w - total_duration jobs)%Q.
Proof.
  intros Hd. revert w acc.
  induction Hd as [|j jobs Hj Hd IH]; intros w acc Hw Hfit Hs; simpl.
  - rewrite app_nil_r. split; [reflexivity |].
    unfold packed, total_duration, Py.sum. simpl. ring.
  - rewrite total_duration_cons in Hfit |- *.
    pose proof (total_duration_nonneg jobs (whole_hours_nonneg jobs Hd)) as Hn.
    assert (Hle : (job_duration j <= Window.capacity w)%Q) by lra.
    destruct (take_whole w (job_duration j) Hw Hj Hle) as [Ecap Hw'].
    unfold place at 2. cbn [snd fst find_window].
    assert (Hleb : Py.leb (job_duration j) (Window.capacity w) = true)
      by (apply leb_spec; exact Hle).
    rewrite Hleb.
    change (packed (j :: jobs) w)
      with (packed jobs (take_capacity w (job_duration j))).
    destruct (IH (take_capacity w (job_duration j))
                 (acc ++ [entry_for j w]) Hw') as [Hrun Hcap].
    + rewrite Ecap. lra.
    + eapply same_slot_trans; [exact Hs | apply same_slot_take].
    + split.
      * rewrite Hrun, (entry_for_same_slot j w0 w Hs), <- app_assoc.
        reflexivity.
      * rewrite Hcap, Ecap. ring.
Qed.

(** X5. Jobs whose durations are whole hours and together do not exceed
    the capacity of the first window, a whole number too, are all
    scheduled, in their order, in that first window, the cleanest one
    when the windows come from [_find_green_windows]: each entry carries
    the id and the carbon priority of its job and the slot of that
    window; the capacity of the window goes down by the sum of the
    durations and no other window is touched.  (On whole numbers up to
    [2^53] the float subtraction is exact; durations with a fractional
    part can leave less than their sum suggests.) *)
Theorem jobs_that_fit_share_the_first_window
    (jobs : list Job) (w : Window.t) (rest : list Window.t) :
  Forall (fun j => whole (estimated_duration_hours j)) jobs ->
  whole (Window.capacity w) ->
  (total_duration jobs <= Window.capacity w)%Q ->
  exists w',
    _schedule_in_green_windows jobs (w :: rest)
    = ((fun j => scheduled_in j w) <$> jobs, w' :: rest)
    /\ (Window.capacity w' == Window.capacity w - total_duration jobs)%Q
    /\ same_slot w w'
    /\ w' = packed jobs w.
Proof.
  intros Hd Hw Hfit. exists (packed jobs w).
  destruct (all_in_first_window jobs w w rest [] Hd Hw Hfit
              (same_slot_refl w)) as [Hrun Hcap].
  split; [exact Hrun | split; [exact Hcap | split; [| reflexivity]]].
  apply packed_same_slot.
Qed.

Lemma jobs_that_fit_share_the_first_window_witness :
  let j i d := Job.mk (Some i) None None None d (Some "high"%string) in
  let jobs := [j "job1"%string (Some 2%Q); j "job2"%string None] in
  let w := Window.mk 12 13 210 75 10 in
  let w' := Window.mk 11 12 230 70 10 in
  exists w1,
    _schedule_in_green_windows jobs [w; w']
    = ((fun j => scheduled_in j w) <$> jobs, [w1; w'])
    /\ (Window.capacity w1 == 10 - total_duration jobs)%Q.
Proof.
  intros j jobs w w'.
  destruct (jobs_that_fit_share_the_first_window jobs w [w'])
    as (w1 & Hrun & Hcap & _).
  - repeat constructor.
    + exists 2. split; [lia | reflexivity].
    + exists 1. split; [lia | reflexivity].
  - exists 10. split; [lia | reflexivity].
  - vm_compute. discriminate.
  - exists w1. split; assumption.
Defined.

(** Durations with a fractional part: 0.3, 1.7 and 8 hours are 10 hours,
    and the third job does not fit in what the first two leave of a
    capacity of 10, [7.999999999999999]. *)
Lemma fractions_of_hours_leave_less :
  let j i d := Job.mk (Some i) None None None (Some (Py.fl d)) None in
  let jobs := [j "a" (3 # 10); j "b" (17 # 10); j "c" 8]%string%Q in
  let w := Window.mk 12 13 210 75 10 in
  ScheduledEntry.job_id <$> fst (_schedule_in_green_windows jobs [w])
  = [Some "a"; Some "b"]%string
  /\ (Window.capacity <$> snd (_schedule_in_green_windows jobs [w])
      = [8 - Py.pow2 (-50)])%Q.
Proof. intros j jobs w. split; vm_compute; reflexivity. Qed.

(** X6. A job that is longer than the capacity of every window is left
    out without a trace: when the durations of the jobs before it are
    not negative, the scheduled entries and the windows are what they
    would be had the job not been submitted. *)
Theorem job_that_fits_nowhere_is_left_out
    (before : list Job) (job : Job) (after : list Job)
    (windows : list Window.t) :
  Forall (fun j => (0 <= job_duration j)%Q) before ->
  Forall (fun w => (Window.capacity w < job_duration job)%Q) windows ->
  _schedule_in_green_windows (before ++ job :: after) windows
  = _schedule_in_green_windows (before ++ after) windows.
Proof.
  intros Hd Hbig. unfold _schedule_in_green_windows.
  rewrite !fold_left_app. simpl. f_equal.
  pose proof (schedule_capacity before windows Hd) as Hcap.
  unfold _schedule_in_green_windows in Hcap.
  destruct (fold_left place before ([], windows)) as [acc ws]. simpl in Hcap.
  unfold place. cbn [fst snd]. rewrite find_window_none; [reflexivity |].
  apply Forall_forall. intros w' Hw'.
  apply list_elem_of_lookup in Hw' as [i Hi].
  destruct (Forall2_lookup_r _ _ _ _ _ Hcap Hi) as (w & Hw & _ & Hle).
  rewrite Forall_forall in Hbig.
  assert (Hin : w ∈ windows) by (eapply list_elem_of_lookup_2; eassumption).
  specialize (Hbig w Hin). simpl in Hbig. lra.
Qed.

Lemma job_that_fits_nowhere_is_left_out_witness :
  let j i d := Job.mk (Some i) None None None (Some d) None in
  let w := Window.mk 12 13 210 75 10 in
  _schedule_in_green_windows
    ([j "a"%string 4%Q] ++ j "b"%string 11%Q :: [j "c"%string 6%Q]) [w]
  = _schedule_in_green_windows
      ([j "a"%string 4%Q] ++ [j "c"%string 6%Q]) [w].
Proof.
  intros j w.
  apply (job_that_fits_nowhere_is_left_out
           [j "a"%string 4%Q] (j "b"%string 11%Q) [j "c"%string 6%Q] [w]).
  - repeat constructor; vm_compute; discriminate.
  - repeat constructor.
Defined.

(** *** Savings *)

Lemma sum_bounds (lo hi : Q) (xs : list Q) :
  Forall (fun x => (lo <= x <= hi)%Q) xs ->
  (Py.len xs * lo <= Py.sum xs <= Py.len xs * hi)%Q.
Proof.
  induction 1 as [|x xs Hx _ IH].
  - unfold Py.len, Py.sum. simpl. change (inject_Z (Z.of_nat 0)) with 0%Q. lra.
  - rewrite sum_cons. unfold Py.len in *. simpl length.
    rewrite Nat2Z.inj_succ. unfold Z.succ. rewrite inject_Z_plus.
    change (inject_Z 1) with 1%Q. lra.
Qed.

Lemma mean_bounds (lo hi : Q) (l : list ScheduledEntry.t) :
  l <> [] ->
  Forall (fun e => (lo <= ScheduledEntry.carbon_intensity e <= hi)%Q) l ->
  (lo <= mean_intensity l <= hi)%Q.
Proof.
  intros Hne Hall. pose proof (len_pos l Hne) as Hlen.
  assert (Hs : (Py.len l * lo
                <= Py.sum (map ScheduledEntry.carbon_intensity l)
                <= Py.len l * hi)%Q).
  { replace (Py.len l)
      with (Py.len (map ScheduledEntry.carbon_intensity l))
      by (unfold Py.len; now rewrite length_map).
    apply sum_bounds. now apply Forall_map. }
  unfold mean_intensity. split.
  - apply Qle_shift_div_l; [assumption |]. rewrite Qmult_comm. apply Hs.
  - apply Qle_shift_div_r; [assumption |]. rewrite Qmult_comm. apply Hs.
Qed.

Lemma percent_form (x : Q) :
  ((450 - x) / 450 * 100 == (450 - x) * (2 # 9))%Q.
Proof. field. Qed.

(** The savings of a schedule that is not empty, when no job runs at
    more than the baseline intensity: nothing is clamped. *)
Lemma savings_unclamped {S} (l : list ScheduledEntry.t) (s : S)
    (lo hi : Q) :
  l <> [] ->
  Forall (fun e => (lo <= ScheduledEntry.carbon_intensity e <= hi)%Q) l ->
  (hi <= 450)%Q ->
  exists r,
    _calculate_carbon_savings l s = (Val r, s)
    /\ (lo <= mean_intensity l <= hi)%Q
    /\ (CarbonSavings.total_savings_kg_co2 r
        == Py.len l * (450 - mean_intensity l) / 1000)%Q
    /\ (CarbonSavings.percentage_reduction r
        == (450 - mean_intensity l) / 450 * 100)%Q
    /\ CarbonSavings.jobs_scheduled r = Some (length l).
Proof.
  intros Hne Hall Hhi. pose proof (len_pos l Hne) as Hlen.
  pose proof (mean_bounds lo hi l Hne Hall) as Hm.
  eexists. split; [apply (savings_nonempty l s Hne) |].
  cbn [CarbonSavings.total_savings_kg_co2 CarbonSavings.percentage_reduction
       CarbonSavings.jobs_scheduled].
  set (m := mean_intensity l) in *. set (n := Py.len l) in *.
  assert (Hsav : (n * 450 / 1000 - n * m / 1000 == n * (450 - m) / 1000)%Q)
    by field.
  assert (Hpct : ((n * 450 / 1000 - n * m / 1000) / (n * 450 / 1000) * 100
                  == (450 - m) / 450 * 100)%Q) by (field; lra).
  assert (Hpos : (0 <= n * (450 - m))%Q)
    by (apply Qmult_le_0_compat; lra).
  split; [assumption | split; [| split; [| reflexivity]]].
  - rewrite max_clamp, Hsav. apply Q.max_r.
    apply Qle_shift_div_l; lra.
  - rewrite max_clamp, Hpct. apply Q.max_r.
    apply Qmult_le_0_compat; [| lra]. apply Qle_shift_div_l; lra.
Qed.

(** X7. For a schedule that is not empty and whose jobs all run at an
    intensity between [lo] and [hi], with [hi] at most the baseline of
    450, the savings returned are within the bounds that the range
    gives: each of the [n] jobs saves between [450 - hi] and [450 - lo]
    grams, and the percentage is between [(450 - hi) / 4.5] and
    [(450 - lo) / 4.5].  The count reported is [n]. *)
Theorem savings_within_the_intensity_range {S}
    (l : list ScheduledEntry.t) (s : S) (lo hi : Q) :
  l <> [] ->
  Forall (fun e => (lo <= ScheduledEntry.carbon_intensity e <= hi)%Q) l ->
  (hi <= 450)%Q ->
  exists r,
    _calculate_carbon_savings l s = (Val r, s)
    /\ (Py.len l * (450 - hi) / 1000
        <= CarbonSavings.total_savings_kg_co2 r
        <= Py.len l * (450 - lo) / 1000)%Q
    /\ ((450 - hi) / 450 * 100
        <= CarbonSavings.percentage_reduction r
        <= (450 - lo) / 450 * 100)%Q
    /\ CarbonSavings.jobs_scheduled r = Some (length l).
Proof.
  intros Hne Hall Hhi. pose proof (len_pos l Hne) as Hlen.
  destruct (savings_unclamped l s lo hi Hne Hall Hhi)
    as (r & Hr & Hm & Ht & Hp & Hn).
  exists r. split; [assumption | split; [| split; [| assumption]]].
  - rewrite Ht. set (m := mean_intensity l) in *. set (n := Py.len l) in *.
    assert (H1 : (n * (450 - hi) <= n * (450 - m))%Q)
      by (apply Qmult_le_l; lra).
    assert (H2 : (n * (450 - m) <= n * (450 - lo))%Q)
      by (apply Qmult_le_l; lra).
    split; apply Qmult_le_compat_r; try assumption; discriminate.
  - rewrite Hp, !percent_form. set (m := mean_intensity l) in *. lra.
Qed.

Lemma savings_within_the_intensity_range_witness :
  let e i := ScheduledEntry.mk (Some "a"%string) 9 10 i 70 "normal" in
  exists r,
    _calculate_carbon_savings [e 220%Q; e 280%Q] tt = (Val r, tt)
    /\ ((450 - 300) / 450 * 100
        <= CarbonSavings.percentage_reduction r
        <= (450 - 200) / 450 * 100)%Q.
Proof.
  intros e.
  destruct (savings_within_the_intensity_range
              [e 220%Q; e 280%Q] tt 200 300)
    as (r & Hr & _ & Hp & _).
  - discriminate.
  - repeat constructor; discriminate.
  - discriminate.
  - exists r. split; assumption.
Defined.

(** *** The whole of [get_carbon_optimal_schedule] *)

Lemma carbon_schedule_run {S} (env : CarbonEnv) (forecast : Forecast)
    (jobs : list Job) (s : S) (savings : CarbonSavings.t) :
  let r := _schedule_in_green_windows jobs
             (_find_green_windows forecast jobs) in
  _calculate_carbon_savings (fst r) s = (Val savings, s) ->
  get_carbon_optimal_schedule env forecast jobs s
  = (Val (Completed (_get_carbon_intensity env) (fst r) savings (snd r)), s).
Proof.
  intros r Hs. subst r. unfold get_carbon_optimal_schedule.
  destruct (_schedule_in_green_windows jobs
              (_find_green_windows forecast jobs)) as [scheduled ws].
  simpl in Hs. unfold try_except, mbind, M_bind. rewrite Hs. reflexivity.
Qed.

(** An entry in the slot of a green window of a forecast in range. *)
Lemma in_slot_in_range (forecast : Forecast) (jobs : list Job)
    (e : ScheduledEntry.t) :
  in_range forecast ->
  (exists w, w ∈ _find_green_windows forecast jobs /\ in_slot e w) ->
  9 <= ScheduledEntry.scheduled_start e <= 17
  /\ ScheduledEntry.scheduled_end e = ScheduledEntry.scheduled_start e + 1
  /\ ScheduledEntry.carbon_intensity e
     = (250 + fst (forecast (ScheduledEntry.scheduled_start e)))%Q
  /\ (200 <= ScheduledEntry.carbon_intensity e <= 300)%Q
  /\ (60 <= ScheduledEntry.renewable_percentage e <= 80)%Q.
Proof.
  intros Hr (w & Hw & E1 & E2 & E3 & E4).
  apply green_windows_elem in Hw as (h & Hh & Hw).
  rewrite (hour_window_in_range _ _ Hr) in Hw.
  destruct (solar h) eqn:Hs; [| discriminate].
  apply solar_spec in Hs. destruct (Hr h) as [Hu Hv].
  injection Hw as <-. cbn in E1, E2, E3, E4.
  rewrite E1, E2, E3, E4. repeat split; try lia; lra.
Qed.

(** X8. With the forecast draws in their range,
    [get_carbon_optimal_schedule] completes for every list of jobs: the
    error branch is not taken.  It reports the entries that the packing
    of the jobs into the green windows of the forecast has made and, as
    [green_windows], the windows as that packing has left them: the
    green windows in their order, each with the capacity that remains,
    between 0 and 10 when no duration is negative.  The jobs scheduled
    are a subsequence of the jobs given; each is placed in one of the
    solar hours 9 to 17 at an intensity between 200 and 300; when at
    least one job is scheduled the reduction reported is between a third
    and five ninths of the baseline (33.3 to 55.6 percent) and each job
    saves between 0.15 and 0.25 kg; when none is, savings and reduction
    are 0. *)
Theorem carbon_schedule_in_range {S} (env : CarbonEnv)
    (forecast : Forecast) (jobs : list Job) (s : S) :
  in_range forecast ->
  let green := _find_green_windows forecast jobs in
  let packing := _schedule_in_green_windows jobs green in
  exists savings,
    get_carbon_optimal_schedule env forecast jobs s
    = (Val (Completed (_get_carbon_intensity env) (fst packing) savings
              (snd packing)), s)
    /\ ScheduledEntry.job_id <$> fst packing `sublist_of` Job.id <$> jobs
    /\ Forall (fun e =>
         9 <= ScheduledEntry.scheduled_start e <= 17
         /\ ScheduledEntry.scheduled_end e
            = ScheduledEntry.scheduled_start e + 1
         /\ (200 <= ScheduledEntry.carbon_intensity e <= 300)%Q)
         (fst packing)
    /\ Forall2 same_slot green (snd packing)
    /\ (Forall (fun j => (0 <= estimated_duration_hours j)%Q) jobs ->
        Forall (fun w => (0 <= Window.capacity w <= 10)%Q) (snd packing))
    /\ (fst packing <> [] ->
        (100 / 3 <= CarbonSavings.percentage_reduction savings <= 500 / 9)%Q
        /\ (Py.len (fst packing) * (3 / 20)
            <= CarbonSavings.total_savings_kg_co2 savings
            <= Py.len (fst packing) * (1 / 4))%Q)
    /\ (fst packing = [] ->
        savings = CarbonSavings.mk 0 0 None None None).
Proof.
  intros Hr green packing.
  destruct (schedule_follows_slots jobs green) as (Hsub & Hin & Hsl).
  fold packing in Hsub, Hin, Hsl.
  assert (Hgreen : Forall (fun e =>
            9 <= ScheduledEntry.scheduled_start e <= 17
            /\ ScheduledEntry.scheduled_end e
               = ScheduledEntry.scheduled_start e + 1
            /\ (200 <= ScheduledEntry.carbon_intensity e <= 300)%Q)
            (fst packing)).
  { eapply Forall_impl; [exact Hin |]. intros e He.
    destruct (in_slot_in_range forecast jobs e Hr He)
      as (H1 & H2 & _ & H3 & _). auto. }
  assert (Hcap : Forall (fun j => (0 <= estimated_duration_hours j)%Q) jobs ->
                 Forall (fun w => (0 <= Window.capacity w <= 10)%Q)
                        (snd packing)).
  { intros Hd. pose proof (schedule_capacity jobs green Hd) as Hb.
    fold packing in Hb. apply Forall_forall. intros w' Hw'.
    apply list_elem_of_lookup in Hw' as [i Hi].
    destruct (Forall2_lookup_r _ _ _ _ _ Hb Hi) as (w & Hw & Hlo & Hhi).
    assert (Hin0 : w ∈ green) by (eapply list_elem_of_lookup_2; eassumption).
    destruct (green_window_in_range forecast jobs w Hr Hin0)
      as (_ & Ew & _).
    assert (Ec : Window.capacity w = 10%Q) by (rewrite Ew; reflexivity).
    rewrite Ec in Hlo, Hhi. split; [apply Hlo; discriminate | exact Hhi]. }
  pose proof (carbon_schedule_run env forecast jobs s) as Hrun.
  cbv zeta in Hrun. fold green in Hrun. fold packing in Hrun.
  destruct (fst packing) as [|e l] eqn:Hl.
  - exists (CarbonSavings.mk 0 0 None None None).
    split; [now apply Hrun |].
    split; [assumption | split; [constructor | split;
      [assumption | split; [assumption | split; [congruence | reflexivity]]]]].
  - assert (Hne : e :: l <> []) by discriminate.
    destruct (savings_unclamped (e :: l) s 200 300 Hne) as
      (sv & Hsv & Hm & Ht & Hp & _); [| discriminate |].
    { eapply Forall_impl; [exact Hgreen |]. simpl. tauto. }
    exists sv.
    split; [now apply Hrun |].
    split; [assumption | split; [assumption | split;
      [assumption | split; [assumption | split; [| congruence]]]]].
    intros _. pose proof (len_pos (e :: l) Hne) as Hlen.
    set (m := mean_intensity (e :: l)) in *.
    set (n := Py.len (e :: l)) in *. split.
    + rewrite Hp, percent_form.
      assert (E1 : (100 / 3 == 100 # 3)%Q) by reflexivity.
      assert (E2 : (500 / 9 == 500 # 9)%Q) by reflexivity.
      rewrite E1, E2. lra.
    + rewrite Ht.
      assert (H1 : (n * 150 <= n * (450 - m))%Q)
        by (apply Qmult_le_l; lra).
      assert (H2 : (n * (450 - m) <= n * 250)%Q)
        by (apply Qmult_le_l; lra).
      assert (E1 : (n * (3 / 20) == n * 150 / 1000)%Q) by field.
      assert (E2 : (n * (1 / 4) == n * 250 / 1000)%Q) by field.
      rewrite E1, E2.
      split; apply Qmult_le_compat_r; try assumption; discriminate.
Qed.

Lemma carbon_schedule_in_range_witness :
  let forecast := fun h : Z =>
    if h <? 12 then (-40, 5)%Q else (25, -5)%Q in
  let env := mkCarbonEnv 13 (-20) 10 "2025-06-01T13:00:00+00:00" in
  let jobs :=
    [Job.mk (Some "job1"%string) None None None (Some 2%Q)
       (Some "high"%string);
     Job.mk (Some "job2"%string) None None None (Some 1%Q)
       (Some "normal"%string)] in
  let packing :=
    _schedule_in_green_windows jobs (_find_green_windows forecast jobs) in
  exists savings,
    get_carbon_optimal_schedule env forecast jobs tt
    = (Val (Completed (_get_carbon_intensity env) (fst packing) savings
              (snd packing)), tt)
    /\ Forall (fun w => (0 <= Window.capacity w <= 10)%Q) (snd packing).
Proof.
  intros forecast env jobs packing.
  destruct (carbon_schedule_in_range env forecast jobs tt)
    as (savings & Hrun & _ & _ & _ & Hcap & _).
  - intros h. unfold forecast.
    destruct (h <? 12); simpl; repeat split; discriminate.
  - exists savings. split; [exact Hrun |]. apply Hcap.
    repeat constructor; vm_compute; discriminate.
Defined.




End CarbonScheduleFacts.


(** ** The drain loop and the simulated usage *)

Module DrainFacts.
Import WorkloadAwareScheduler QueueSpec HeapSpec UsageSpec.
Import HeapFacts QueueOrderFacts SchedulerFacts.

Lemma bump_lookup (job : Job) (m : gmap string Q) (k : string) :
  bump job m !! k
  = if String.eqb k "cpu"
    then Some (Py.min 100 (reading m "cpu" + weight job * 10)%Q)
    else if String.eqb k "memory"
    then Some (Py.min 100 (reading m "memory" + weight job * 5)%Q)
    else if String.eqb k "gpu"
    then Some (Py.min 100 (reading m "gpu" + weight job * 15)%Q)
    else None.
Proof.
  unfold bump.
  destruct (String.eqb_spec k "cpu") as [-> | H1]; [reflexivity |].
  rewrite lookup_insert_ne by congruence.
  destruct (String.eqb_spec k "memory") as [-> | H2]; [reflexivity |].
  rewrite lookup_insert_ne by congruence.
  destruct (String.eqb_spec k "gpu") as [-> | H3]; [reflexivity |].
  rewrite lookup_insert_ne by congruence. reflexivity.
Qed.

Lemma py_min_le (a x : Q) : (Py.min a x <= a)%Q /\ (Py.min a x <= x)%Q.
Proof.
  rewrite min_clamp. split; [apply Q.le_min_l | apply Q.le_min_r].
Qed.

Lemma py_min_glb (a x y : Q) : (y <= a)%Q -> (y <= x)%Q -> (y <= Py.min a x)%Q.
Proof. intros Ha Hx. rewrite min_clamp. now apply Q.min_glb. Qed.

(** X10. [_update_resource_usage] answers with exactly the three
    readings cpu, memory and gpu, whatever else the usage passed in
    held; none of them is above 100, and for a job whose weight is not
    negative none is below what it was, short of the cap of 100.  When
    one of the three readings is missing the call raises KeyError. *)
Theorem usage_update_is_capped {S} (job : Job) (m : gmap string Q) (s : S) :
  (has_usage_keys m ->
   exists m',
     _update_resource_usage job m s = (Val m', s)
     /\ (forall k, is_Some (m' !! k) <-> k ∈ usage_keys)
     /\ (forall k, (reading m' k <= 100)%Q)
     /\ ((0 <= weight job)%Q ->
         forall k, k ∈ usage_keys ->
                   (Qmin 100 (reading m k) <= reading m' k)%Q))
  /\ (~ has_usage_keys m ->
      _update_resource_usage job m s = (Exn KeyError, s)).
Proof.
  split.
  - intros Hkeys. exists (bump job m).
    split; [now apply update_usage_bump | split; [| split]].
    + intros k. rewrite bump_lookup. unfold usage_keys.
      rewrite !elem_of_cons, elem_of_nil.
      destruct (String.eqb_spec k "cpu");
        [split; [tauto | intros _; eexists; reflexivity] |].
      destruct (String.eqb_spec k "memory");
        [split; [tauto | intros _; eexists; reflexivity] |].
      destruct (String.eqb_spec k "gpu");
        [split; [tauto | intros _; eexists; reflexivity] |].
      split; [intros [x Hx]; discriminate | tauto].
    + intros k. unfold reading at 1. rewrite bump_lookup.
      repeat match goal with
             | |- context [if ?b then _ else _] => destruct b
             end; simpl; try apply py_min_le. discriminate.
    + intros Hw k Hk. unfold usage_keys in Hk.
      rewrite !elem_of_cons, elem_of_nil in Hk.
      unfold reading at 2. rewrite bump_lookup.
      destruct Hk as [-> | [-> | [-> | []]]]; simpl;
        (apply py_min_glb; [apply Q.le_min_l |]);
        match goal with
        | |- (Qmin 100 ?x <= _)%Q => pose proof (Q.le_min_r 100 x)
        end; lra.
  - intros Hno.
    unfold _update_resource_usage, mbind, M_bind, expect, raise, mret, M_ret.
    destruct (m !! "cpu") as [c|] eqn:Hc; [| reflexivity].
    destruct (m !! "memory") as [y|] eqn:Hm; [| reflexivity].
    destruct (m !! "gpu") as [g|] eqn:Hg; [| reflexivity].
    exfalso. apply Hno. repeat split; eexists; eassumption.
Qed.

Lemma usage_update_is_capped_witness :
  let job := Job.mk (Some "a"%string) None None (Some (3 # 2)) None None in
  let m := _get_current_resource_usage (Env.mk 95 50 20 0) in
  exists m',
    _update_resource_usage job m tt = (Val m', tt)
    /\ (reading m' "cpu" <= 100)%Q.
Proof.
  intros job m.
  destruct (proj1 (usage_update_is_capped job m tt))
    as (m' & Hrun & _ & Hcap & _).
  - apply usage_has_keys.
  - exists m'. split; [exact Hrun | apply Hcap].
Defined.

(** One passage through the loop, with the usage it leaves. *)
Lemma drain_body_trace (q : queue) (l : locals) :
  q <> [] -> heap_ordered key_le q -> comparable entry_lt q ->
  has_usage_keys (current_metrics l) ->
  exists x q1,
    drain_body (q, l)
    = (Val tt, (q1, mkLocals (executed_jobs l ++ [report x])
                      (bump (entry_job x) (current_metrics l))))
    /\ q ≡ₚ x :: q1
    /\ heap_ordered key_le q1.
Proof.
  intros Hne Hord Hcmp Hkeys.
  destruct (heappop_total entry_lt q Hne Hcmp) as (x & q1 & Hpop).
  destruct (heappop_ordered entry_lt key_le key_le_trans
              entry_lt_true entry_lt_false q x q1 Hord Hpop) as [_ Hord1].
  pose proof (heappop_perm entry_lt q x q1 Hpop) as Hperm.
  destruct x as [[priority job_id] job].
  exists (priority, job_id, job), q1.
  split; [| split; assumption].
  unfold drain_body, try_except, mbind, M_bind, on_self, get_nowait.
  cbn [fst snd]. rewrite Hpop.
  unfold read_locals, write_locals.
  cbn [fst snd executed_jobs current_metrics].
  rewrite (update_usage_bump job (current_metrics l) _ Hkeys).
  reflexivity.
Qed.

(** The loop runs a job exactly as long as the queue is not empty and
    the usage left by the jobs run so far is admitted. *)
Lemma drain_trace (fuel : nat) (config : Config.t) (q : queue) (l : locals) :
  (length q < fuel)%nat ->
  heap_ordered key_le q -> comparable entry_lt q ->
  has_usage_keys (current_metrics l) ->
  exists popped q',
    drain fuel config (q, l)
    = (Val tt, (q', mkLocals (executed_jobs l ++ (report <$> popped))
                      (usage_after (current_metrics l) popped)))
    /\ q ≡ₚ popped ++ q'
    /\ heap_ordered key_le q'
    /\ (forall k, (k < length popped)%nat ->
          _can_execute_job config
            (usage_after (current_metrics l) (take k popped)) = true)
    /\ (q' = []
        \/ _can_execute_job config
             (usage_after (current_metrics l) popped) = false).
Proof.
  revert q l. induction fuel as [|fuel IH]; intros q l Hfuel Hord Hcmp Hkeys;
    [lia |].
  cbn [drain]. unfold mbind, M_bind, read. cbn [fst snd].
  destruct (negb (empty q)
            && _can_execute_job config (current_metrics l)) eqn:Hguard.
  - apply andb_true_iff in Hguard as [Hne Hcan].
    apply negb_true_iff, empty_false in Hne.
    destruct (drain_body_trace q l Hne Hord Hcmp Hkeys)
      as (x & q1 & Hbody & Hperm & Hord1).
    rewrite Hbody.
    assert (Hlen : length q = S (length q1)) by now rewrite Hperm.
    assert (Hcmp1 : comparable entry_lt q1).
    { intros a b Ha Hb. apply Hcmp; rewrite Hperm;
        now apply list_elem_of_further. }
    destruct (IH q1 (mkLocals (executed_jobs l ++ [report x])
                       (bump (entry_job x) (current_metrics l)))
                ltac:(lia) Hord1 Hcmp1 (bump_has_keys _ _))
      as (popped & q' & Hrun & Hperm' & Hord' & Hadm & Hstop).
    cbn [executed_jobs current_metrics] in Hrun, Hadm, Hstop.
    exists (x :: popped), q'.
    split; [| split; [| split; [exact Hord' | split]]].
    + rewrite Hrun, fmap_cons, <- app_assoc. reflexivity.
    + rewrite Hperm, Hperm'. reflexivity.
    + intros [|k] Hk; [exact Hcan |]. simpl in Hk. apply Hadm. lia.
    + exact Hstop.
  - exists [], q.
    split; [| split; [reflexivity | split; [exact Hord | split]]].
    + destruct l. cbn [executed_jobs current_metrics fmap list_fmap].
      now rewrite app_nil_r.
    + intros k Hk. simpl in Hk. lia.
    + apply andb_false_iff in Hguard as [Hq|Hcan]; [left | now right].
      apply negb_false_iff, empty_true in Hq. exact Hq.
Qed.

(** One call of [schedule_job], with the usage that the loop has seen. *)
Lemma schedule_job_trace
    (config : Config.t) (env : Env.t) (job : Job) (q : queue) :
  heap_ordered key_le q ->
  comparable entry_lt (q ++ [new_entry env job]) ->
  exists popped q',
    schedule_job config env job q
    = (Val (Scheduled (entry_id (new_entry env job))
              (entry_priority (new_entry env job)) (length q')
              (ExecutionResult.mk (length popped) (report <$> popped)
                                  (length q'))), q')
    /\ q ++ [new_entry env job] ≡ₚ popped ++ q'
    /\ heap_ordered key_le q'
    /\ (forall k, (k < length popped)%nat ->
          _can_execute_job config
            (usage_after (_get_current_resource_usage env) (take k popped))
          = true)
    /\ (q' = []
        \/ _can_execute_job config
             (usage_after (_get_current_resource_usage env) popped) = false).
Proof.
  intros Hord Hcmp. set (e := new_entry env job) in *.
  destruct (heappush_total entry_lt e q Hcmp) as [q0 Hpush].
  pose proof (heappush_ordered entry_lt key_le key_le_trans entry_lt_true
                entry_lt_false e q q0 Hord Hpush) as Hord0.
  pose proof (heappush_perm entry_lt e q) as Hperm0.
  rewrite Hpush in Hperm0. cbn [snd] in Hperm0.
  pose proof (comparable_perm entry_lt _ _ Hperm0 Hcmp) as Hcmp0.
  destruct (drain_trace (S (length q0)) config q0
              (mkLocals [] (_get_current_resource_usage env))
              ltac:(lia) Hord0 Hcmp0 (usage_has_keys env))
    as (popped & q' & Hdrain & Hperm & Hord' & Hadm & Hstop).
  cbn [executed_jobs current_metrics app] in Hdrain, Hadm, Hstop.
  exists popped, q'.
  split; [| split; [now rewrite <- Hperm0 | split; [assumption |
    split; assumption]]].
  unfold schedule_job, try_except, mbind, M_bind, put.
  fold (new_entry env job). fold e. rewrite Hpush.
  unfold _try_execute_jobs, with_locals, mbind, M_bind, read.
  rewrite Hdrain. cbn [fst snd executed_jobs mret M_ret qsize].
  rewrite length_fmap. reflexivity.
Qed.









(** X13. On an empty queue a job that is admitted is executed in the
    same call: one job executed, nothing left, position 0.  A job
    without an id is then reported under the id made from the clock,
    while the output of its execution names it "unknown". *)
Theorem idle_scheduler_runs_the_job_at_once
    (config : Config.t) (env : Env.t) (job : Job) :
  _can_execute_job config (_get_current_resource_usage env) = true ->
  let e := new_entry env job in
  schedule_job config env job []
  = (Val (Scheduled (entry_id e) (entry_priority e) 0
            (ExecutionResult.mk 1 [report e] 0)), [])
  /\ (Job.id job = None ->
      Executed.job_id (report e) = "job_" +:+ pretty (Env.time env)
      /\ JobResult.output (Executed.result (report e))
         = "Result for unknown"%string).
Proof.
  intros Hcan e. split.
  - destruct (schedule_job_trace config env job [])
      as (popped & q' & Hrun & Hperm & _ & _ & Hstop).
    + intros i Hi x y Hx Hy. discriminate.
    + apply distinct_ids_comparable, NoDup_singleton.
    + simpl in Hperm. apply Permutation_singleton_l in Hperm.
      destruct popped as [|x popped].
      * simpl in Hperm. subst q'.
        destruct Hstop as [Hq|Hno]; [discriminate |].
        simpl in Hno. congruence.
      * simpl in Hperm. injection Hperm as Hx Hrest. subst x.
        symmetry in Hrest. apply app_eq_nil in Hrest as [-> ->].
        exact Hrun.
  - intros Hid. subst e.
    unfold report, new_entry, entry_id, entry_job, _execute_job. simpl.
    rewrite Hid. split; reflexivity.
Qed.

Lemma idle_scheduler_runs_the_job_at_once_witness :
  let job := Job.mk None (Some "training"%string) None None None None in
  let env := Env.mk 10 10 20 1700000000 in
  fst (schedule_job (Config.mk None) env job [])
  = Val (Scheduled "job_1700000000" 150 0
           (ExecutionResult.mk 1 [report (new_entry env job)] 0)).
Proof.
  intros job env.
  destruct (idle_scheduler_runs_the_job_at_once (Config.mk None) env job)
    as [Hrun _]; [reflexivity |].
  rewrite Hrun. reflexivity.
Defined.

(** X14. Two entries with the same priority and the same job id but
    different descriptors cannot be compared: when the entry above the
    place of the new one in the heap is such an entry (two jobs without
    id scheduled within the same second, say), the call answers that
    the job is not scheduled, with a TypeError, and yet leaves the new
    entry in the queue. *)
Theorem colliding_ids_fail_but_enqueue
    (config : Config.t) (env : Env.t) (job : Job) (q : queue) (e0 : Entry) :
  q !! parent (length q) = Some e0 ->
  entry_priority e0 = _calculate_job_priority job ->
  entry_id e0 = entry_id (new_entry env job) ->
  job_eqb job (entry_job e0) = false ->
  schedule_job config env job q
  = (Val (NotScheduled TypeError), q ++ [new_entry env job]).
Proof.
  intros Hparent Hprio Hid Hjob.
  assert (Hlt : (parent (length q) < length q)%nat)
    by (eapply lookup_lt_Some; eassumption).
  unfold schedule_job, try_except, mbind, M_bind, put, heapq.heappush, read,
    write.
  fold (new_entry env job). set (e := new_entry env job) in *.
  cbn [heapq.siftdown]. unfold mbind, M_bind, read, expect.
  replace (0 <? length q)%nat with true
    by (symmetry; apply Nat.ltb_lt; lia).
  rewrite list_lookup_middle by reflexivity.
  fold (parent (length q)).
  rewrite lookup_app_l by assumption. rewrite Hparent.
  assert (Hcmp : entry_lt e e0 = None).
  { destruct e0 as [[p0 id0] j0]. unfold e, new_entry in *.
    unfold entry_priority, entry_id, entry_job in *. simpl in *.
    subst p0 id0. rewrite Z.eqb_refl, String.eqb_refl. simpl.
    now rewrite Hjob. }
  unfold mret, M_ret. rewrite Hcmp. reflexivity.
Qed.

Lemma colliding_ids_fail_but_enqueue_witness :
  let job w := Job.mk None None None (Some w) None None in
  let busy := Env.mk 95 50 50 1700000000 in
  let q : queue := [new_entry busy (job 1%Q)] in
  schedule_job (Config.mk None) busy (job 2%Q) q
  = (Val (NotScheduled TypeError), q ++ [new_entry busy (job 2%Q)]).
Proof.
  intros job busy q.
  apply (colliding_ids_fail_but_enqueue (Config.mk None) busy (job 2%Q) q
           (new_entry busy (job 1%Q))); reflexivity.
Defined.

(** *** A sequence of calls *)

Lemma report_id (popped : list Entry) :
  Executed.job_id <$> (report <$> popped) = entry_id <$> popped.
Proof. rewrite <- list_fmap_compose. reflexivity. Qed.

Lemma calls_conserve_jobs (config : Config.t) (calls : list (Env.t * Job))
    (q : queue) :
  heap_ordered key_le q ->
  NoDup ((entry_id <$> q) ++ call_ids calls) ->
  execution_order config calls q
    ++ (entry_id <$> queue_after config calls q)
  ≡ₚ (entry_id <$> q) ++ call_ids calls.
Proof.
  revert q. induction calls as [|[env job] calls IH]; intros q Hord Hnd.
  - simpl. unfold call_ids. simpl. now rewrite app_nil_r.
  - assert (Hsplit : (entry_id <$> q) ++ call_ids ((env, job) :: calls)
                     = (entry_id <$> (q ++ [new_entry env job]))
                       ++ call_ids calls).
    { rewrite fmap_app, <- app_assoc. reflexivity. }
    rewrite Hsplit in *.
    destruct (schedule_job_order config env job q Hord)
      as (popped & q' & Hrun & Hperm & _ & _ & _ & Hord' & _).
    { now apply NoDup_app in Hnd as [Hnd _]. }
    cbn [execution_order queue_after]. rewrite Hrun.
    cbn [executed_ids snd ExecutionResult.executed_jobs].
    rewrite report_id.
    assert (Hids : (entry_id <$> (q ++ [new_entry env job]))
                   ≡ₚ (entry_id <$> popped) ++ (entry_id <$> q'))
      by now rewrite Hperm, fmap_app.
    rewrite Hids in *. rewrite <- !app_assoc in *.
    apply Permutation_app_head, IH; [exact Hord' |].
    now apply NoDup_app in Hnd as (_ & _ & Hnd).
Qed.

(** X21. Over any sequence of calls of [schedule_job] with pairwise
    different job ids, starting from the empty queue, each call run on
    its own: the ids of the jobs executed so far and the ids of the
    entries still queued are together exactly the ids of the jobs
    submitted.  No job is executed twice, none is both executed and
    still queued, and none disappears. *)
Theorem every_job_is_executed_once_or_queued
    (config : Config.t) (calls : list (Env.t * Job)) :
  NoDup (call_ids calls) ->
  let executed := execution_order config calls [] in
  let queued := entry_id <$> queue_after config calls [] in
  executed ++ queued ≡ₚ call_ids calls
  /\ NoDup executed
  /\ NoDup queued
  /\ (forall id, id ∈ executed -> id ∉ queued)
  /\ (length executed + length queued = length calls)%nat.
Proof.
  intros Hnd executed queued.
  assert (Hperm : executed ++ queued ≡ₚ call_ids calls).
  { subst executed queued.
    apply (calls_conserve_jobs config calls []); [| exact Hnd].
    intros i Hi x y Hx Hy. discriminate. }
  assert (Hnd' : NoDup (executed ++ queued)) by now rewrite Hperm.
  apply NoDup_app in Hnd' as (H1 & H2 & H3).
  split; [exact Hperm | split; [exact H1 | split; [exact H3 | split;
    [exact H2 |]]]].
  apply Permutation_length in Hperm.
  rewrite length_app in Hperm. unfold call_ids in Hperm.
  now rewrite length_fmap in Hperm.
Qed.

Lemma every_job_is_executed_once_or_queued_witness :
  let job k := Job.mk (Some k) None None None None None in
  let busy := Env.mk 95 50 50 0 in
  let idle := Env.mk 10 10 20 0 in
  let calls :=
    [(busy, job "b"%string); (busy, job "a"%string); (idle, job "c"%string)] in
  NoDup (execution_order (Config.mk None) calls []).
Proof.
  intros job busy idle calls.
  refine (proj1 (proj2
    (every_job_is_executed_once_or_queued (Config.mk None) calls _))).
  apply (bool_decide_unpack _). vm_compute. exact I.
Defined.

End DrainFacts.


(** ** Prediction, confidence and recommendations *)

Module OrchestratorFacts.
Import FloatFacts.
Import NeuralResourceOrchestrator MonitorSpec PredictSpec ResourceSpec.
Import CarbonSavingsFacts MonitorFacts PredictFacts.

(** *** Recommendations *)

(** Membership in a list that is written out. *)
Ltac not_listed H :=
  repeat (apply elem_of_cons in H as [H|H]; [discriminate |]);
  inversion H.

Ltac listed :=
  rewrite ?elem_of_cons;
  first [ now left | right; now left | right; right; now left ].

Ltac by_thresholds :=
  first [ lra | left; lra | right; lra
        | repeat split; lra ].

Ltac listed_iff :=
  let H := fresh "H" in
  split; intros H;
  [ first [ by_thresholds | exfalso; not_listed H ]
  | first [ listed | exfalso; by_thresholds
          | exfalso; destruct H; by_thresholds ] ].

(** X15. The recommendations follow the thresholds and nothing else:
    one for the CPU exactly when the predicted usage is above 85 or
    below 30 (to scale up in the first case, down in the second, never
    both), one for the memory exactly when it is above 90, one for the
    GPU exactly when it is above 80, in this order; a prediction at a
    threshold gives none, and there is never a recommendation for the
    storage. *)
Theorem recommendations_follow_the_thresholds (p : Predicted.t) :
  let rs := _generate_resource_recommendations p in
  let cpu := Predicted.cpu_usage p in
  resources rs `sublist_of` ["CPU"; "Memory"; "GPU"]%string
  /\ ("CPU"%string ∈ resources rs <-> (85 < cpu \/ cpu < 30)%Q)
  /\ ("Memory"%string ∈ resources rs <-> (90 < Predicted.memory_usage p)%Q)
  /\ ("GPU"%string ∈ resources rs <-> (80 < Predicted.gpu_usage p)%Q)
  /\ (forall r, r ∈ rs -> Recommendation.resource r = "CPU"%string ->
        Recommendation.action r
        = if Py.ltb 85 cpu then "scale_up"%string else "scale_down"%string)
  /\ (rs = []
      <-> (30 <= cpu <= 85 /\ Predicted.memory_usage p <= 90
           /\ Predicted.gpu_usage p <= 80)%Q).
Proof.
  intros rs cpu. subst rs cpu. unfold _generate_resource_recommendations.
  destruct p as [cpu mem gpu sto]. cbn [Predicted.cpu_usage
    Predicted.memory_usage Predicted.gpu_usage].
  destruct (Py.ltb 85 cpu) eqn:H1;
    [apply ltb_spec in H1 | apply ltb_nspec in H1];
    (destruct (Py.ltb cpu 30) eqn:H2;
      [apply ltb_spec in H2 | apply ltb_nspec in H2]);
    (destruct (Py.ltb 90 mem) eqn:H3;
      [apply ltb_spec in H3 | apply ltb_nspec in H3]);
    (destruct (Py.ltb 80 gpu) eqn:H4;
      [apply ltb_spec in H4 | apply ltb_nspec in H4]);
    try (exfalso; lra);
    cbn [app resources fmap list_fmap Recommendation.resource];
    (split; [repeat first [apply sublist_nil_l | apply sublist_skip
                          | apply sublist_cons] |]);
    (split; [listed_iff |]); (split; [listed_iff |]);
    (split; [listed_iff |]);
    (split;
      [ let r := fresh "r" in let Hr := fresh "Hr" in
        intros r Hr Hres;
        repeat (apply elem_of_cons in Hr as [->|Hr];
                [first [reflexivity | discriminate] |]);
        inversion Hr
      | let H := fresh "H" in
        split; intros H;
        [ first [discriminate | repeat split; lra]
        | first [reflexivity | exfalso; lra
                | exfalso; destruct H as ([? ?] & ? & ?); lra] ] ]).
Qed.

(** *** Confidence *)

Lemma sum_zero (ys : list Q) :
  Forall (fun y => (y == 0)%Q) ys -> (Py.sum ys == 0)%Q.
Proof.
  induction 1 as [|y ys Hy _ IH].
  - reflexivity.
  - cbv beta in Hy. rewrite sum_cons, Hy, IH. reflexivity.
Qed.

Lemma sum_same (c : Q) (xs : list Q) :
  Forall (fun x => (x == c)%Q) xs -> (Py.sum xs == Py.len xs * c)%Q.
Proof.
  induction 1 as [|x xs Hx _ IH].
  - unfold Py.len, Py.sum. simpl. change (inject_Z (Z.of_nat 0)) with 0%Q.
    ring.
  - cbv beta in Hx. rewrite sum_cons, IH. unfold Py.len. simpl length.
    rewrite Hx, Nat2Z.inj_succ. unfold Z.succ. rewrite inject_Z_plus.
    change (inject_Z 1) with 1%Q. ring.
Qed.

(** The variance of readings that are all the same is zero. *)
Lemma var_steady (c : Q) (xs : list Q) :
  xs <> [] -> Forall (fun x => (x == c)%Q) xs ->
  exists v, np.var xs = Some v /\ (v == 0)%Q.
Proof.
  intros Hne Hall. pose proof (len_pos xs Hne) as Hlen.
  unfold np.var, np.mean. destruct xs as [|x xs]; [congruence |].
  set (l := x :: xs) in *. set (m := (Py.sum l / Py.len l)%Q).
  assert (Hm : (m == c)%Q).
  { subst m. rewrite (sum_same c l Hall). field. lra. }
  destruct (map (fun y => ((y - m) * (y - m))%Q) l) as [|d ds] eqn:Hd;
    [discriminate |].
  eexists. split; [reflexivity |]. rewrite <- Hd.
  rewrite sum_zero; [unfold Qdiv; ring |].
  apply Forall_map, Forall_forall. intros y Hy. simpl.
  rewrite Forall_forall in Hall. rewrite (Hall y Hy), Hm. ring.
Qed.

Lemma confidence_value (h : history) :
  (50 <= length h)%nat ->
  exists v,
    np.var (map ResourceMetrics.cpu_usage (Py.last_n 20 h)) = Some v
    /\ _calculate_prediction_confidence h
       = (Val (Py.min (95 # 100) (Py.max (5 # 10) (1 - v / 1000))), h).
Proof.
  intros Hlen.
  unfold _calculate_prediction_confidence, mbind, M_bind, read.
  replace (length h <? 50)%nat with false
    by (symmetry; apply Nat.ltb_ge; lia).
  pose proof (last_n_length 20 h) as Hl.
  destruct (Py.last_n 20 h) as [|m l]; cbn [length] in Hl; [lia |].
  eexists. split; reflexivity.
Qed.

Lemma clamped_confidence (x : Q) :
  (5 # 10 <= Py.min (95 # 100) (Py.max (5 # 10) x) <= 95 # 100)%Q.
Proof.
  rewrite min_clamp, max_clamp. split.
  - apply Q.min_glb; [discriminate | apply Q.le_max_l].
  - apply Q.le_min_l.
Qed.

(** X16. The confidence is always a value between 0.5 and 0.95: it is
    0.6 as long as the history holds fewer than fifty samples, whatever
    they are, and with fifty or more it is 0.95 whenever the cpu
    readings of the last twenty samples are all the same.  The history
    is not changed. *)
Theorem confidence_is_bounded (h : history) :
  exists c,
    _calculate_prediction_confidence h = (Val c, h)
    /\ (5 # 10 <= c <= 95 # 100)%Q
    /\ ((length h < 50)%nat -> c = (6 # 10)%Q)
    /\ ((50 <= length h)%nat -> steady_cpu h -> (c == 95 # 100)%Q).
Proof.
  destruct (le_lt_dec 50 (length h)) as [Hlen|Hlen].
  - destruct (confidence_value h Hlen) as (v & Hv & Hrun).
    eexists. split; [exact Hrun | split; [apply clamped_confidence |
      split; [lia |]]].
    intros _ [c0 Hsteady].
    destruct (var_steady c0
                (map ResourceMetrics.cpu_usage (Py.last_n 20 h)))
      as (v' & Hv' & Hzero).
    + pose proof (last_n_length 20 h) as Hl.
      destruct (Py.last_n 20 h); cbn [length] in Hl; [lia | discriminate].
    + now apply Forall_map.
    + rewrite Hv in Hv'. injection Hv' as <-.
      rewrite min_clamp, max_clamp, Hzero.
      assert (E : (Qmax (5 # 10) (1 - 0 / 1000) == 1)%Q) by reflexivity.
      rewrite E. reflexivity.
  - exists (6 # 10)%Q.
    split; [| split; [split; discriminate | split; [reflexivity | lia]]].
    unfold _calculate_prediction_confidence, mbind, M_bind, read.
    now replace (length h <? 50)%nat with true
      by (symmetry; apply Nat.ltb_lt; lia).
Qed.

Lemma confidence_is_bounded_witness :
  let m := ResourceMetrics.mk 50 40 30 20 1000 (datetime.mk 0 0) in
  exists c,
    _calculate_prediction_confidence (replicate 50 m)
    = (Val c, replicate 50 m)
    /\ (c == 95 # 100)%Q.
Proof.
  intros m.
  destruct (confidence_is_bounded (replicate 50 m))
    as (c & Hrun & _ & _ & Hsteady).
  exists c. split; [exact Hrun |]. apply Hsteady.
  - rewrite length_replicate. lia.
  - exists 50%Q. vm_compute. repeat constructor.
Defined.

(** *** The prediction against the latest sample *)

Lemma percent_mono (x y : Q) : (x <= y)%Q -> (percent x <= percent y)%Q.
Proof.
  intros H. unfold percent.
  apply Q.max_le_compat_l, Q.min_le_compat_l, fl_mono.
  apply Qmult_le_compat_r; [exact H | discriminate].
Qed.

Lemma percent_comp (x y : Q) : (x == y)%Q -> (percent x == percent y)%Q.
Proof.
  intros E. apply Qle_antisym; apply percent_mono; rewrite E; apply Qle_refl.
Qed.

Lemma predicted_projection (r : resource) (h : history) (horizon : Z) :
  (predicted r (predicted_usage h horizon)
   == percent (projection (measured r) h horizon))%Q.
Proof. destruct r; apply clamp_percent_spec. Qed.

Lemma scale_mono (near far : Z) : near <= far -> (scale near <= scale far)%Q.
Proof.
  intros H. apply fl_mono. apply Qmult_le_compat_r; [| discriminate].
  now rewrite <- Zle_Qle.
Qed.

Lemma scale_nonneg (horizon : Z) : 0 <= horizon -> (0 <= scale horizon)%Q.
Proof. intros H. apply (scale_mono 0 horizon H). Qed.

(** The sign of the mean follows the signs of the values. *)
Lemma mean_nonneg (l : list Q) :
  Forall (fun d => (0 <= d)%Q) l -> (0 <= mean l)%Q.
Proof.
  intros [|d ds Hd Hds]; [apply Qle_refl |]. unfold mean.
  apply fl_nonneg. apply Qle_shift_div_l.
  - pose proof (len_pos (d :: ds) ltac:(discriminate)). assumption.
  - rewrite Qmult_0_l. revert d Hd.
    induction Hds as [|x ds Hx _ IH]; intros d Hd; [exact Hd |].
    apply IH. apply fl_nonneg. lra.
Qed.

Lemma mean_nonpos (l : list Q) :
  Forall (fun d => (d <= 0)%Q) l -> (mean l <= 0)%Q.
Proof.
  intros [|d ds Hd Hds]; [apply Qle_refl |]. unfold mean.
  apply fl_nonpos. apply Qle_shift_div_r.
  - pose proof (len_pos (d :: ds) ltac:(discriminate)). assumption.
  - rewrite Qmult_0_l. revert d Hd.
    induction Hds as [|x ds Hx _ IH]; intros d Hd; [exact Hd |].
    apply IH. apply fl_nonpos. lra.
Qed.

Lemma last_n_fmap {A B} (f : A -> B) (n : nat) (l : list A) :
  Py.last_n n (map f l) = map f (Py.last_n n l).
Proof. unfold Py.last_n. rewrite length_map. symmetry. apply fmap_drop. Qed.

(** The differences of the series, against the readings. *)
Lemma first_differences_lookup (field : ResourceMetrics.t -> Q)
    (ms : list ResourceMetrics.t) (i : nat) (d : Q) :
  first_differences (series field ms) !! i = Some d ->
  exists a b,
    (field <$> ms) !! i = Some a /\ (field <$> ms) !! S i = Some b
    /\ d = Py.fl (Py.fl (b / 100) - Py.fl (a / 100)).
Proof.
  unfold first_differences, series. rewrite lookup_zip_with, lookup_drop.
  change (map ?f ms) with (f <$> ms). rewrite !list_lookup_fmap.
  change (1 + i)%nat with (S i).
  destruct (ms !! S i) as [mb|]; [| discriminate].
  destruct (ms !! i) as [ma|]; [| discriminate].
  simpl. intros [= <-]. eauto.
Qed.

Lemma trend_nonneg (r : resource) (h : history) :
  never_falls (last_five r h) ->
  (0 <= mean_first_difference (Py.last_n 5 (series (measured r) h)))%Q.
Proof.
  intros Hup. unfold mean_first_difference, series.
  rewrite last_n_fmap. apply mean_nonneg, Forall_lookup. intros i d Hd.
  apply first_differences_lookup in Hd as (a & b & Ha & Hb & ->).
  specialize (Hup i a b Ha Hb).
  assert (H : (Py.fl (a / 100) <= Py.fl (b / 100))%Q).
  { apply fl_mono. apply Qmult_le_compat_r; [exact Hup | discriminate]. }
  apply fl_nonneg. lra.
Qed.

Lemma trend_nonpos (r : resource) (h : history) :
  never_rises (last_five r h) ->
  (mean_first_difference (Py.last_n 5 (series (measured r) h)) <= 0)%Q.
Proof.
  intros Hup. unfold mean_first_difference, series.
  rewrite last_n_fmap. apply mean_nonpos, Forall_lookup. intros i d Hd.
  apply first_differences_lookup in Hd as (a & b & Ha & Hb & ->).
  specialize (Hup i a b Ha Hb).
  assert (H : (Py.fl (b / 100) <= Py.fl (a / 100))%Q).
  { apply fl_mono. apply Qmult_le_compat_r; [exact Hup | discriminate]. }
  apply fl_nonpos. lra.
Qed.

Lemma never_falls_cons (a b : Q) (xs : list Q) :
  (a <= b)%Q -> never_falls (b :: xs) -> never_falls (a :: b :: xs).
Proof.
  intros Hab Hxs [|i] x y Hx Hy; simpl in Hx, Hy.
  - congruence.
  - apply (Hxs i x y Hx Hy).
Qed.

Lemma never_rises_cons (a b : Q) (xs : list Q) :
  (b <= a)%Q -> never_rises (b :: xs) -> never_rises (a :: b :: xs).
Proof.
  intros Hab Hxs [|i] x y Hx Hy; simpl in Hx, Hy.
  - congruence.
  - apply (Hxs i x y Hx Hy).
Qed.

Lemma never_falls_one (a : Q) : never_falls [a].
Proof. intros [|i] x y Hx Hy; discriminate. Qed.

Lemma never_rises_one (a : Q) : never_rises [a].
Proof. intros [|i] x y Hx Hy; discriminate. Qed.

Lemma Qmult_le_l_weak (t a b : Q) :
  (0 <= t)%Q -> (a <= b)%Q -> (t * a <= t * b)%Q.
Proof.
  intros Ht Hab. rewrite (Qmult_comm t a), (Qmult_comm t b).
  now apply Qmult_le_compat_r.
Qed.

(** The projection as a function of the scale. *)
Lemma projection_mono (field : ResourceMetrics.t -> Q) (h : history)
    (near far : Z) :
  (0 <= mean_first_difference (Py.last_n 5 (series field h)))%Q ->
  near <= far ->
  (projection field h near <= projection field h far)%Q.
Proof.
  intros Ht Hle. unfold projection. pose proof (scale_mono near far Hle) as Hs.
  apply fl_mono. apply Qplus_le_r. apply fl_mono.
  now apply Qmult_le_l_weak.
Qed.

Lemma projection_anti (field : ResourceMetrics.t -> Q) (h : history)
    (near far : Z) :
  (mean_first_difference (Py.last_n 5 (series field h)) <= 0)%Q ->
  near <= far ->
  (projection field h far <= projection field h near)%Q.
Proof.
  intros Ht Hle. unfold projection. pose proof (scale_mono near far Hle) as Hs.
  apply fl_mono. apply Qplus_le_r. apply fl_mono.
  set (t := mean_first_difference _) in *.
  assert (H : ((- t) * scale near <= (- t) * scale far)%Q)
    by (apply Qmult_le_l_weak; lra).
  lra.
Qed.

(** The latest value of the series. *)
Lemma series_last (field : ResourceMetrics.t -> Q) (h : history)
    (latest : ResourceMetrics.t) :
  last h = Some latest ->
  default 0%Q (last (series field h)) = Py.fl (field latest / 100).
Proof.
  intros Hl. apply last_Some in Hl as [front ->].
  unfold series. rewrite map_app. simpl. now rewrite last_snoc.
Qed.

Lemma projection_above (field : ResourceMetrics.t -> Q) (h : history)
    (horizon : Z) (latest : ResourceMetrics.t) :
  last h = Some latest ->
  (0 <= mean_first_difference (Py.last_n 5 (series field h))
        * scale horizon)%Q ->
  (Py.fl (field latest / 100) <= projection field h horizon)%Q.
Proof.
  intros Hl Hp. unfold projection. rewrite (series_last field h latest Hl).
  apply (Qle_trans _ (Py.fl (Py.fl (field latest / 100))));
    [rewrite fl_idem; apply Qle_refl |].
  apply fl_mono. pose proof (fl_nonneg _ Hp). lra.
Qed.

Lemma projection_below (field : ResourceMetrics.t -> Q) (h : history)
    (horizon : Z) (latest : ResourceMetrics.t) :
  last h = Some latest ->
  (mean_first_difference (Py.last_n 5 (series field h))
   * scale horizon <= 0)%Q ->
  (projection field h horizon <= Py.fl (field latest / 100))%Q.
Proof.
  intros Hl Hp. unfold projection. rewrite (series_last field h latest Hl).
  apply (Qle_trans _ (Py.fl (Py.fl (field latest / 100))));
    [| rewrite fl_idem; apply Qle_refl].
  apply fl_mono. pose proof (fl_nonpos _ Hp). lra.
Qed.

(** X17. With ten samples or more, the usage predicted for a resource
    follows the direction of its last five readings, for the horizons
    whose quotient by 30 a float can hold.  When no reading of the five
    is below the one before it, a longer horizon never lowers the
    prediction, and for a horizon that is not negative the prediction is
    at least the percentage of the latest reading (the reading over 100,
    times 100, both rounded, and clamped to 0 and 100).  When none is
    above the one before it, a longer horizon never raises the
    prediction, and for a horizon that is not negative it is at most
    that percentage.  When the five readings are equal the prediction
    is that percentage on every horizon. *)
Theorem prediction_keeps_the_direction_of_the_trend
    (h : history) (near far : Z) (latest : ResourceMetrics.t) :
  (10 <= length h)%nat ->
  last h = Some latest ->
  horizon_in_range near -> horizon_in_range far -> near <= far ->
  exists usage_near usage_far confidence,
    predict_resource_needs near h
    = (Val (Prediction near usage_near
              (_generate_resource_recommendations usage_near) confidence), h)
    /\ predict_resource_needs far h
       = (Val (Prediction far usage_far
                 (_generate_resource_recommendations usage_far) confidence),
          h)
    /\ forall r,
         let now := percent (Py.fl (measured r latest / 100)) in
         (never_falls (last_five r h) ->
          (predicted r usage_near <= predicted r usage_far)%Q
          /\ (0 <= near -> (now <= predicted r usage_near)%Q))
         /\ (never_rises (last_five r h) ->
             (predicted r usage_far <= predicted r usage_near)%Q
             /\ (0 <= near -> (predicted r usage_near <= now)%Q))
         /\ (never_falls (last_five r h) -> never_rises (last_five r h) ->
             (predicted r usage_near == now)%Q
             /\ (predicted r usage_far == now)%Q).
Proof.
  intros Hlen Hlast Hnear Hfar Hle.
  destruct (predict_runs h near Hlen Hnear) as (c & Hc & Hrun1).
  destruct (predict_runs h far Hlen Hfar) as (c' & Hc' & Hrun2).
  assert (c' = c) by congruence. subst c'.
  exists (predicted_usage h near), (predicted_usage h far), c.
  split; [exact Hrun1 | split; [exact Hrun2 |]].
  intros r now. subst now. rewrite !predicted_projection.
  set (t := mean_first_difference (Py.last_n 5 (series (measured r) h))).
  assert (Hflat : (t == 0)%Q -> forall horizon,
            (percent (projection (measured r) h horizon)
             == percent (Py.fl (measured r latest / 100)))%Q).
  { intros Et horizon. apply percent_comp.
    apply Qle_antisym;
      [apply projection_below | apply projection_above];
      try exact Hlast; fold t; rewrite Et, Qmult_0_l; apply Qle_refl. }
  split; [| split].
  - intros Hup. pose proof (trend_nonneg r h Hup) as Ht. fold t in Ht.
    split.
    + apply percent_mono, projection_mono; assumption.
    + intros H0. apply percent_mono, projection_above; [exact Hlast |].
      fold t. apply Qmult_le_0_compat; [exact Ht | now apply scale_nonneg].
  - intros Hdown. pose proof (trend_nonpos r h Hdown) as Ht. fold t in Ht.
    split.
    + apply percent_mono, projection_anti; assumption.
    + intros H0. apply percent_mono, projection_below; [exact Hlast |].
      fold t. pose proof (scale_nonneg near H0) as Hs.
      assert (H : (0 <= (- t) * scale near)%Q)
        by (apply Qmult_le_0_compat; lra).
      lra.
  - intros Hup Hdown.
    pose proof (trend_nonneg r h Hup) as Ht1.
    pose proof (trend_nonpos r h Hdown) as Ht2. fold t in Ht1, Ht2.
    assert (Et : (t == 0)%Q) by (apply Qle_antisym; assumption).
    split; apply Hflat, Et.
Qed.

Lemma prediction_keeps_the_direction_of_the_trend_witness :
  let m c := ResourceMetrics.mk c 40 30 20 1000 (datetime.mk 0 0) in
  let h := map (fun k => m (inject_Z (Z.of_nat k))) (seq 0 10) in
  exists usage_near usage_far confidence,
    predict_resource_needs 30 h
    = (Val (Prediction 30 usage_near
              (_generate_resource_recommendations usage_near) confidence), h)
    /\ predict_resource_needs 60 h
       = (Val (Prediction 60 usage_far
                 (_generate_resource_recommendations usage_far) confidence),
          h)
    /\ (Predicted.cpu_usage usage_near <= Predicted.cpu_usage usage_far)%Q
    /\ (Predicted.memory_usage usage_near == percent (Py.fl (40 / 100)))%Q.
Proof.
  intros m h.
  destruct (prediction_keeps_the_direction_of_the_trend h 30 60 (m 9%Q))
    as (u1 & u2 & c & Hrun1 & Hrun2 & Hdir);
    [simpl; lia | reflexivity
     | unfold horizon_in_range; vm_compute; reflexivity
     | unfold horizon_in_range; vm_compute; reflexivity | lia |].
  exists u1, u2, c. split; [exact Hrun1 | split; [exact Hrun2 | split]].
  - apply (proj1 (Hdir Cpu)).
    change (last_five Cpu h) with [5; 6; 7; 8; 9]%Q.
    repeat (apply never_falls_cons; [discriminate |]).
    apply never_falls_one.
  - apply (proj2 (proj2 (Hdir Memory)));
      change (last_five Memory h) with [40; 40; 40; 40; 40]%Q.
    + repeat (apply never_falls_cons; [discriminate |]).
      apply never_falls_one.
    + repeat (apply never_rises_cons; [discriminate |]).
      apply never_rises_one.
Defined.

(** *** Fewer than five rows *)

(** X22. [_neural_predict] on the features of fewer than five samples
    takes the trend to be zero: for every horizon whose quotient by 30 a
    float can hold, the usage predicted is the percentage of the latest
    reading (the reading over 100, times 100, both rounded, and clamped
    to 0 and 100), the same for all of them; for the other horizons the
    quotient is still taken and raises OverflowError.  On no sample at
    all it raises IndexError, whatever the horizon.
    ([predict_resource_needs] passes ten samples, so that it never gets
    there.) *)
Theorem short_history_ignores_the_horizon {S}
    (ms : list ResourceMetrics.t) (horizon : Z) (s : S) :
  (forall latest,
     last ms = Some latest -> (length ms < 5)%nat ->
     (horizon_in_range horizon ->
      exists usage,
        _neural_predict (_extract_prediction_features ms) horizon s
        = (Val usage, s)
        /\ forall r,
             (predicted r usage
              == percent (Py.fl (measured r latest / 100)))%Q)
     /\ (~ horizon_in_range horizon ->
         _neural_predict (_extract_prediction_features ms) horizon s
         = (Exn OverflowError, s)))
  /\ (ms = [] ->
      _neural_predict (_extract_prediction_features ms) horizon s
      = (Exn IndexError, s)).
Proof.
  split.
  - intros latest Hlast Hlen.
    apply last_Some in Hlast as [front ->].
    unfold _neural_predict, _extract_prediction_features, mbind, M_bind.
    rewrite map_app. cbn [map]. rewrite last_snoc. cbn [expect mret M_ret].
    match goal with
    | |- context [(5 <=? ?n)%nat] =>
        replace (5 <=? n)%nat with false
          by (symmetry; apply Nat.leb_gt;
              rewrite length_app, length_map in *; simpl in *; lia)
    end.
    split; intros Hr.
    + rewrite (int_truediv_in_range horizon Hr).
      cbn [mret M_ret map np.zeros replicate np.scale np.add zip_with
           lookup list_lookup expect].
      eexists. split; [reflexivity |].
      assert (Hz : Py.fl (0 * scale horizon) = 0%Q)
        by (apply fl_of_zero; ring).
      rewrite Hz.
      assert (Hc : forall x, (Py.fl (Py.fl x + 0) == Py.fl x)%Q).
      { intros x. apply (Qeq_trans _ (Py.fl (Py.fl x)));
          [apply fl_comp; ring | apply fl_idem]. }
      intros [| | |]; cbn [predicted measured Predicted.cpu_usage
        Predicted.memory_usage Predicted.gpu_usage Predicted.storage_usage];
        rewrite clamp_percent_spec; apply percent_comp, Hc.
    + rewrite (int_truediv_overflow horizon Hr). reflexivity.
  - intros ->. reflexivity.
Qed.

Lemma short_history_ignores_the_horizon_witness :
  let m := ResourceMetrics.mk 57 40 30 20 1000 (datetime.mk 0 0) in
  exists usage,
    _neural_predict (_extract_prediction_features [m; m]) 600 tt
    = (Val usage, tt)
    /\ (Predicted.cpu_usage usage == percent (Py.fl (57 / 100)))%Q
    /\ (Predicted.cpu_usage usage == 57 - Py.pow2 (-47))%Q.
Proof.
  intros m.
  destruct (proj1 (proj1 (short_history_ignores_the_horizon [m; m] 600 tt)
                     m eq_refl ltac:(simpl; lia)))
    as (usage & Hrun & Hp).
  - unfold horizon_in_range. vm_compute. reflexivity.
  - exists usage. split; [exact Hrun | split; [exact (Hp Cpu) |]].
    rewrite (Hp Cpu). vm_compute. reflexivity.
Defined.

(** *** What a successful call records *)

(** X23. A call of [monitor_resources] none of whose probes fails
    returns the very sample that it records as the newest entry of the
    history; the entries before it are the history as it was, without
    its oldest entry exactly when it was full, and the older entries
    keep their order. *)
Theorem monitor_returns_what_it_records
    (env : Probes.t) (h : history) (m : ResourceMetrics.t) :
  sample env = Some m ->
  (length h <= 1000)%nat ->
  exists h',
    monitor_resources env h = (Val m, h')
    /\ last h' = Some m
    /\ ((length h < 1000)%nat -> h' = h ++ [m])
    /\ (length h = 1000%nat -> h' = drop 1 h ++ [m])
    /\ length h' = Nat.min 1000 (length h + 1).
Proof.
  intros Hs Hlen.
  pose proof (monitor_resources_try_run env h) as Htry. rewrite Hs in Htry.
  unfold monitor_resources, try_except. rewrite Htry.
  eexists. split; [reflexivity |].
  assert (Hl : length (h ++ [m]) = S (length h))
    by (rewrite length_app; simpl; lia).
  rewrite Hl.
  destruct (Nat.ltb_spec 1000 (S (length h))) as [Hfull|Hroom].
  - assert (Hh : length h = 1000%nat) by lia.
    destruct h as [|x h]; [discriminate |].
    split; [| split; [lia | split; [reflexivity |]]].
    + cbn [app drop]. rewrite drop_0. apply last_snoc.
    + cbn [app drop]. rewrite drop_0, length_app.
      cbn [length] in *. lia.
  - split; [apply last_snoc | split; [reflexivity | split; [lia |]]].
    rewrite Hl. lia.
Qed.

Lemma monitor_returns_what_it_records_witness :
  let env :=
    Probes.mk (Some 10%Q) (Some 20%Q) false 50%Q (Some (1%Q, 2%Q))
              (Some (3%Q, 4%Q)) (datetime.mk 0 0) in
  exists m h',
    monitor_resources env [] = (Val m, h') /\ last h' = Some m.
Proof.
  intros env.
  destruct (monitor_returns_what_it_records env []
              (ResourceMetrics.mk 10 20 0 (1 / 2 * 100) (3 + 4)
                 (datetime.mk 0 0)))
    as (h' & Hrun & Hlast & _); [reflexivity | simpl; lia |].
  eexists _, h'. split; [exact Hrun | exact Hlast].
Defined.

(** *** From monitoring to prediction *)

(** X18. From a fresh orchestrator, a prediction is available exactly
    when at least ten of the monitoring calls made so far have
    succeeded, a call whose probe fails not counting, however many there
    are, and the quotient of the horizon by 30 is one that a float can
    hold.  With ten good samples and any other horizon the prediction
    fails with OverflowError, and it fails in no other case.  The call
    leaves the history as it is, and the confidence of a prediction is
    0.6 until fifty calls have succeeded. *)
Theorem prediction_needs_ten_good_samples
    (envs : list Probes.t) (horizon : Z) :
  let h := monitor_all envs __init__ in
  let good := omap sample envs in
  exists r,
    predict_resource_needs horizon h = (Val r, h)
    /\ (prediction_available r = true
        <-> (10 <= length good)%nat /\ horizon_in_range horizon)
    /\ (forall e, r = PredictionFailed e
                  <-> (10 <= length good)%nat /\ ~ horizon_in_range horizon
                      /\ e = OverflowError)
    /\ (r = InsufficientData "Insufficient historical data"
        <-> (length good < 10)%nat)
    /\ (forall usage recommendations confidence,
          r = Prediction horizon usage recommendations confidence ->
          (length good < 50)%nat -> confidence = (6 # 10)%Q).
Proof.
  intros h good.
  assert (Hh : h = Py.last_n 1000 good).
  { subst h good. rewrite monitor_all_run by (simpl; lia). reflexivity. }
  assert (Hlen : length h = Nat.min 1000 (length good))
    by (rewrite Hh; apply last_n_length).
  destruct (le_lt_dec 10 (length h)) as [Hten|Hshort].
  - destruct (Z_lt_dec (Z.abs horizon) max_horizon) as [Hr|Hr].
    + destruct (predict_runs h horizon Hten Hr) as (c & Hconf & Hrun).
      eexists. split; [exact Hrun | split; [| split; [| split]]].
      * simpl. split; [intros _; split; [lia | exact Hr] | reflexivity].
      * intros e. split; [discriminate | intros (_ & Hno & _); contradiction].
      * split; [discriminate | lia].
      * intros u rs c' [= <- <- <-] Hfew.
        revert Hconf.
        unfold _calculate_prediction_confidence, mbind, M_bind, read.
        replace (length h <? 50)%nat with true
          by (symmetry; apply Nat.ltb_lt; lia).
        now intros [= <-].
    + exists (PredictionFailed OverflowError).
      split; [now apply predict_overflow | split; [| split; [| split]]].
      * simpl. split; [discriminate | intros [_ Hin]; contradiction].
      * intros e. split.
        -- intros [= <-]. split; [lia | split; [exact Hr | reflexivity]].
        -- intros (_ & _ & ->). reflexivity.
      * split; [discriminate | lia].
      * discriminate.
  - exists (InsufficientData "Insufficient historical data").
    split; [now apply predict_short | split; [| split; [| split]]].
    + simpl. split; [discriminate | lia].
    + intros e. split; [discriminate | lia].
    + split; [lia | reflexivity].
    + discriminate.
Qed.

End OrchestratorFacts.


(** ** A request in the mode [resource_optimization] *)

Module SystemFacts.
Import NeuralResourceOrchestrator WorkloadAwareScheduler CarbonAwareScheduler.
Import V9System SystemSpec QueueSpec HeapSpec UsageSpec ForecastSpec.
Import MonitorSpec.
Import MonitorFacts PredictFacts QueueOrderFacts SchedulerFacts.
Import ForecastFacts CarbonScheduleFacts DrainFacts OrchestratorFacts.

Lemma monitor_returns (env : Probes.t) (h : history) :
  (length h <= 1000)%nat ->
  monitor_resources env h
  = (Val (returned env), Py.last_n 1000 (h ++ option_list (sample env))).
Proof.
  intros Hlen. pose proof (monitor_step env h Hlen) as Hsnd.
  pose proof (monitor_resources_try_run env h) as Htry.
  unfold monitor_resources, try_except, returned in *.
  destruct (sample env) as [m|].
  - rewrite Htry in *. apply (f_equal (pair _)). exact Hsnd.
  - destruct Htry as [e Htry]. rewrite Htry in *.
    apply (f_equal (pair _)). exact Hsnd.
Qed.








(** *** The monitoring loop *)

Lemma monitoring_pass_run (probes : Probes.t) (self : V9System.t) :
  (length (resource_orchestrator self) <= 1000)%nat ->
  monitoring_pass probes self
  = (Val tt,
     mk (Py.last_n 1000 (resource_orchestrator self
                         ++ option_list (sample probes)))
        (workload_scheduler self)
        (100 - ResourceMetrics.cpu_usage (returned probes))%Q).
Proof.
  intros Hlen.
  unfold monitoring_pass, try_except, mbind, M_bind,
    on_resource_orchestrator, read, write.
  rewrite (monitor_returns probes _ Hlen). reflexivity.
Qed.

Lemma monitoring_run (readings : list Probes.t) (self : V9System.t) :
  (length (resource_orchestrator self) <= 1000)%nat ->
  _continuous_resource_monitoring readings self
  = (Val tt,
     mk (Py.last_n 1000 (resource_orchestrator self ++ omap sample readings))
        (workload_scheduler self)
        (fold_left
           (fun _ probes =>
              (100 - ResourceMetrics.cpu_usage (returned probes))%Q)
           readings (energy_efficiency self))).
Proof.
  revert self. induction readings as [|probes rest IH]; intros self Hlen.
  - destruct self as [h q ee].
    cbn [_continuous_resource_monitoring omap list_omap fold_left
         resource_orchestrator workload_scheduler energy_efficiency] in *.
    rewrite app_nil_r, last_n_short by assumption. reflexivity.
  - cbn [_continuous_resource_monitoring]. unfold mbind, M_bind.
    rewrite (monitoring_pass_run probes self Hlen).
    rewrite IH by (cbn; rewrite last_n_length; lia).
    cbn [resource_orchestrator workload_scheduler energy_efficiency
         fold_left].
    rewrite last_n_app. do 2 f_equal.
    rewrite <- app_assoc. do 2 f_equal.
    cbn [omap list_omap]. now destruct (sample probes).
Qed.

(** X24. After any number of passages through the loop of
    [_continuous_resource_monitoring], the last of them on the reading
    [latest]: the passages all complete, the history is the newest 1000
    of the samples of the readings whose probes did not fail, the job
    queue is untouched, and the energy efficiency recorded is 100 minus
    the cpu usage of the latest sample.  When the probes of the latest
    reading fail, the efficiency recorded is 100. *)
Theorem energy_efficiency_follows_the_latest_reading
    (front : list Probes.t) (latest : Probes.t) (self : V9System.t) :
  (length (resource_orchestrator self) <= 1000)%nat ->
  exists self',
    _continuous_resource_monitoring (front ++ [latest]) self
    = (Val tt, self')
    /\ resource_orchestrator self'
       = Py.last_n 1000 (resource_orchestrator self
                         ++ omap sample (front ++ [latest]))
    /\ workload_scheduler self' = workload_scheduler self
    /\ (forall m, sample latest = Some m ->
          energy_efficiency self' = (100 - ResourceMetrics.cpu_usage m)%Q)
    /\ (probe_failure latest -> (energy_efficiency self' == 100)%Q).
Proof.
  intros Hlen. eexists. split; [apply (monitoring_run _ _ Hlen) |].
  cbn [resource_orchestrator workload_scheduler energy_efficiency].
  rewrite fold_left_app. cbn [fold_left]. unfold returned.
  split; [reflexivity | split; [reflexivity | split]].
  - intros m ->. reflexivity.
  - intros Hfail. apply sample_None in Hfail. rewrite Hfail. reflexivity.
Qed.

Lemma energy_efficiency_follows_the_latest_reading_witness :
  let good :=
    Probes.mk (Some 10%Q) (Some 20%Q) false 50%Q (Some (1%Q, 2%Q))
              (Some (3%Q, 4%Q)) (datetime.mk 0 0) in
  let bad :=
    Probes.mk None (Some 20%Q) false 50%Q (Some (1%Q, 2%Q))
              (Some (3%Q, 4%Q)) (datetime.mk 30 0) in
  exists self',
    _continuous_resource_monitoring ([good] ++ [bad]) V9System.__init__
    = (Val tt, self')
    /\ (energy_efficiency self' == 100)%Q.
Proof.
  intros good bad.
  destruct (energy_efficiency_follows_the_latest_reading [good] bad
              V9System.__init__)
    as (self' & Hrun & _ & _ & _ & Hfail); [simpl; lia |].
  exists self'. split; [exact Hrun |]. apply Hfail. left. reflexivity.
Defined.

End SystemFacts.


(** ** The range of the priorities *)

Module PriorityRangeFacts.
Import WorkloadAwareScheduler PrioritySpec PriorityFacts.

(** X20. The priority of every job lies between 80 and 185, so that
    the floor of 1 is never what is returned: the priority is the plain
    sum of the base, the type offset, the urgency modifier and the
    penalty for a weight above 2.  Both bounds are reached, by a
    critical inference job and by a heavy training job of low
    urgency. *)
Theorem priority_between_80_and_185 (job : Job) :
  80 <= _calculate_job_priority job <= 185
  /\ _calculate_job_priority job
     = 100 + spec_type_offset (get (Job.type job) "inference"%string)
       + spec_urgency_modifier (get (Job.urgency job) "normal"%string)
       + (if Py.ltb 2 (get (Job.resource_weight job) 1%Q) then 20 else 0)
  /\ _calculate_job_priority
       (Job.mk (Job.id job) (Some "inference"%string)
          (Some "critical"%string) None None None) = 80
  /\ _calculate_job_priority
       (Job.mk (Job.id job) (Some "training"%string) (Some "low"%string)
          (Some 3%Q) None None) = 185.
Proof.
  assert (F : _calculate_job_priority job
     = 100 + spec_type_offset (get (Job.type job) "inference"%string)
       + spec_urgency_modifier (get (Job.urgency job) "normal"%string)
       + (if Py.ltb 2 (get (Job.resource_weight job) 1%Q) then 20 else 0)).
  { unfold _calculate_job_priority. rewrite type_lookup, urgency_lookup.
    pose proof (type_offset_range (get (Job.type job) "inference"%string)).
    pose proof (urgency_modifier_range
                  (get (Job.urgency job) "normal"%string)).
    unfold Py.Zmax.
    destruct (Py.ltb 2 (get (Job.resource_weight job) 1%Q));
      match goal with
      | |- context [Z.ltb 1 ?p] => destruct (Z.ltb_spec 1 p)
      end; lia. }
  split; [| split; [exact F | split; reflexivity]].
  rewrite F.
  pose proof (type_offset_range (get (Job.type job) "inference"%string)).
  pose proof (urgency_modifier_range (get (Job.urgency job) "normal"%string)).
  destruct (Py.ltb 2 (get (Job.resource_weight job) 1%Q)); lia.
Qed.

End PriorityRangeFacts.
